(** * vibe-django: the phase implementation operation, the droplet user-data
      builder and the prompt utilities, embedded in Rocq.

    The development follows the TypeScript sources:
    - [PROMPT_UTILS.verifyPrompt], [replaceTemplateVariables], [serializeErrors],
      [issuesPromptFormatter], [USER_PROMPT_FORMATTER.PROJECT_CONTEXT]
                                                (worker/agents/prompts.ts)
    - [buildDefaultUserData], [createDroplet], [getDroplet],
      [waitForDropletActive], [deployToDigitalOceanDroplet]
                                                (the DigitalOcean deployment helper)
    - [PhaseImplementationOperation.execute]    (the phase implementation operation)
    The operation imports the SCOF streaming parser and [FileProcessing],
    whose code is not among the sources; it is verified for every parser and
    every [FileProcessing], and the two are then modelled from the written
    specification for the properties that are about them.

    The first part of the file holds the models, the second part the
    properties. *)

From Stdlib Require Import Ascii String DecimalString.
From stdpp Require Import gmap strings list.

Set Default Proof Using "Type".

(** ** JavaScript values shared by all parts *)

(** A JavaScript call either returns a value or throws. *)
Inductive Outcome (E A : Type) : Type :=
| Returned (a : A)
| Thrown (e : E).
Arguments Returned {E A} a.
Arguments Thrown {E A} e.

Definition hasReturned {E A : Type} (r : Outcome E A) : bool :=
  match r with
  | Returned _ => true
  | Thrown _ => false
  end.

Definition returnedValue {E A : Type} (r : Outcome E A) : option A :=
  match r with
  | Returned a => Some a
  | Thrown _ => None
  end.

Definition newline : ascii := "010"%char.
Definition hyphen : ascii := "-"%char.
Definition dquote : ascii := "034"%char.
Definition backslash : ascii := "092"%char.

(** [s.split(sep)] for a one-character separator, on the characters of [s]:
    the pieces between the separators, so that a string with [k] separators
    has [k + 1] pieces. *)
Fixpoint split_chars (sep : ascii) (s : list ascii) : list (list ascii) :=
  match s with
  | [] => [[]]
  | c :: t =>
      if decide (c = sep) then [] :: split_chars sep t
      else match split_chars sep t with
           | [] => [[c]]
           | piece :: pieces => (c :: piece) :: pieces
           end
  end.

Definition split (sep : ascii) (s : string) : list string :=
  string_of_list_ascii <$> split_chars sep (list_ascii_of_string s).

(** A string without a newline. *)
Definition oneLine (s : string) : Prop := newline ∉ list_ascii_of_string s.

(** [pieces.join(sep)] for a one-character separator. *)
Fixpoint join (sep : ascii) (pieces : list string) : string :=
  match pieces with
  | [] => ""
  | [p] => p
  | p :: rest => p +:+ String sep (join sep rest)
  end.

(** [s.replace(/c/g, by)] for a single literal character [c]. *)
Fixpoint replaceAllChar (c : ascii) (by_ : string) (s : string) : string :=
  match s with
  | EmptyString => ""
  | String d t =>
      if decide (d = c) then by_ +:+ replaceAllChar c by_ t
      else String d (replaceAllChar c by_ t)
  end.

(** ** worker/agents/prompts.ts *)

Module Prompts.

  (** [verifyPrompt(prompt)]: the check for unreplaced [{{variables}}] is
      commented out in the source, what is left is [return prompt]. *)
Definition verifyPrompt (prompt : string) : Outcome string string :=
    Returned prompt.

  (** [prompt.includes('{{')], the test of the commented-out guard. *)
Fixpoint includesOpenBraces (prompt : string) : bool :=
    match prompt with
    | String "{" (String "{" _ as t) => true
    | String _ t => includesOpenBraces t
    | EmptyString => false
    end.

End Prompts.

(** ** Methods of [String.prototype] used by the prompt utilities *)

Module JsString.

Abbreviation chars := list_ascii_of_string.
Abbreviation ofChars := string_of_list_ascii.

Definition dollar : ascii := "$"%char.

(** [s.startsWith(p)], on the characters. *)
Fixpoint startsWith (p s : list ascii) : bool :=
  match p, s with
  | [], _ => true
  | a :: p', b :: s' => bool_decide (a = b) && startsWith p' s'
  | _ :: _, [] => false
  end.

(** [s.includes(p)]: [p] starts at some index of [s]. *)
Fixpoint includesChars (s p : list ascii) : bool :=
  startsWith p s || match s with [] => false | _ :: t => includesChars t p end.

Definition includes (s p : string) : bool := includesChars (chars s) (chars p).

(** [s.slice(0, n)] *)
Definition sliceTo (n : nat) (s : string) : string := ofChars (take n (chars s)).

(** [pieces.join(sep)] for a separator of any length. *)
Fixpoint joinWith (sep : string) (pieces : list string) : string :=
  match pieces with
  | [] => ""
  | [piece] => piece
  | piece :: rest => piece +:+ sep +:+ joinWith sep rest
  end.

(** The replacement text of one match, for a search by string (no captures,
    no named groups): in the replace value, [$$] stands for a dollar, [$&]
    for the match, [$`] for the text before the match and [$'] for the text
    after it; every other character, a dollar followed by a digit or by [<]
    too, is copied. *)
Fixpoint getSubstitution (matched before after template : list ascii) : list ascii :=
  match template with
  | [] => []
  | c :: t =>
      if bool_decide (c = dollar) then
        match t with
        | d :: t' =>
            if bool_decide (d = dollar) then dollar :: getSubstitution matched before after t'
            else if bool_decide (d = "&"%char) then matched ++ getSubstitution matched before after t'
            else if bool_decide (d = "`"%char) then before ++ getSubstitution matched before after t'
            else if bool_decide (d = "'"%char) then after ++ getSubstitution matched before after t'
            else c :: getSubstitution matched before after t
        | [] => [c]
        end
      else c :: getSubstitution matched before after t
  end.

(** [s.replaceAll(p, r)] for strings [p] and [r]: the matches are found from
    left to right in [s], each search starting after the match before (one
    character further for the empty [p]); the text between the matches is
    kept. [before] is the part of [s] already passed, [skip] the number of
    characters left of the match being passed. *)
Fixpoint replaceAllFrom (p r : list ascii) (skip : nat) (before rest : list ascii)
    : list ascii :=
  match rest with
  | [] =>
      match skip, p with
      | 0, [] => getSubstitution [] before [] r
      | _, _ => []
      end
  | c :: t =>
      match skip with
      | S k => replaceAllFrom p r k (before ++ [c]) t
      | 0 =>
          if startsWith p rest then
            getSubstitution p before (drop (length p) rest) r ++
            match p with
            | [] => c :: replaceAllFrom p r 0 (before ++ [c]) t
            | _ :: q => replaceAllFrom p r (length q) (before ++ [c]) t
            end
          else c :: replaceAllFrom p r 0 (before ++ [c]) t
      end
  end.

Definition replaceAll (s p r : string) : string :=
  ofChars (replaceAllFrom (chars p) (chars r) 0 [] (chars s)).

(** [p] starts at index [i] of [s]. *)
Definition matchesAt (p s : list ascii) (i : nat) : Prop :=
  i ≤ length s ∧ startsWith p (drop i s) = true.

End JsString.

(** ** worker/agents/prompts.ts, the other utilities *)

Module PromptUtils.
Import JsString.

(** [`{{${key}}}`] *)
Definition placeholder (key : string) : string := "{{" +:+ key +:+ "}}".

(** [replaceTemplateVariables(template, variables)]. [variables] holds the
    entries of the object in the order of [Object.entries]; a value may be
    [undefined], which [?? ''] turns into the empty string. *)
Definition replaceTemplateVariables (template : string)
    (variables : list (string * option string)) : string :=
  foldl (fun result entry => replaceAll result (placeholder entry.1) (default "" entry.2))
    template variables.

(** A [RuntimeError] as the prompts read it: its raw output, which may be
    missing, and its message. *)
Record RuntimeError := {
  rawOutput : option string;
  message : string
}.

(** [x || y] on strings: the empty string and [undefined] are falsy. *)
Definition orElse (x : option string) (y : string) : string :=
  match x with
  | Some (String c t) => String c t
  | _ => y
  end.

Section Serializers.
(** [TemplateRegistry.markdown.serialize(e, RuntimeErrorSchema)], from a
    module that is not among the sources. *)
Variable serializeRuntimeError : RuntimeError → string.

(** [serializeErrors(errors)]; [errors] may be [null] or [undefined]. *)
Definition serializeErrors (errors : option (list RuntimeError)) : string :=
  match errors with
  | Some (e :: rest) =>
      joinWith (String newline (String newline ""))
        ((fun e => sliceTo 1000 (orElse (rawOutput e) (serializeRuntimeError e)))
           <$> (e :: rest))
  | _ => "N/A"
  end.
End Serializers.

(** [`${value}`] for a string that may be [undefined]. *)
Definition interpolate (value : option string) : string := default "undefined" value.

(** [`${n}`] for the length of an array. *)
Definition numberToString (n : nat) : string := NilEmpty.string_of_uint (Nat.to_uint n).

(** The response of the static analysis as the prompts read it: for the
    linter and for the type checker, the list of the issues and the raw
    output; each of them may be missing. *)
Module StaticAnalysis.
Record CodeAnalysis {CodeIssue : Type} := {
  issues : option (list CodeIssue);
  rawOutput : option string
}.
Arguments CodeAnalysis : clear implicits.

Record StaticAnalysisResponse {CodeIssue : Type} := {
  lint : option (CodeAnalysis CodeIssue);
  typecheck : option (CodeAnalysis CodeIssue)
}.
Arguments StaticAnalysisResponse : clear implicits.
End StaticAnalysis.

Record IssueReport {CodeIssue : Type} := {
  runtimeErrors : list RuntimeError;
  staticAnalysis : StaticAnalysis.StaticAnalysisResponse CodeIssue
}.
Arguments IssueReport : clear implicits.

(** [serializeStaticAnalysis(staticAnalysis)] *)
Definition serializeStaticAnalysis {CodeIssue : Type}
    (staticAnalysis : StaticAnalysis.StaticAnalysisResponse CodeIssue) : string :=
  let lintOutput :=
    orElse (StaticAnalysis.lint staticAnalysis ≫= StaticAnalysis.rawOutput)
      "No linting issues detected" in
  let typecheckOutput :=
    orElse (StaticAnalysis.typecheck staticAnalysis ≫= StaticAnalysis.rawOutput)
      "No type checking issues detected" in
  join newline
    [ "**LINT ANALYSIS:**";
      lintOutput;
      "";
      "**TYPE CHECK ANALYSIS:**";
      typecheckOutput ].

(** [issues.runtimeErrors.map((error) => `<error>${error.rawOutput}</error>`).join('\n')] *)
Definition runtimeErrorsText (errors : list RuntimeError) : string :=
  join newline
    ((fun error => "<error>" +:+ interpolate (rawOutput error) +:+ "</error>") <$> errors).

(** [runtimeErrorsText.includes('Maximum update depth') ||
     runtimeErrorsText.includes('Too many re-renders')] *)
Definition containsRenderLoops (text : string) : bool :=
  includes text "Maximum update depth" || includes text "Too many re-renders".

(** [x?.issues?.length || 0] *)
Definition issueCount {CodeIssue : Type}
    (analysis : option (StaticAnalysis.CodeAnalysis CodeIssue)) : nat :=
  default 0 (length <$> (analysis ≫= StaticAnalysis.issues)).

(** [issuesPromptFormatter(issues)] *)
Definition issuesPromptFormatter {CodeIssue : Type} (issues : IssueReport CodeIssue) : string :=
  let runtimeErrorsText := runtimeErrorsText (runtimeErrors issues) in
  let staticAnalysisText := serializeStaticAnalysis (staticAnalysis issues) in
  join newline
    [ "## ERROR ANALYSIS PRIORITY MATRIX";
      "";
      "### 1. CRITICAL RUNTIME ERRORS (Fix First - Deployment Blockers)";
      "**Error Count:** " +:+ numberToString (length (runtimeErrors issues))
        +:+ " runtime errors detected";
      "**Contains Render Loops:** "
        +:+ (if containsRenderLoops runtimeErrorsText
             then "YES - HIGHEST PRIORITY" else "No");
      "";
      orElse (Some runtimeErrorsText) "No runtime errors detected";
      "";
      "### 2. STATIC ANALYSIS ISSUES (Fix After Runtime Issues)";
      "**Lint Issues:** "
        +:+ numberToString (issueCount (StaticAnalysis.lint (staticAnalysis issues)));
      "**Type Issues:** "
        +:+ numberToString (issueCount (StaticAnalysis.typecheck (staticAnalysis issues)));
      "";
      staticAnalysisText;
      "";
      "## ANALYSIS INSTRUCTIONS";
      "- **PRIORITIZE** " +:+ String dquote ("Maximum update depth exceeded"
        +:+ String dquote " and useEffect-related errors  ");
      "- **CROSS-REFERENCE** error messages with current code structure (line numbers may be outdated)";
      "- **VALIDATE** reported issues against actual code patterns before fixing";
      "- **FOCUS** on deployment-blocking runtime errors over linting issues" ].

(** The constant [PROMPT_UTILS.PROJECT_CONTEXT]. *)
Definition PROJECT_CONTEXT : string :=
  join newline
    [ "Here is everything you will need for the project:";
      "";
      "<PROJECT CONTEXT>";
      "";
      "<COMPLETED PHASES>";
      "";
      "The following phases have been completed and implemented:";
      "";
      "{{phases}}";
      "";
      "</COMPLETED PHASES>";
      "";
      "<CODEBASE>";
      "";
      "Here are all the relevant files in the current codebase:";
      "";
      "{{files}}";
      "";
      "**THESE DO NOT INCLUDE PREINSTALLED SHADCN COMPONENTS, REDACTED FOR SIMPLICITY. BUT THEY DO EXIST AND YOU CAN USE THEM.**";
      "";
      "</CODEBASE>";
      "";
      "{{commandsHistory}}";
      "";
      "</PROJECT CONTEXT>";
      "" ].

End PromptUtils.

(** ** The DigitalOcean deployment helper *)

Module DigitalOcean.

(** A string is the sequence of its code units. The replacements below look
    at one code unit at a time and only ask whether it is in [[a-z0-9-]]. *)

Definition isLower (c : ascii) : bool :=
    (97 <=? nat_of_ascii c) && (nat_of_ascii c <=? 122).
Definition isUpper (c : ascii) : bool :=
    (65 <=? nat_of_ascii c) && (nat_of_ascii c <=? 90).
Definition isDigit (c : ascii) : bool :=
    (48 <=? nat_of_ascii c) && (nat_of_ascii c <=? 57).
Definition isHyphen (c : ascii) : bool := bool_decide (c = hyphen).

  (** The character class [[a-z0-9-]]. *)
Definition inNameClass (c : ascii) : bool := isLower c || isDigit c || isHyphen c.

  (** [.replace(/[^a-z0-9-]/g, '-')]: every character outside the class
      becomes a hyphen. *)
Definition replaceDisallowed (s : list ascii) : list ascii :=
    (fun c => if inNameClass c then c else hyphen) <$> s.

  (** [.replace(/-+/g, '-')]: every maximal run of hyphens becomes one hyphen;
      a hyphen is dropped exactly when another hyphen follows it. *)
Fixpoint collapseHyphens (s : list ascii) : list ascii :=
    match s with
    | [] => []
    | c :: t =>
        if isHyphen c then
          match t with
          | d :: _ => if isHyphen d then collapseHyphens t else c :: collapseHyphens t
          | [] => [c]
          end
        else c :: collapseHyphens t
    end.

  (** [.replace(/^-|-$/g, '')]: the scan removes a hyphen at index 0, then a
      hyphen at the last index of what follows. *)
Definition stripLeadingHyphen (s : list ascii) : list ascii :=
    match s with
    | c :: t => if isHyphen c then t else s
    | [] => []
    end.

Fixpoint stripTrailingHyphen (s : list ascii) : list ascii :=
    match s with
    | [] => []
    | [c] => if isHyphen c then [] else [c]
    | c :: t => c :: stripTrailingHyphen t
    end.

Definition stripEdgeHyphens (s : list ascii) : list ascii :=
    stripTrailingHyphen (stripLeadingHyphen s).

  (** ASCII case folding, the part of [String.prototype.toLowerCase] that
      does not depend on the Unicode tables of the engine. *)
Definition asciiToLowerCase (s : string) : string :=
    string_of_list_ascii
      ((fun c => if isUpper c then ascii_of_nat (nat_of_ascii c + 32) else c)
         <$> list_ascii_of_string s).

Section UserData.
    (** [String.prototype.toLowerCase] is a builtin of the engine; the
        results below hold for whatever it returns. *)
Variable toLowerCase : string -> string.

    (** The chain of replacements applied to [appName], before [|| 'vibe-app']. *)
Definition sanitizeName (appName : string) : string :=
      string_of_list_ascii
        (stripEdgeHyphens
           (collapseHyphens
              (replaceDisallowed (list_ascii_of_string (toLowerCase appName))))).

    (** [const safeName = appName ... || 'vibe-app'] *)
Definition safeName (appName : string) : string :=
      let sanitized := sanitizeName appName in
      if decide (sanitized = "") then "vibe-app" else sanitized.

    (** [const safeSummary = (summary ?? '...').replace(...)...] *)
Definition safeSummary (summary : option string) : string :=
      replaceAllChar "`" (String backslash "`")
        (replaceAllChar ">" "&gt;"
           (replaceAllChar "<" "&lt;"
              (replaceAllChar "&" "&amp;"
                 (default "Generated application deployed by Vibe" summary)))).

Definition html (appName : string) (summary : option string) : string :=
      join newline
        [ "<!DOCTYPE html>";
          "<html lang=" +:+ String dquote ("en" +:+ String dquote ">");
          "<head>";
          "  <meta charset=" +:+ String dquote ("utf-8" +:+ String dquote " />");
          "  <title>" +:+ safeName appName +:+ " deployment</title>";
          "  <style>";
          "    body { font-family: sans-serif; padding: 2rem; background: #0f172a; color: #f8fafc; }";
          "    main { max-width: 720px; margin: 0 auto; }";
          "    h1 { font-size: 2rem; margin-bottom: 1rem; }";
          "    p { line-height: 1.6; }";
          "    code { background: rgba(15, 23, 42, 0.6); padding: 0.25rem 0.5rem; border-radius: 0.375rem; }";
          "  </style>";
          "</head>";
          "<body>";
          "  <main>";
          "    <h1>" +:+ safeName appName +:+ "</h1>";
          "    <p>" +:+ safeSummary summary +:+ "</p>";
          "    <p>Update this droplet by SSHing into it and replacing the contents of <code>/var/www/html</code>.</p>";
          "  </main>";
          "</body>";
          "</html>" ].

Definition buildDefaultUserData (appName : string) (summary : option string) : string :=
      join newline
        [ "#!/bin/bash";
          "set -e";
          "export DEBIAN_FRONTEND=noninteractive";
          "apt-get update -y";
          "apt-get install -y nginx";
          "cat <<'EOF_HTML' >/var/www/html/index.html";
          html appName summary;
          "EOF_HTML";
          "systemctl enable nginx";
          "systemctl restart nginx";
          "" ].
End UserData.

  (** A lowercase ASCII letter, a digit or a hyphen. *)
Definition nameChar (c : ascii) : Prop :=
  97 ≤ nat_of_ascii c ≤ 122 ∨ 48 ≤ nat_of_ascii c ≤ 57 ∨ c = hyphen.

(** No two neighbouring hyphens. *)
Fixpoint noDoubleHyphen (s : list ascii) : Prop :=
    match s with
    | c :: (d :: _) as t => ¬ (c = hyphen ∧ d = hyphen) ∧ noDoubleHyphen t
    | _ => True
    end.

(** The text that stands for one character of the summary after the four
    replacements of [safeSummary]. *)
Definition escapeChar (c : ascii) : list ascii :=
  if bool_decide (c = "&"%char) then list_ascii_of_string "&amp;"
  else if bool_decide (c = "<"%char) then list_ascii_of_string "&lt;"
  else if bool_decide (c = ">"%char) then list_ascii_of_string "&gt;"
  else if bool_decide (c = "`"%char) then [backslash; "`"%char]
  else [c].

Definition escape (s : list ascii) : list ascii := s ≫= escapeChar.

(** The reading of an escaped summary from left to right: [&amp;], [&lt;],
    [&gt;] and a backslash with a backtick stand for one character each. *)
Fixpoint unescape (s : list ascii) : list ascii :=
  match s with
  | [] => []
  | c :: t =>
      if bool_decide (c = "&"%char) then
        match t with
        | "a"%char :: "m"%char :: "p"%char :: ";"%char :: t' => "&"%char :: unescape t'
        | "l"%char :: "t"%char :: ";"%char :: t' => "<"%char :: unescape t'
        | "g"%char :: "t"%char :: ";"%char :: t' => ">"%char :: unescape t'
        | _ => c :: unescape t
        end
      else if bool_decide (c = backslash) then
        match t with
        | "`"%char :: t' => "`"%char :: unescape t'
        | _ => c :: unescape t
        end
      else c :: unescape t
  end.

(** The lines of a text other than its first line and its last line. *)
Definition innerLines (s : string) : list string :=
  removelast (tail (split newline s)).

End DigitalOcean.

(** ** The phase implementation operation *)

Module PhaseImplementation.

Inductive Format := full_content | unified_diff.

(** [FileOutputType], with the [format] tag the streaming parser keeps on
    the files of [completedFiles]. *)
Record FileOutputType := mkFile {
  filePath : string;
  fileContents : string;
  filePurpose : string;
  format : Format
}.

Record PhaseFile := { path : string; purpose : string }.

Record PhaseConceptType := {
  name : string;
  description : string;
  files : list PhaseFile
}.

(** A thrown JavaScript error: its class name and its message. *)
Record JsError := mkError { errorName : string; errorMessage : string }.

Abbreviation Result := (Outcome JsError).

(** The arguments of a call of the logger, and the call with its level. *)
Inductive LogArg :=
| LogText (s : string)
| LogNumber (n : nat)
| LogList (l : list string)
| LogCommands (c : option (list string)).

Inductive LogLevel := LevelInfo | LevelWarn | LevelError.

Definition LogCall : Type := LogLevel * list LogArg.

(** What [execute] imports from modules whose code is not at hand: the
    feature flag of the realtime code fixer and the two static methods of
    [FileProcessing]. [processGeneratedFileContents] is given the logger: it
    returns the log calls it made, with its result or exception. *)
Class Collaborators := {
  TemplateDetails : Type;
  InferenceContext : Type;
  IsRealtimeCodeFixerEnabled : InferenceContext → bool;
  findFilePurpose : string → PhaseConceptType → gmap string FileOutputType → string;
  processGeneratedFileContents : FileOutputType → string → list LogCall * Result string
}.

(** The state of a promise and the call that created it. *)
Inductive PromiseState :=
| Pending
| Fulfilled (file : FileOutputType)
| Rejected (reason : JsError).

Inductive PromiseSource `{Collaborators} :=
| RealtimeCodeFixerRun (generatedFile : FileOutputType)
    (query : string) (template : TemplateDetails) (phase : PhaseConceptType)
| PromiseResolve (generatedFile : FileOutputType).

Arguments RealtimeCodeFixerRun {_} _ _ _ _.
Arguments PromiseResolve {_} _.

Record Promise `{Collaborators} := mkPromise {
  source : PromiseSource;
  settled : PromiseState
}.
Arguments mkPromise {_} _ _.

(** The file a promise was created for. *)
Definition sourceFile `{Collaborators} (s : PromiseSource) : FileOutputType :=
  match s with
  | RealtimeCodeFixerRun generatedFile _ _ _ => generatedFile
  | PromiseResolve generatedFile => generatedFile
  end.

Definition promiseFile `{Collaborators} (p : Promise) : FileOutputType :=
  sourceFile (source p).

Definition viaFixer `{Collaborators} (p : Promise) : bool :=
  match source p with
  | RealtimeCodeFixerRun _ _ _ _ => true
  | PromiseResolve _ => false
  end.

(** [SCOFParsingState]: [execute] creates it as [{}] and reads one field. *)
Record SCOFParsingState := {
  extractedInstallCommands : option (list string)
}.

Record CodeGenerationStreamingState := mkStreaming {
  accumulator : string;
  completedFiles : gmap string FileOutputType;
  parsingState : SCOFParsingState
}.

(** Calls that leave the operation: the logger and the callbacks of the inputs. *)
Inductive Effect :=
| LoggerInfo (args : list LogArg)
| LoggerWarn (args : list LogArg)
| LoggerError (args : list LogArg)
| FileGeneratingCallback (filePath filePurpose : string)
| FileChunkGeneratedCallback (filePath chunk : string) (format : Format)
| FileClosedCallback (file : FileOutputType) (message : string).

Record PhaseImplementationInputs := {
  phase : PhaseConceptType;
  isFirstPhase : bool;
  shouldAutoFix : bool
}.

Record GenerationContext `{Collaborators} := {
  query : string;
  templateDetails : TemplateDetails;
  allFiles : list FileOutputType
}.

Record OperationOptions `{Collaborators} := {
  context : GenerationContext;
  inferenceContext : InferenceContext
}.

Record PhaseImplementationOutputs `{Collaborators} := {
  fixedFilePromises : list Promise;
  deploymentNeeded : bool;
  commands : option (list string)
}.

(** The mutable objects of one call of [execute]: [streamingState], the
    array [fixedFilePromises], and the effects performed so far. *)
Record Heap `{Collaborators} := mkHeap {
  h_streamingState : CodeGenerationStreamingState;
  h_fixedFilePromises : list Promise;
  h_effects : list Effect
}.
Arguments mkHeap {_} _ _ _.

(** State and exceptions. *)
Definition M `{Collaborators} (A : Type) : Type := Heap → Result A * Heap.

#[global] Instance M_ret `{Collaborators} : MRet M :=
  fun A (a : A) h => (Returned a, h).

#[global] Instance M_bind `{Collaborators} : MBind M :=
  fun A B (k : A → M B) (m : M A) h =>
    match m h with
    | (Returned a, h') => k a h'
    | (Thrown e, h') => (Thrown e, h')
    end.

(** A log call as an effect of the operation. *)
Definition logged (call : LogCall) : Effect :=
  match call.1 with
  | LevelInfo => LoggerInfo call.2
  | LevelWarn => LoggerWarn call.2
  | LevelError => LoggerError call.2
  end.

(** A call of a collaborator that was given the logger. *)
Definition callWithLogger `{Collaborators} {A} (r : list LogCall * Result A) : M A :=
  fun h => (r.2,
            mkHeap (h_streamingState h) (h_fixedFilePromises h)
              (h_effects h ++ (logged <$> r.1))).

Definition perform `{Collaborators} (e : Effect) : M unit :=
  fun h => (Returned tt,
            mkHeap (h_streamingState h) (h_fixedFilePromises h) (h_effects h ++ [e])).

Definition getStreamingState `{Collaborators} : M CodeGenerationStreamingState :=
  fun h => (Returned (h_streamingState h), h).

Definition setStreamingState `{Collaborators} (s : CodeGenerationStreamingState) : M unit :=
  fun h => (Returned tt, mkHeap s (h_fixedFilePromises h) (h_effects h)).

Definition getPromises `{Collaborators} : M (list Promise) :=
  fun h => (Returned (h_fixedFilePromises h), h).

(** [fixedFilePromises.push(p)] *)
Definition push `{Collaborators} (p : Promise) : M unit :=
  fun h => (Returned tt,
            mkHeap (h_streamingState h) (h_fixedFilePromises h ++ [p]) (h_effects h)).

(** [completedFile.fileContents = contents], on the object stored under
    [key] in [completedFiles]. *)
Definition assignFileContents `{Collaborators}
    (key : string) (completedFile : FileOutputType) (contents : string) : M unit :=
  s ← getStreamingState;
  setStreamingState
    (mkStreaming (accumulator s)
       (<[key := mkFile (filePath completedFile) contents
                   (filePurpose completedFile) (format completedFile)]>
          (completedFiles s))
       (parsingState s)).

(** [context.allFiles.find(f => f.filePath === filePath)?.fileContents || ''] *)
Definition originalContentsOf (allFiles : list FileOutputType) (p : string) : string :=
  match List.find (fun f => bool_decide (filePath f = p)) allFiles with
  | Some f => fileContents f
  | None => ""
  end.

(** [context.allFiles.reduce((acc, f) => ({ ...acc, [f.filePath]: f }), {})] *)
Definition filesByPath (allFiles : list FileOutputType) : gmap string FileOutputType :=
  foldl (fun acc f => <[filePath f := f]> acc) ∅ allFiles.

(** [fileContents.split('\n').length] *)
Definition lineCount (contents : string) : nat := length (split newline contents).

(** [b] is the promise [a], possibly settled since: the same call created
    it, and a promise that was settled has not changed. *)
Definition settledFrom `{Collaborators} (a b : Promise) : Prop :=
  source b = source a ∧ (settled a ≠ Pending → b = a).

Section Execute.
Context `{Collaborators}.
Variable inputs : PhaseImplementationInputs.
Variable options : OperationOptions.

(** [const shouldEnableRealtimeCodeFixer =
       inputs.shouldAutoFix && IsRealtimeCodeFixerEnabled(options.inferenceContext)] *)
Definition shouldEnableRealtimeCodeFixer : bool :=
  shouldAutoFix inputs && IsRealtimeCodeFixerEnabled (inferenceContext options).

(** The first callback given to [parseStreamingChunks]. *)
Definition onFileOpen (p : string) : M unit :=
  perform (LoggerInfo [LogText ("Starting generation of file: " +:+ p)]);;
  perform (FileGeneratingCallback p
             (findFilePurpose p (phase inputs) (filesByPath (allFiles (context options))))).

(** The second callback. *)
Definition onContentChunk (p fileChunk : string) (fmt : Format) : M unit :=
  perform (FileChunkGeneratedCallback p fileChunk fmt).

(** The file handed to the fixer or to [Promise.resolve]:
    [{ ...completedFile, filePurpose: findFilePurpose(...) }], after the
    assignment of the processed contents to [completedFile]. *)
Definition generatedFileOf (p : string) (completedFile : FileOutputType)
    (contents : string) : FileOutputType :=
  mkFile (filePath completedFile) contents
    (findFilePurpose p (phase inputs) (filesByPath (allFiles (context options))))
    (format completedFile).

(** The promise that [onFileClose] below pushes for a file whose processed
    contents are [contents], by the two branches of its [if]. *)
Definition pushedPromise (p : string) (completedFile : FileOutputType)
    (contents : string) : Promise :=
  let generatedFile := generatedFileOf p completedFile contents in
  if shouldEnableRealtimeCodeFixer && (50 <? lineCount (fileContents generatedFile)) then
    mkPromise
      (RealtimeCodeFixerRun generatedFile (query (context options))
         (templateDetails (context options)) (phase inputs))
      Pending
  else mkPromise (PromiseResolve generatedFile) (Fulfilled generatedFile).

(** The log calls [processGeneratedFileContents] makes for the file stored
    under [p]. *)
Definition processLog (p : string) (completedFile : FileOutputType) : list Effect :=
  logged <$> (processGeneratedFileContents completedFile
                (originalContentsOf (allFiles (context options)) p)).1.

(** The third callback, [onFileClose]. *)
Definition onFileClose (p : string) : M unit :=
  perform (LoggerInfo [LogText ("Completed generation of file: " +:+ p)]);;
  s ← getStreamingState;
  match completedFiles s !! p with
  | None =>
      perform (LoggerError [LogText ("Completed file not found: " +:+ p)])
  | Some completedFile =>
      let originalContents := originalContentsOf (allFiles (context options)) p in
      contents ← callWithLogger (processGeneratedFileContents completedFile originalContents);
      assignFileContents p completedFile contents;;
      let generatedFile := generatedFileOf p completedFile contents in
      (if shouldEnableRealtimeCodeFixer && (50 <? lineCount (fileContents generatedFile))
       then
         push (mkPromise
                 (RealtimeCodeFixerRun generatedFile (query (context options))
                    (templateDetails (context options)) (phase inputs))
                 Pending)
       else
         push (mkPromise (PromiseResolve generatedFile) (Fulfilled generatedFile)));;
      perform (FileClosedCallback generatedFile ("Completed generation of " +:+ p))
  end.

(** What happens while [executeInference] is awaited: the parser, called on
    every chunk, writes to [streamingState] and calls the three callbacks;
    between chunks, a correction task started earlier may settle. *)
Inductive StreamAction :=
| ParserSetsAccumulator (text : string)
| ParserSetsCompleted (p : string) (file : FileOutputType)
| ParserSetsParsingState (ps : SCOFParsingState)
| ParserOpensFile (p : string)
| ParserEmitsChunk (p chunk : string) (fmt : Format)
| ParserClosesFile (p : string)
| FixSettles (i : nat) (result : Result FileOutputType).

(** A promise settles once; [Promise.resolve] promises are settled from the start. *)
Definition settle (result : Result FileOutputType) (p : Promise) : Promise :=
  match settled p with
  | Pending =>
      mkPromise (source p)
        (match result with
         | Returned file => Fulfilled file
         | Thrown e => Rejected e
         end)
  | _ => p
  end.

Definition act (a : StreamAction) : M unit :=
  match a with
  | ParserSetsAccumulator text =>
      s ← getStreamingState;
      setStreamingState (mkStreaming text (completedFiles s) (parsingState s))
  | ParserSetsCompleted p file =>
      s ← getStreamingState;
      setStreamingState
        (mkStreaming (accumulator s) (<[p := file]> (completedFiles s)) (parsingState s))
  | ParserSetsParsingState ps =>
      s ← getStreamingState;
      setStreamingState (mkStreaming (accumulator s) (completedFiles s) ps)
  | ParserOpensFile p => onFileOpen p
  | ParserEmitsChunk p chunk fmt => onContentChunk p chunk fmt
  | ParserClosesFile p => onFileClose p
  | FixSettles i result =>
      fun h => (Returned tt,
                mkHeap (h_streamingState h)
                  (alter (settle result) i (h_fixedFilePromises h))
                  (h_effects h))
  end.

(** [await executeInference({ ..., stream: { onChunk } })]. The code of
    [executeInference] and of the parser is not among the sources: a callback
    that throws is taken to end the call by its exception, as a call with no
    handler around it does. *)
Fixpoint executeInference (stream : list StreamAction) : M unit :=
  match stream with
  | [] => mret tt
  | a :: rest => act a;; executeInference rest
  end.

(** The heap when [executeInference] is called. *)
Definition initialHeap : Heap :=
  mkHeap (mkStreaming "" ∅ {| extractedInstallCommands := None |}) [] [].

(** The first statement of [execute], a call of [logger.info]. *)
Definition logPhaseStart : M unit :=
  perform (LoggerInfo [LogText ("Generating files for phase: " +:+ name (phase inputs));
                       LogText (description (phase inputs)); LogText "files:";
                       LogList (path <$> files (phase inputs))]).


(** The promise [pr] is the one entry of a closed file: a promise of the
    realtime code fixer for the generated file when the file is eligible,
    else the promise resolved with the generated file itself. *)
Definition closeMatches (closed : string * FileOutputType) (pr : Promise) : Prop :=
  ∃ contents,
    (processGeneratedFileContents closed.2
       (originalContentsOf (allFiles (context options)) closed.1)).2 = Returned contents ∧
    let generatedFile := generatedFileOf closed.1 closed.2 contents in
    if shouldEnableRealtimeCodeFixer && (50 <? lineCount contents) then
      source pr = RealtimeCodeFixerRun generatedFile (query (context options))
                    (templateDetails (context options)) (phase inputs)
    else pr = mkPromise (PromiseResolve generatedFile) (Fulfilled generatedFile).

(** [execute(inputs, options)], along one stream. The messages built for the
    model and the choice of the model configuration do not reach the outputs
    and are left out. *)
Definition execute (stream : list StreamAction) : M PhaseImplementationOutputs :=
  logPhaseStart;;
  executeInference stream;;
  s ← getStreamingState;
  promises ← getPromises;
  let commands := extractedInstallCommands (parsingState s) in
  perform (LoggerInfo [LogText "Files generated for phase:"; LogText (name (phase inputs));
                       LogText "with"; LogNumber (length promises);
                       LogText "files being fixed in real-time and extracted install commands:";
                       LogCommands commands]);;
  mret {| fixedFilePromises := promises;
         deploymentNeeded := 0 <? length promises;
         commands := commands |}.

End Execute.

(** *** Observations on a run *)

(** The promise that a close appended to [fixedFilePromises] went to the
    realtime code fixer. *)
Definition routedThroughFixer `{Collaborators} (before after : Heap) : Prop :=
  ∃ p, h_fixedFilePromises after = h_fixedFilePromises before ++ [p] ∧ viaFixer p = true.

(** The files given to [fileClosedCallback], in the order of the calls. *)
Definition closedFiles (es : list Effect) : list FileOutputType :=
  omap (fun e => match e with FileClosedCallback file _ => Some file | _ => None end) es.

(** The calls of the callbacks of the inputs, without the log. *)
Definition callbacks (es : list Effect) : list Effect :=
  omap (fun e => match e with
                 | LoggerInfo _ | LoggerWarn _ | LoggerError _ => None
                 | _ => Some e
                 end) es.

(** Two heaps that differ in the log only. *)
Definition sameButLog `{Collaborators} (h1 h2 : Heap) : Prop :=
  h_streamingState h1 = h_streamingState h2 ∧
  h_fixedFilePromises h1 = h_fixedFilePromises h2 ∧
  callbacks (h_effects h1) = callbacks (h_effects h2).

(** Two heaps that differ in the states of the promises only. *)
Definition sameButSettled `{Collaborators} (h1 h2 : Heap) : Prop :=
  h_streamingState h1 = h_streamingState h2 ∧
  h_effects h1 = h_effects h2 ∧
  source <$> h_fixedFilePromises h1 = source <$> h_fixedFilePromises h2.

(** A stream without the settlements of correction tasks. *)
Definition isSettle (a : StreamAction) : bool :=
  match a with FixSettles _ _ => true | _ => false end.

Definition withoutSettles (stream : list StreamAction) : list StreamAction :=
  List.filter (fun a => negb (isSettle a)) stream.

(** The parsing state the parser wrote last. *)
Definition parserWrites (stream : list StreamAction) : SCOFParsingState :=
  foldl (fun ps a => match a with ParserSetsParsingState ps' => ps' | _ => ps end)
    {| extractedInstallCommands := None |} stream.





(** The calls of [fileGeneratingCallback] and [fileChunkGeneratedCallback],
    in the order of the calls. *)
Definition streamedCalls (es : list Effect) : list Effect :=
  omap (fun e => match e with
                 | FileGeneratingCallback _ _ | FileChunkGeneratedCallback _ _ _ => Some e
                 | _ => None
                 end) es.

(** The opens and the chunks of a stream, each as the call of the callback
    that [onFileOpen] and [onContentChunk] make for it. *)
Definition forwarded `{Collaborators} (inputs : PhaseImplementationInputs)
    (options : OperationOptions) (stream : list StreamAction) : list Effect :=
  omap (fun a => match a with
                 | ParserOpensFile p =>
                     Some (FileGeneratingCallback p
                             (findFilePurpose p (phase inputs)
                                (filesByPath (allFiles (context options)))))
                 | ParserEmitsChunk p chunk fmt =>
                     Some (FileChunkGeneratedCallback p chunk fmt)
                 | _ => None
                 end) stream.

End PhaseImplementation.

(** ** worker/agents/prompts.ts, the project context of the user prompts *)

Module USER_PROMPT_FORMATTER.
Import JsString PromptUtils PhaseImplementation.

Section Formatter.
(** [TemplateRegistry.markdown.serialize({ phases }, ...)] and
    [new SCOFFormat().serialize(files)], from modules that are not among the
    sources. *)
Variable serializePhases : list PhaseConceptType → string.
Variable scofSerialize : list FileOutputType → string.

(** [PROMPT_UTILS.serializeFiles(files)]: every file is serialized with the
    format [full_content]. *)
Definition serializeFiles (files : list FileOutputType) : string :=
  scofSerialize
    ((fun file => mkFile (filePath file) (fileContents file) (filePurpose file) full_content)
       <$> files).

(** The value of the variable [commandsHistory]. *)
Definition commandsHistoryText (commandsHistory : list string) : string :=
  if 0 <? length commandsHistory then
    join newline
      [ "<COMMANDS HISTORY>";
        "";
        "The following commands have been executed successfully in the project environment so far (These may not include the ones that are currently pending):";
        "";
        join newline commandsHistory;
        "";
        "</COMMANDS HISTORY>" ]
  else "".

(** [USER_PROMPT_FORMATTER.PROJECT_CONTEXT(phases, files, commandsHistory)] *)
Definition PROJECT_CONTEXT (phases : list PhaseConceptType) (files : list FileOutputType)
    (commandsHistory : list string) : Outcome string string :=
  let variables :=
    [ ("phases", Some (serializePhases phases));
      ("files", Some (serializeFiles files));
      ("commandsHistory", Some (commandsHistoryText commandsHistory)) ] in
  let prompt := replaceTemplateVariables PromptUtils.PROJECT_CONTEXT variables in
  Prompts.verifyPrompt prompt.

End Formatter.
End USER_PROMPT_FORMATTER.

(** ** The DigitalOcean deployment helper, the calls of the API *)

Module DropletApi.
Import JsString PromptUtils DigitalOcean.
Import PhaseImplementation(JsError, mkError, errorName, errorMessage).

Definition DIGITALOCEAN_API_URL : string := "https://api.digitalocean.com/v2".
Definition DEFAULT_REGION : string := "nyc3".
Definition DEFAULT_SIZE : string := "s-1vcpu-1gb".
Definition DEFAULT_IMAGE : string := "docker-20-04".
Definition DEFAULT_POLL_INTERVAL : Z := 5000.
Definition DEFAULT_TIMEOUT : Z := 5 * 60000.

(** An entry of [sshKeys], [number | string]. *)
Inductive SshKey :=
| KeyNumber (n : nat)
| KeyString (s : string).

(** [DigitalOceanDeploymentOptions]; a field with [?] may be [undefined].
    Times are whole milliseconds. *)
Module Options.
Record DigitalOceanDeploymentOptions := {
  token : string;
  name : string;
  region : option string;
  size : option string;
  image : option string;
  userData : option string;
  summary : option string;
  tags : option (list string);
  sshKeys : option (list SshKey);
  waitForActive : option bool;
  pollIntervalMs : option Z;
  timeoutMs : option Z
}.
End Options.
Export Options(DigitalOceanDeploymentOptions).

(** [DigitalOceanDeploymentResult] *)
Module Droplet.
Record DigitalOceanDeploymentResult := {
  dropletId : nat;
  name : string;
  status : string;
  ipv4Address : option string;
  ipv6Address : option string;
  consoleUrl : string;
  createdAt : string
}.
End Droplet.
Export Droplet(DigitalOceanDeploymentResult).

(** The [droplet] object of a response body, as the two functions type it.
    The id of a droplet and the status of a response are whole numbers in
    the range that JavaScript prints in decimal. *)
Module Json.
Record Address := { ip_address : string }.
Record Networks := {
  v4 : option (list Address);
  v6 : option (list Address)
}.
Record DropletJson := {
  id : nat;
  name : string;
  status : string;
  networks : option Networks;
  created_at : string
}.
End Json.

(** The body of the creation request, before [JSON.stringify]. *)
Record CreateBody := {
  name : string;
  region : string;
  size : string;
  image : string;
  user_data : option string;
  ssh_keys : option (list SshKey);
  tags : option (list string);
  backups : bool;
  ipv6 : bool;
  monitoring : bool
}.

Record Request := {
  url : string;
  method : option string;
  headers : list (string * string);
  body : option CreateBody
}.

(** A response, by what the two functions do with it.
    With [ok]: [response.json()] resolves to a body with a [droplet] object
    (taken to have the fields of the type it is cast to); or it resolves to
    a value without one, and reading [droplet.id] (or [json.droplet], of
    [null]) throws the [TypeError] of the engine, with its message; or it
    rejects.
    Without [ok]: [response.text()] resolves to the text of the body, or it
    rejects. *)
Inductive Response :=
| OkResponse (droplet : Json.DropletJson)
| OkWithoutDroplet (message : string)
| OkUnreadable (error : JsError)
| NotOkResponse (status : nat) (statusText : string) (text : string)
| NotOkUnreadable (status : nat) (statusText : string) (error : JsError).

(** What the helper does to the world: the requests it sends and the times
    it waits. *)
Inductive Event :=
| Fetched (request : Request)
| Slept (ms : Z).

(** The world around a call: the outcomes of the calls of [fetch] to come
    (a response, or the rejection of the call), the readings of [Date.now()]
    to come, and the events so far. *)
Record World := mkWorld {
  responses : list (Outcome JsError Response);
  clock : list Z;
  events : list Event
}.

(** An asynchronous computation: [None] when the world has no outcome left
    for a call it awaits. *)
Definition N (A : Type) : Type := World → option (Outcome JsError A * World).

#[global] Instance N_ret : MRet N :=
  fun A (a : A) w => Some (Returned a, w).

#[global] Instance N_bind : MBind N :=
  fun A B (k : A → N B) (m : N A) w =>
    match m w with
    | Some (Returned a, w') => k a w'
    | Some (Thrown e, w') => Some (Thrown e, w')
    | None => None
    end.

Definition throw {A : Type} (e : JsError) : N A := fun w => Some (Thrown e, w).

Definition fetch (request : Request) : N Response :=
  fun w =>
    match responses w with
    | [] => None
    | r :: rest => Some (r, mkWorld rest (clock w) (events w ++ [Fetched request]))
    end.

(** [Date.now()] *)
Definition dateNow : N Z :=
  fun w =>
    match clock w with
    | [] => None
    | t :: rest => Some (Returned t, mkWorld (responses w) rest (events w))
    end.

(** [await new Promise((resolve) => setTimeout(resolve, ms))] *)
Definition sleep (ms : Z) : N unit :=
  fun w => Some (Returned tt, mkWorld (responses w) (clock w) (events w ++ [Slept ms])).

(** [networks?.v4?.[0]?.ip_address] *)
Definition firstAddress (addresses : option (list Json.Address)) : option string :=
  Json.ip_address <$> (addresses ≫= head).

(** The result object that both functions build from [json.droplet]. *)
Definition resultOf (droplet : Json.DropletJson) : DigitalOceanDeploymentResult := {|
  Droplet.dropletId := Json.id droplet;
  Droplet.name := Json.name droplet;
  Droplet.status := Json.status droplet;
  Droplet.ipv4Address := firstAddress (Json.networks droplet ≫= Json.v4);
  Droplet.ipv6Address := firstAddress (Json.networks droplet ≫= Json.v6);
  Droplet.consoleUrl :=
    "https://cloud.digitalocean.com/droplets/" +:+ numberToString (Json.id droplet);
  Droplet.createdAt := Json.created_at droplet
|}.

(** The message of the error for a response without [ok]. *)
Definition failureMessage (what : string) (status : nat) (statusText text : string) : string :=
  what +:+ numberToString status +:+ " " +:+ statusText +:+ " - " +:+ text.

(** [createDroplet(options)] *)
Definition createRequest (options : DigitalOceanDeploymentOptions) : Request := {|
  url := DIGITALOCEAN_API_URL +:+ "/droplets";
  method := Some "POST";
  headers := [ ("Content-Type", "application/json");
               ("Authorization", "Bearer " +:+ Options.token options) ];
  body := Some {|
    name := Options.name options;
    region := orElse (Options.region options) DEFAULT_REGION;
    size := orElse (Options.size options) DEFAULT_SIZE;
    image := orElse (Options.image options) DEFAULT_IMAGE;
    user_data := Options.userData options;
    ssh_keys := Options.sshKeys options;
    tags := Options.tags options;
    backups := false;
    ipv6 := true;
    monitoring := true
  |}
|}.

Definition createDroplet (options : DigitalOceanDeploymentOptions)
    : N DigitalOceanDeploymentResult :=
  response ← fetch (createRequest options);
  match response with
  | NotOkResponse status statusText errorBody =>
      throw (mkError "Error"
               (failureMessage "DigitalOcean droplet creation failed: "
                  status statusText errorBody))
  | NotOkUnreadable _ _ error => throw error
  | OkUnreadable error => throw error
  | OkWithoutDroplet message => throw (mkError "TypeError" message)
  | OkResponse droplet => mret (resultOf droplet)
  end.

(** [getDroplet(token, dropletId)] *)
Definition lookupRequest (token : string) (dropletId : nat) : Request := {|
  url := DIGITALOCEAN_API_URL +:+ "/droplets/" +:+ numberToString dropletId;
  method := None;
  headers := [ ("Authorization", "Bearer " +:+ token) ];
  body := None
|}.

Definition getDroplet (token : string) (dropletId : nat) : N DigitalOceanDeploymentResult :=
  response ← fetch (lookupRequest token dropletId);
  match response with
  | NotOkResponse status statusText errorBody =>
      throw (mkError "Error"
               (failureMessage "DigitalOcean droplet lookup failed: "
                  status statusText errorBody))
  | NotOkUnreadable _ _ error => throw error
  | OkUnreadable error => throw error
  | OkWithoutDroplet message => throw (mkError "TypeError" message)
  | OkResponse droplet => mret (resultOf droplet)
  end.

(** [droplet.status === 'active' && droplet.ipv4Address] *)
Definition isActive (droplet : DigitalOceanDeploymentResult) : bool :=
  bool_decide (Droplet.status droplet = "active") &&
  match Droplet.ipv4Address droplet with
  | Some (String _ _) => true
  | _ => false
  end.

Definition timedOut (dropletId : nat) : JsError :=
  mkError "Error"
    ("Timed out waiting for droplet " +:+ numberToString dropletId +:+ " to become active").

(** The loop of [waitForDropletActive], for at most [rounds] rounds. *)
Fixpoint pollDroplet (rounds : nat) (token : string) (dropletId : nat)
    (pollInterval timeout start : Z) : N DigitalOceanDeploymentResult :=
  match rounds with
  | 0 => fun _ => None
  | S rounds' =>
      droplet ← getDroplet token dropletId;
      if isActive droplet then mret droplet
      else
        now ← dateNow;
        if (timeout <? now - start)%Z then throw (timedOut dropletId)
        else
          sleep pollInterval;;
          pollDroplet rounds' token dropletId pollInterval timeout start
  end.

(** Every round of the loop awaits one call of [fetch], so the loop is run
    for one round more than the world has outcomes of [fetch]: it ends by
    itself, or it is left waiting when the outcomes are used up. *)
Definition whileTrue {A : Type} (loop : nat → N A) : N A :=
  fun w => loop (S (length (responses w))) w.

(** [waitForDropletActive(options, dropletId)] *)
Definition waitForDropletActive (options : DigitalOceanDeploymentOptions) (dropletId : nat)
    : N DigitalOceanDeploymentResult :=
  let pollInterval := default DEFAULT_POLL_INTERVAL (Options.pollIntervalMs options) in
  let timeout := default DEFAULT_TIMEOUT (Options.timeoutMs options) in
  start ← dateNow;
  whileTrue (fun rounds =>
    pollDroplet rounds (Options.token options) dropletId pollInterval timeout start).

Section Deploy.
Variable toLowerCase : string → string.

(** [{ ...options, userData: options.userData ?? buildDefaultUserData(...) }] *)
Definition withUserData (options : DigitalOceanDeploymentOptions)
    : DigitalOceanDeploymentOptions := {|
  Options.token := Options.token options;
  Options.name := Options.name options;
  Options.region := Options.region options;
  Options.size := Options.size options;
  Options.image := Options.image options;
  Options.userData :=
    Some (match Options.userData options with
          | Some userData => userData
          | None => buildDefaultUserData toLowerCase (Options.name options)
                      (Options.summary options)
          end);
  Options.summary := Options.summary options;
  Options.tags := Options.tags options;
  Options.sshKeys := Options.sshKeys options;
  Options.waitForActive := Options.waitForActive options;
  Options.pollIntervalMs := Options.pollIntervalMs options;
  Options.timeoutMs := Options.timeoutMs options
|}.

(** [deployToDigitalOceanDroplet(options)] *)
Definition deployToDigitalOceanDroplet (options : DigitalOceanDeploymentOptions)
    : N DigitalOceanDeploymentResult :=
  createdDroplet ← createDroplet (withUserData options);
  match Options.waitForActive options with
  | Some false => mret createdDroplet
  | _ => waitForDropletActive options (Droplet.dropletId createdDroplet)
  end.

End Deploy.

(** The requests among the events, in the order in which they were sent. *)
Definition requests (es : list Event) : list Request :=
  omap (fun e => match e with Fetched request => Some request | Slept _ => None end) es.

(** The error of a lookup that fails: the rejection of [fetch]; the error
    made for a response without [ok], or the rejection of its
    [response.text()]; for a response with [ok], the rejection of its
    [response.json()], or the [TypeError] for a body without a droplet. *)
Definition lookupFailure (r : Outcome JsError Response) : option JsError :=
  match r with
  | Thrown e => Some e
  | Returned (NotOkResponse status statusText text) =>
      Some (mkError "Error"
              (failureMessage "DigitalOcean droplet lookup failed: " status statusText text))
  | Returned (NotOkUnreadable _ _ error) => Some error
  | Returned (OkUnreadable error) => Some error
  | Returned (OkWithoutDroplet message) => Some (mkError "TypeError" message)
  | Returned (OkResponse _) => None
  end.

(** The events of [lookups] lookups in a row: the requests, and between two
    of them the wait. *)
Fixpoint pollEvents (request : Request) (ms : Z) (lookups : nat) : list Event :=
  match lookups with
  | 0 => []
  | S k =>
      Fetched request ::
      match k with
      | 0 => []
      | S _ => Slept ms :: pollEvents request ms k
      end
  end.

(** The id of the droplet in the first response of the world. *)
Definition createdId (w : World) : nat :=
  match head (responses w) with
  | Some (Returned (OkResponse json)) => Json.id json
  | _ => 0
  end.

End DropletApi.

(** ** A deployment to run the helper on *)

Module DropletSample.
Import DropletApi.

Definition sampleOptions : DigitalOceanDeploymentOptions := {|
  Options.token := "secret";
  Options.name := "My App";
  Options.region := Some "";
  Options.size := None;
  Options.image := None;
  Options.userData := None;
  Options.summary := Some "A <todo> list";
  Options.tags := None;
  Options.sshKeys := None;
  Options.waitForActive := None;
  Options.pollIntervalMs := Some 1000%Z;
  Options.timeoutMs := Some 3000%Z
|}.

Definition newDroplet : Json.DropletJson := {|
  Json.id := 42;
  Json.name := "My App";
  Json.status := "new";
  Json.networks := None;
  Json.created_at := "2024-05-01T10:00:00Z"
|}.

Definition activeDroplet : Json.DropletJson := {|
  Json.id := 42;
  Json.name := "My App";
  Json.status := "active";
  Json.networks :=
    Some {| Json.v4 := Some [ {| Json.ip_address := "203.0.113.7" |} ]; Json.v6 := None |};
  Json.created_at := "2024-05-01T10:00:00Z"
|}.

(** The creation answers with the new droplet; the second lookup shows it
    active. *)
Definition sampleWorld : World :=
  mkWorld [ Returned (OkResponse newDroplet);
            Returned (OkResponse newDroplet);
            Returned (OkResponse activeDroplet) ]
    [0; 1000; 2000]%Z [].

End DropletSample.

(** ** The streaming format parser (from the specification) *)

Module SCOF.
Import PhaseImplementation.

(** Modelled from the spec: the code of [SCOFFormat.parseStreamingChunks]
    (module [streaming-formats/scof]) is missing. The three marker classes of
    section 6 of the specification: a file-open line carrying a path and a
    format, a file-close line, and the two lines around a command block. *)
Inductive Marker :=
| FileOpenMarker (p : string) (fmt : Format)
| FileCloseMarker
| CommandOpenMarker
| CommandCloseMarker.

(** Modelled from the spec: the code that recognises a marker line is missing
    and the specification fixes no concrete syntax for the markers; the
    grammar is a parameter. [None] is a line that is no marker, which
    includes unrecognised and truncated marker syntax (section 7). *)
Class MarkerGrammar := { classify : string → option Marker }.

(** Modelled from the spec: the events of section 4.1, the three callbacks
    and the warning given to the logger on a duplicate open. *)
Inductive ParserEvent :=
| FileOpened (p : string)
| ContentChunk (p text : string) (fmt : Format)
| FileClosed (p : string)
| DuplicateOpenWarning (p : string).

(** Modelled from the spec: the [PendingFile] of section 3. *)
Record PendingFile := {
  pendingPath : string;
  pendingFormat : Format;
  pendingRaw : string
}.

(** Modelled from the spec: the [ParsingState] of section 3, the characters
    of the unfinished last line, the path of the file currently open, the
    in-progress records by path, whether a command block is open, and the
    two results, the completed files and the extracted commands. *)
Record ParsingState := mkParsing {
  buffer : string;
  current : option string;
  pending : gmap string PendingFile;
  inCommandBlock : bool;
  completed : gmap string FileOutputType;
  installCommands : list string
}.

(** Modelled from the spec: the state a generation run starts with. *)
Definition freshParsingState : ParsingState :=
  mkParsing "" None ∅ false ∅ [].

(** Modelled from the spec: the state with [b] as its buffered characters. *)
Definition withBuffer (b : string) (st : ParsingState) : ParsingState :=
  mkParsing b (current st) (pending st) (inCommandBlock st) (completed st)
    (installCommands st).

(** Modelled from the spec: a command line is kept when it is not empty and
    is no comment (a line that starts with [#]). *)
Definition isCommandLine (line : string) : bool :=
  match line with
  | EmptyString => false
  | String c _ => negb (bool_decide (c = "#"%char))
  end.

(** Modelled from the spec: what section 4.1 says of one complete line. *)
Definition processLine `{MarkerGrammar} (st : ParsingState) (line : string)
    : ParsingState * list ParserEvent :=
  if inCommandBlock st then
    match classify line with
    | Some CommandCloseMarker =>
        (mkParsing (buffer st) (current st) (pending st) false (completed st)
           (installCommands st), [])
    | _ =>
        (mkParsing (buffer st) (current st) (pending st) true (completed st)
           (installCommands st ++ (if isCommandLine line then [line] else [])), [])
    end
  else
    match classify line with
    | Some (FileOpenMarker p fmt) =>
        (mkParsing (buffer st) (Some p)
           (<[p := {| pendingPath := p; pendingFormat := fmt; pendingRaw := "" |}]>
              (pending st))
           false (completed st) (installCommands st),
         match pending st !! p with
         | Some _ => [DuplicateOpenWarning p; FileOpened p]
         | None => [FileOpened p]
         end)
    | Some FileCloseMarker =>
        match current st with
        | Some p =>
            match pending st !! p with
            | Some file =>
                (mkParsing (buffer st) None (delete p (pending st)) false
                   (<[p := mkFile p (pendingRaw file) "" (pendingFormat file)]>
                      (completed st))
                   (installCommands st),
                 [FileClosed p])
            | None => (st, [])
            end
        | None => (st, [])
        end
    | Some CommandOpenMarker =>
        (mkParsing (buffer st) (current st) (pending st) true (completed st)
           (installCommands st), [])
    | Some CommandCloseMarker => (st, [])
    | None =>
        match current st with
        | Some p =>
            match pending st !! p with
            | Some file =>
                let text := line +:+ String newline "" in
                (mkParsing (buffer st) (current st)
                   (<[p := {| pendingPath := p; pendingFormat := pendingFormat file;
                              pendingRaw := pendingRaw file +:+ text |}]>
                      (pending st))
                   false (completed st) (installCommands st),
                 [ContentChunk p text (pendingFormat file)])
            | None => (st, [])
            end
        | None => (st, [])
        end
    end.

(** Modelled from the spec: complete lines are processed in their order. *)
Fixpoint processLines `{MarkerGrammar} (st : ParsingState) (lines : list string)
    : ParsingState * list ParserEvent :=
  match lines with
  | [] => (st, [])
  | line :: rest =>
      let '(st1, events1) := processLine st line in
      let '(st2, events2) := processLines st1 rest in
      (st2, events1 ++ events2)
  end.

(** Modelled from the spec: [parseChunk] of section 4.1. The chunk is added
    to the buffered characters, the complete lines are processed, and the
    unfinished last line is buffered for the next call. *)
Definition parseChunk `{MarkerGrammar} (chunk : string) (st : ParsingState)
    : ParsingState * list ParserEvent :=
  let pieces := split newline (buffer st +:+ chunk) in
  let '(st', events) := processLines st (removelast pieces) in
  (withBuffer (List.last pieces "") st', events).

(** Modelled from the spec: the chunks of a stream, fed in the order they
    were produced, each call starting from the state the one before left. *)
Fixpoint parseChunks `{MarkerGrammar} (chunks : list string) (st : ParsingState)
    : ParsingState * list ParserEvent :=
  match chunks with
  | [] => (st, [])
  | chunk :: rest =>
      let '(st1, events1) := parseChunk chunk st in
      let '(st2, events2) := parseChunks rest st1 in
      (st2, events1 ++ events2)
  end.

(** The total input of a sequence of chunks. *)
Definition totalInput (chunks : list string) : string :=
  foldr String.append "" chunks.

(** Lines put together, each one ended by a newline. *)
Definition unlines (lines : list string) : string :=
  foldr (fun line rest => line +:+ String newline rest) "" lines.

(** The texts given to the content-chunk callback, put together. *)
Definition forwardedText (events : list ParserEvent) : string :=
  foldr (fun e rest => match e with ContentChunk _ text _ => text +:+ rest | _ => rest end)
    "" events.

(** The three callbacks among the events, without the warnings. *)
Definition callbackEvents (events : list ParserEvent) : list ParserEvent :=
  omap (fun e => match e with DuplicateOpenWarning _ => None | _ => Some e end) events.

End SCOF.

(** ** The content reconciler (from the specification) *)

Module FileProcessing.
Import PhaseImplementation.

(** Modelled from the spec: the code of [FileProcessing] (module
    [domain/pure/FileProcessing]) is missing. A hunk of section 6: the block
    of [-] lines to find and the [+] lines to put in its place, both without
    their prefix; lines without prefix are not used. *)
Record Hunk := mkHunk {
  removed : list string;
  added : list string
}.

(** Modelled from the spec: a line beginning with [@@] starts a hunk. *)
Definition startsHunk (line : string) : bool :=
  match line with
  | String "@" (String "@" _) => true
  | _ => false
  end.

(** Modelled from the spec: the hunks of a diff body. A line that begins
    with [@@] starts a hunk; inside a hunk a [-] line joins the removed
    block and a [+] line the added block. [hunk] is the hunk being read. *)
Fixpoint readHunks (hunk : option Hunk) (lines : list string) : list Hunk :=
  match lines with
  | [] => match hunk with Some h => [h] | None => [] end
  | line :: rest =>
      if startsHunk line then
        match hunk with
        | Some h => h :: readHunks (Some (mkHunk [] [])) rest
        | None => readHunks (Some (mkHunk [] [])) rest
        end
      else
        match hunk, line with
        | Some h, String "-" text => readHunks (Some (mkHunk (removed h ++ [text]) (added h))) rest
        | Some h, String "+" text => readHunks (Some (mkHunk (removed h) (added h ++ [text]))) rest
        | _, _ => readHunks hunk rest
        end
  end.

(** Modelled from the spec: the hunks of the accumulated body of a file. *)
Definition parseHunks (body : string) : list Hunk :=
  readHunks None (split newline body).

(** Modelled from the spec: [block] is at the start of [content], line for
    line. *)
Fixpoint startsWith (block content : list string) : bool :=
  match block, content with
  | [], _ => true
  | b :: block', c :: content' => bool_decide (b = c) && startsWith block' content'
  | _ :: _, [] => false
  end.

(** Modelled from the spec: the first place, from the top, where the removed
    block stands in the content is replaced by the added lines; [None] when
    the block stands nowhere. *)
Fixpoint replaceFirst (block replacement content : list string) : option (list string) :=
  if startsWith block content then Some (replacement ++ drop (length block) content)
  else
    match content with
    | [] => None
    | line :: rest => (fun patched => line :: patched) <$> replaceFirst block replacement rest
    end.

(** Modelled from the spec: one hunk applied to the lines of a content. *)
Definition applyHunk (content : list string) (h : Hunk) : option (list string) :=
  replaceFirst (removed h) (added h) content.

(** Modelled from the spec: the accumulated hunks are applied in order, each
    to the result of the one before. *)
Fixpoint applyHunks (content : list string) (hunks : list Hunk) : option (list string) :=
  match hunks with
  | [] => Some content
  | h :: rest =>
      match applyHunk content h with
      | Some content' => applyHunks content' rest
      | None => None
      end
  end.

(** Modelled from the spec: the error of section 7 for a removed block that
    is not found, and the one for a patch that empties a file. *)
Definition PatchApplicationError : JsError :=
  mkError "PatchApplicationError" "removed lines not found in the previous content".

Definition EmptyPatchError : JsError :=
  mkError "PatchApplicationError" "patch left an empty file".

(** Modelled from the spec: one trailing newline is trimmed. *)
Fixpoint trimTrailingNewline (s : string) : string :=
  match s with
  | EmptyString => ""
  | String c EmptyString => if decide (c = newline) then "" else s
  | String c t => String c (trimTrailingNewline t)
  end.

(** Modelled from the spec: the patch failure as it is reported to the
    logger (section 6). *)
Definition patchFailureLog (file : FileOutputType) : LogCall :=
  (LevelError, [LogText ("Failed to apply the diff of " +:+ filePath file)]).

(** Modelled from the spec: [processGeneratedFileContents] of section 4.2.
    Full content is taken as it is; a diff is applied to the previous
    content and fails when a removed block is not found; then the trailing
    newline is trimmed, and an empty result of a diff on a non-empty previous
    content is rejected. A failure is reported to the logger and thrown. *)
Definition processGeneratedFileContents (file : FileOutputType) (originalContents : string)
    : list LogCall * Result string :=
  match format file with
  | full_content => ([], Returned (trimTrailingNewline (fileContents file)))
  | unified_diff =>
      match applyHunks (split newline originalContents) (parseHunks (fileContents file)) with
      | None => ([patchFailureLog file], Thrown PatchApplicationError)
      | Some lines =>
          let contents := trimTrailingNewline (join newline lines) in
          if bool_decide (contents = "") && negb (bool_decide (originalContents = ""))
          then ([patchFailureLog file], Thrown EmptyPatchError)
          else ([], Returned contents)
      end
  end.


End FileProcessing.

(** ** A configuration to run the operation on *)

Module Sample.
Import PhaseImplementation.

(** The purpose the phase gives for a path, else the purpose of the known file. *)
Definition samplePurpose (p : string) (ph : PhaseConceptType)
    (known : gmap string FileOutputType) : string :=
  match List.find (fun f => bool_decide (path f = p)) (files ph) with
  | Some f => purpose f
  | None => match known !! p with Some f => filePurpose f | None => "" end
  end.

(** The inference context is reduced to the value of the feature flag, the
    template details to a name; [FileProcessing] is the one modelled above. *)
Definition sampleCollaborators : Collaborators := {|
  TemplateDetails := string;
  InferenceContext := bool;
  IsRealtimeCodeFixerEnabled := fun flag => flag;
  findFilePurpose := samplePurpose;
  processGeneratedFileContents := FileProcessing.processGeneratedFileContents
|}.

#[local] Existing Instance sampleCollaborators.

Definition samplePhase : PhaseConceptType := {|
  name := "Core views";
  description := "Views and templates of the core app";
  files := [ {| path := "core/views.py"; purpose := "Request handlers" |};
             {| path := "core/urls.py"; purpose := "URL routes" |};
             {| path := "core/forms.py"; purpose := "Forms" |} ]
|}.

Definition sampleInputs (autoFix : bool) : PhaseImplementationInputs := {|
  phase := samplePhase;
  isFirstPhase := false;
  shouldAutoFix := autoFix
|}.

Definition sampleOptions (flag : bool) : OperationOptions := {|
  context := {| query := "a todo list"; templateDetails := "django-htmx"; allFiles := [] |};
  inferenceContext := flag
|}.

(** A file body of [n] lines, without a trailing newline. *)
Definition body (n : nat) : string := join newline (replicate n "pass").

Definition sampleFile (p : string) (n : nat) : FileOutputType :=
  mkFile p (body n) "" full_content.

(** The heap after the parser completed [file] under [p]. *)
Definition heapWith (p : string) (file : FileOutputType) : Heap :=
  mkHeap (mkStreaming "" {[ p := file ]} {| extractedInstallCommands := None |}) [] [].

(** A marker grammar to run the parser on: [### full_content <path>] and
    [### unified_diff <path>] open a file, [### end] closes it, [$$$ commands]
    and [$$$ end] stand around a command block. *)
Fixpoint stripPrefix (pre s : string) : option string :=
  match pre, s with
  | EmptyString, _ => Some s
  | String a pre', String b s' => if decide (a = b) then stripPrefix pre' s' else None
  | String _ _, EmptyString => None
  end.

Definition sampleClassify (line : string) : option SCOF.Marker :=
  match stripPrefix "### full_content " line, stripPrefix "### unified_diff " line with
  | Some p, _ => Some (SCOF.FileOpenMarker p full_content)
  | None, Some p => Some (SCOF.FileOpenMarker p unified_diff)
  | None, None =>
      if decide (line = "### end") then Some SCOF.FileCloseMarker
      else if decide (line = "$$$ commands") then Some SCOF.CommandOpenMarker
      else if decide (line = "$$$ end") then Some SCOF.CommandCloseMarker
      else None
  end.

Definition sampleGrammar : SCOF.MarkerGrammar := {| SCOF.classify := sampleClassify |}.

(** One stream, whole and cut inside its marker lines. *)
Definition sampleLines : list string :=
  [ "### full_content core/views.py"; "import os"; ""; "pass"; "### end";
    "$$$ commands"; "pip install django-htmx"; "# optional"; "pip install django-htmx";
    "$$$ end" ].

Definition wholeChunks : list string := [SCOF.unlines sampleLines].

Definition cutChunks : list string :=
  [ "### full_con"; "tent core/vi"; "ews.py" +:+ String newline "import os" +:+ String newline "";
    String newline "pa"; "ss" +:+ String newline "###"; " end" +:+ String newline "$$$ comm";
    "ands" +:+ String newline "pip install django-htmx" +:+ String newline "# optional";
    String newline "pip install django-htmx" +:+ String newline "$$$ end" +:+ String newline "" ].




(** A file sent as a diff whose removed line is not in the previous content. *)
Definition previousNotes : string := join newline ["line1"; "line2"; "line3"].



Definition notesOptions : OperationOptions := {|
  context := {| query := "a todo list"; templateDetails := "django-htmx";
                allFiles := [mkFile "notes.txt" previousNotes "Notes" full_content] |};
  inferenceContext := true
|}.

(** Three files closed in the order views, urls, forms, with the same
    install command extracted twice; the correction of the second file
    settles first, the one of the first file last. *)
Definition fixedFile (file : FileOutputType) : FileOutputType :=
  mkFile (filePath file) (fileContents file +:+ " # fixed") (filePurpose file) (format file).

Definition closeOrderStream : list StreamAction :=
  [ ParserOpensFile "core/views.py";
    ParserEmitsChunk "core/views.py" "pass" full_content;
    ParserSetsCompleted "core/views.py" (sampleFile "core/views.py" 51);
    ParserClosesFile "core/views.py";
    ParserSetsCompleted "core/urls.py" (sampleFile "core/urls.py" 60);
    ParserClosesFile "core/urls.py";
    ParserSetsParsingState
      {| extractedInstallCommands :=
           Some ["pip install django-htmx"; "pip install django-htmx"] |};
    ParserSetsCompleted "core/forms.py" (sampleFile "core/forms.py" 51);
    ParserClosesFile "core/forms.py";
    FixSettles 1 (Returned (fixedFile (mkFile "core/urls.py" (body 60) "URL routes" full_content)));
    FixSettles 2 (Returned (fixedFile (mkFile "core/forms.py" (body 51) "Forms" full_content)));
    FixSettles 0 (Returned (fixedFile (mkFile "core/views.py" (body 51) "Request handlers" full_content))) ].

Definition closeOrderRun : Result PhaseImplementationOutputs * Heap :=
  execute (sampleInputs true) (sampleOptions true) closeOrderStream initialHeap.



(** Serializers to run the project context on: the names of the phases and
    the paths of the files, one on a line. *)
Definition samplePhasesText (phases : list PhaseConceptType) : string :=
  join newline (name <$> phases).

Definition sampleScof (files : list FileOutputType) : string :=
  join newline (filePath <$> files).

End Sample.

(** ** A configuration whose reconciler throws *)

Module StrictSample.
Import PhaseImplementation.

(** A reconciler that logs an error and throws for a file without contents,
    and returns the contents of any other file as they are. *)
Definition strictCollaborators : Collaborators := {|
  TemplateDetails := string;
  InferenceContext := bool;
  IsRealtimeCodeFixerEnabled := fun flag => flag;
  findFilePurpose := Sample.samplePurpose;
  processGeneratedFileContents := fun file _ =>
    if decide (fileContents file = "")
    then ([(LevelError, [LogText "No contents"; LogText (filePath file)])],
          Thrown (mkError "Error" "No contents"))
    else ([], Returned (fileContents file))
|}.

#[local] Existing Instance strictCollaborators.

Definition strictOptions : OperationOptions := {|
  context := {| query := "a todo list"; templateDetails := "django-htmx"; allFiles := [] |};
  inferenceContext := true
|}.

(** The heap after the parser stored a file without contents, with one
    file closed before. *)
Definition strictHeap : Heap :=
  mkHeap
    (mkStreaming ""
       {[ "core/views.py" := mkFile "core/views.py" "pass" "" full_content;
          "core/urls.py" := mkFile "core/urls.py" "" "" full_content ]}
       {| extractedInstallCommands := None |})
    [ mkPromise
        (PromiseResolve (mkFile "core/views.py" "pass" "Request handlers" full_content))
        (Fulfilled (mkFile "core/views.py" "pass" "Request handlers" full_content)) ]
    [ FileClosedCallback (mkFile "core/views.py" "pass" "Request handlers" full_content)
        "Completed generation of core/views.py" ].

End StrictSample.

(** * Properties *)

(** ** worker/agents/prompts.ts *)

Module PromptsSpec.
Import Prompts.

Example verifyPrompt_placeholder_left :
  includesOpenBraces "<QUERY>{{query}}</QUERY>" = true ∧
  verifyPrompt "<QUERY>{{query}}</QUERY>" = Returned "<QUERY>{{query}}</QUERY>".
Proof. split; reflexivity. Qed.

(** C9: [PROMPT_UTILS.verifyPrompt] returns its argument unchanged for every
    prompt and never throws, whether or not the prompt still contains an
    unreplaced [{{variable}}] placeholder. *)
Theorem verifyPrompt_identity (prompt : string) :
  verifyPrompt prompt = Returned prompt ∧
  (∀ e, verifyPrompt prompt ≠ Thrown e) ∧
  (includesOpenBraces prompt = true → verifyPrompt prompt = Returned prompt).
Proof.
  unfold verifyPrompt. split; [reflexivity|]. split; [intros e He; discriminate He|].
  intros _. reflexivity.
Qed.

End PromptsSpec.

(** ** The DigitalOcean deployment helper *)

Module DigitalOceanSpec.
Import DigitalOcean.

Lemma isHyphen_true (c : ascii) : isHyphen c = true ↔ c = hyphen.
Proof. unfold isHyphen. apply bool_decide_eq_true. Qed.

Lemma isHyphen_false (c : ascii) : isHyphen c = false ↔ c ≠ hyphen.
Proof. unfold isHyphen. apply bool_decide_eq_false. Qed.

(** *** Characters stay in the class [[a-z0-9-]] *)

Lemma replaceDisallowed_class (s : list ascii) :
  Forall (fun c => inNameClass c = true) (replaceDisallowed s).
Proof.
  unfold replaceDisallowed. induction s as [|c s IH]; simpl; constructor; [|exact IH].
  destruct (inNameClass c) eqn:Hc; [exact Hc | reflexivity].
Qed.

Lemma collapseHyphens_Forall (P : ascii → Prop) (s : list ascii) :
  Forall P s → Forall P (collapseHyphens s).
Proof.
  induction 1 as [|c t Hc Ht IH]; simpl; [constructor|].
  destruct (isHyphen c); [|constructor; assumption].
  destruct t as [|d t']; [repeat constructor; assumption|].
  destruct (isHyphen d); [exact IH | constructor; assumption].
Qed.

Lemma stripLeadingHyphen_Forall (P : ascii → Prop) (s : list ascii) :
  Forall P s → Forall P (stripLeadingHyphen s).
Proof.
  intros H. destruct H as [|c t Hc Ht]; simpl; [constructor|].
  destruct (isHyphen c); [assumption | constructor; assumption].
Qed.

Lemma stripTrailingHyphen_Forall (P : ascii → Prop) (s : list ascii) :
  Forall P s → Forall P (stripTrailingHyphen s).
Proof.
  induction 1 as [|c t Hc Ht IH]; [constructor|].
  destruct t as [|d t'].
  - simpl. destruct (isHyphen c); repeat constructor; assumption.
  - change (Forall P (c :: stripTrailingHyphen (d :: t'))). constructor; assumption.
Qed.

(** *** Runs of hyphens are collapsed *)

Lemma collapseHyphens_head (s : list ascii) :
  isHyphen <$> head (collapseHyphens s) = isHyphen <$> head s.
Proof.
  induction s as [|c t IH]; [reflexivity|]. simpl.
  destruct (isHyphen c) eqn:Hc; [|simpl; rewrite Hc; reflexivity].
  destruct t as [|d t']; [simpl; rewrite Hc; reflexivity|].
  destruct (isHyphen d) eqn:Hd.
  - rewrite IH. simpl. rewrite Hd. reflexivity.
  - simpl. rewrite Hc. reflexivity.
Qed.

Lemma noDoubleHyphen_cons (c : ascii) (s : list ascii) :
  noDoubleHyphen s →
  (isHyphen c = true → isHyphen <$> head s ≠ Some true) →
  noDoubleHyphen (c :: s).
Proof.
  intros Hs Hc. destruct s as [|d t]; [exact I|]. split; [|exact Hs].
  intros [-> ->]. apply Hc; reflexivity.
Qed.

Lemma collapseHyphens_noDouble (s : list ascii) :
  noDoubleHyphen (collapseHyphens s).
Proof.
  induction s as [|c t IH]; [exact I|]. simpl.
  destruct (isHyphen c) eqn:Hc.
  - destruct t as [|d t']; [exact I|].
    destruct (isHyphen d) eqn:Hd; [exact IH|].
    apply noDoubleHyphen_cons; [exact IH|].
    intros _. rewrite collapseHyphens_head. simpl. rewrite Hd. discriminate.
  - apply noDoubleHyphen_cons; [exact IH|]. rewrite Hc. discriminate.
Qed.

Lemma noDoubleHyphen_tail (c : ascii) (s : list ascii) :
  noDoubleHyphen (c :: s) → noDoubleHyphen s.
Proof. destruct s; [intros; exact I | intros [_ H]; exact H]. Qed.

Lemma stripLeadingHyphen_noDouble (s : list ascii) :
  noDoubleHyphen s → noDoubleHyphen (stripLeadingHyphen s).
Proof.
  destruct s as [|c t]; [trivial|]. simpl. intros H.
  destruct (isHyphen c); [eapply noDoubleHyphen_tail; exact H | exact H].
Qed.

Lemma stripTrailingHyphen_head (s : list ascii) :
  stripTrailingHyphen s = [] ∨ head (stripTrailingHyphen s) = head s.
Proof.
  destruct s as [|c [|d t]]; [left; reflexivity | | right; reflexivity].
  simpl. destruct (isHyphen c); [left | right]; reflexivity.
Qed.

Lemma stripTrailingHyphen_nil (s : list ascii) :
  stripTrailingHyphen s = [] → s = [] ∨ s = [hyphen].
Proof.
  destruct s as [|c [|d t]]; [left; reflexivity | | discriminate].
  simpl. destruct (isHyphen c) eqn:Hc; [|discriminate].
  intros _. right. apply isHyphen_true in Hc. rewrite Hc. reflexivity.
Qed.

Lemma stripTrailingHyphen_noDouble (s : list ascii) :
  noDoubleHyphen s → noDoubleHyphen (stripTrailingHyphen s).
Proof.
  induction s as [|c t IH]; [trivial|]. intros H.
  destruct t as [|d t'].
  - simpl. destruct (isHyphen c); exact I.
  - change (noDoubleHyphen (c :: stripTrailingHyphen (d :: t'))).
    apply noDoubleHyphen_cons; [apply IH; eapply noDoubleHyphen_tail; exact H|].
    intros Hc Hhd. destruct H as [Hcd _].
    destruct (stripTrailingHyphen_head (d :: t')) as [Hnil | Hsame].
    + rewrite Hnil in Hhd. discriminate.
    + rewrite Hsame in Hhd. simpl in Hhd.
      apply Hcd. split; [apply isHyphen_true; exact Hc|].
      apply isHyphen_true. congruence.
Qed.

(** *** No hyphen is left at either end *)

Lemma stripLeadingHyphen_head (s : list ascii) :
  noDoubleHyphen s → head (stripLeadingHyphen s) ≠ Some hyphen.
Proof.
  destruct s as [|c t]; [discriminate|]. simpl. intros H.
  destruct (isHyphen c) eqn:Hc.
  - destruct t as [|d t']; [discriminate|]. simpl. intros [= ->].
    destruct H as [H _]. apply H. split; [apply isHyphen_true; exact Hc | reflexivity].
  - simpl. intros [= ->]. apply isHyphen_false in Hc. apply Hc. reflexivity.
Qed.

Lemma stripTrailingHyphen_last (s : list ascii) :
  noDoubleHyphen s → last (stripTrailingHyphen s) ≠ Some hyphen.
Proof.
  induction s as [|c t IH]; [discriminate|]. intros H.
  destruct t as [|d t'].
  - simpl. destruct (isHyphen c) eqn:Hc; [discriminate|].
    simpl. intros [= ->]. apply isHyphen_false in Hc. apply Hc. reflexivity.
  - change (last (c :: stripTrailingHyphen (d :: t')) ≠ Some hyphen).
    destruct (stripTrailingHyphen (d :: t')) as [|e r] eqn:Hr.
    + apply stripTrailingHyphen_nil in Hr as [Hr | Hr]; [discriminate|].
      injection Hr as -> ->. simpl. intros [= ->].
      destruct H as [H _]. apply H. split; reflexivity.
    + rewrite last_cons_cons. intros Hl.
      apply IH; [eapply noDoubleHyphen_tail; exact H | exact Hl].
Qed.

Lemma stripEdgeHyphens_head (s : list ascii) :
  noDoubleHyphen s → head (stripEdgeHyphens s) ≠ Some hyphen.
Proof.
  intros H. unfold stripEdgeHyphens.
  destruct (stripTrailingHyphen_head (stripLeadingHyphen s)) as [-> | ->];
    [discriminate | apply stripLeadingHyphen_head; exact H].
Qed.

Lemma inNameClass_nameChar (c : ascii) : inNameClass c = true → nameChar c.
Proof.
  unfold inNameClass, nameChar, isLower, isDigit. intros H.
  apply orb_true_iff in H as [H | H]; [apply orb_true_iff in H as [H | H]|].
  - left. apply andb_true_iff in H as [H1 H2].
    apply Nat.leb_le in H1, H2. lia.
  - right; left. apply andb_true_iff in H as [H1 H2].
    apply Nat.leb_le in H1, H2. lia.
  - right; right. apply isHyphen_true. exact H.
Qed.

Lemma sanitized_chars (s : list ascii) :
  let name := stripEdgeHyphens (collapseHyphens (replaceDisallowed s)) in
  Forall nameChar name ∧ noDoubleHyphen name ∧
  head name ≠ Some hyphen ∧ last name ≠ Some hyphen.
Proof.
  intros name. subst name.
  pose proof (collapseHyphens_noDouble (replaceDisallowed s)) as Hnd.
  split; [|split; [|split]].
  - eapply Forall_impl; [|exact inNameClass_nameChar].
    apply stripTrailingHyphen_Forall, stripLeadingHyphen_Forall,
      collapseHyphens_Forall, replaceDisallowed_class.
  - apply stripTrailingHyphen_noDouble, stripLeadingHyphen_noDouble, Hnd.
  - apply stripEdgeHyphens_head, Hnd.
  - apply stripTrailingHyphen_last, stripLeadingHyphen_noDouble, Hnd.
Qed.

Lemma fallback_chars :
  let name := list_ascii_of_string "vibe-app" in
  Forall nameChar name ∧ noDoubleHyphen name ∧
  head name ≠ Some hyphen ∧ last name ≠ Some hyphen.
Proof.
  simpl. split; [|split; [|split]].
  - eapply Forall_impl; [|exact inNameClass_nameChar].
    repeat (constructor; [reflexivity|]). constructor.
  - repeat split; intros [H1 H2]; discriminate.
  - discriminate.
  - discriminate.
Qed.

Example safeName_examples :
  safeName asciiToLowerCase "My Cool_App!!" = "my-cool-app" ∧
  safeName asciiToLowerCase "-a--b-" = "a-b" ∧
  safeName asciiToLowerCase "--" = "vibe-app" ∧
  safeName asciiToLowerCase "" = "vibe-app".
Proof. repeat split; vm_compute; reflexivity. Qed.

(** C10: for every [appName] (and whatever [toLowerCase] returns for it), the
    name that [buildDefaultUserData] embeds in the page is not empty, is made
    of lowercase ASCII letters, digits and hyphens only, has no two
    consecutive hyphens and no hyphen at either end; when the chain of
    replacements leaves the empty string, the name is ['vibe-app']. *)
Theorem safeName_wellformed (toLowerCase : string → string) (appName : string) :
  let name := list_ascii_of_string (safeName toLowerCase appName) in
  name ≠ [] ∧
  Forall nameChar name ∧
  noDoubleHyphen name ∧
  head name ≠ Some hyphen ∧
  last name ≠ Some hyphen ∧
  safeName toLowerCase appName =
    (if decide (sanitizeName toLowerCase appName = "") then "vibe-app"
     else sanitizeName toLowerCase appName).
Proof.
  intros name. subst name. unfold safeName.
  destruct (decide (sanitizeName toLowerCase appName = "")) as [He | Hne].
  - split; [discriminate|].
    pose proof fallback_chars as (H1 & H2 & H3 & H4).
    exact (conj H1 (conj H2 (conj H3 (conj H4 eq_refl)))).
  - split.
    + intros Hnil. apply Hne.
      rewrite <- (string_of_list_ascii_of_string (sanitizeName toLowerCase appName)).
      rewrite Hnil. reflexivity.
    + unfold sanitizeName. rewrite list_ascii_of_string_of_list_ascii.
      pose proof (sanitized_chars (list_ascii_of_string (toLowerCase appName)))
        as (H1 & H2 & H3 & H4).
      exact (conj H1 (conj H2 (conj H3 (conj H4 eq_refl)))).
Qed.

End DigitalOceanSpec.

(** ** The phase implementation operation *)

Module PhaseImplementationSpec.
Import PhaseImplementation.

Ltac unfold_m :=
  unfold mbind, M_bind, mret, M_ret, perform, push, callWithLogger,
    getStreamingState, setStreamingState, getPromises in *.

Section Operation.
Context `{Collaborators}.
Variable inputs : PhaseImplementationInputs.
Variable options : OperationOptions.

Local Abbreviation onFileClose := (onFileClose inputs options).
Local Abbreviation act := (act inputs options).
Local Abbreviation executeInference := (executeInference inputs options).
Local Abbreviation pushedPromise := (pushedPromise inputs options).
Local Abbreviation processLog := (processLog options).

(** *** The three ways through [onFileClose] *)

Lemma onFileClose_missing (p : string) (h : Heap) :
  completedFiles (h_streamingState h) !! p = None →
  onFileClose p h =
    (Returned tt,
     mkHeap (h_streamingState h) (h_fixedFilePromises h)
       (h_effects h ++ [LoggerInfo [LogText ("Completed generation of file: " +:+ p)];
                        LoggerError [LogText ("Completed file not found: " +:+ p)]])).
Proof.
  intros Hp. unfold PhaseImplementation.onFileClose. unfold_m. simpl.
  rewrite Hp. simpl. rewrite <- app_assoc. reflexivity.
Qed.

Lemma onFileClose_found (p : string) (h : Heap) (completedFile : FileOutputType)
    (contents : string) :
  completedFiles (h_streamingState h) !! p = Some completedFile →
  (processGeneratedFileContents completedFile
     (originalContentsOf (allFiles (context options)) p)).2 = Returned contents →
  onFileClose p h =
    (Returned tt,
     mkHeap
       (mkStreaming (accumulator (h_streamingState h))
          (<[p := mkFile (filePath completedFile) contents
                    (filePurpose completedFile) (format completedFile)]>
             (completedFiles (h_streamingState h)))
          (parsingState (h_streamingState h)))
       (h_fixedFilePromises h ++ [pushedPromise p completedFile contents])
       (h_effects h ++
          LoggerInfo [LogText ("Completed generation of file: " +:+ p)] ::
          processLog p completedFile ++
          [FileClosedCallback (generatedFileOf inputs options p completedFile contents)
             ("Completed generation of " +:+ p)])).
Proof.
  intros Hp Hc. unfold PhaseImplementation.onFileClose, assignFileContents,
    PhaseImplementation.pushedPromise, PhaseImplementation.processLog.
  unfold_m. simpl. rewrite Hp. simpl. rewrite Hc. simpl.
  destruct (shouldEnableRealtimeCodeFixer inputs options && (50 <? lineCount contents));
    simpl; rewrite <- !app_assoc; reflexivity.
Qed.

Lemma onFileClose_thrown (p : string) (h : Heap) (completedFile : FileOutputType)
    (e : JsError) :
  completedFiles (h_streamingState h) !! p = Some completedFile →
  (processGeneratedFileContents completedFile
     (originalContentsOf (allFiles (context options)) p)).2 = Thrown e →
  onFileClose p h =
    (Thrown e,
     mkHeap (h_streamingState h) (h_fixedFilePromises h)
       (h_effects h ++
          LoggerInfo [LogText ("Completed generation of file: " +:+ p)] ::
          processLog p completedFile)).
Proof.
  intros Hp Hc. unfold PhaseImplementation.onFileClose, PhaseImplementation.processLog.
  unfold_m. simpl. rewrite Hp. simpl. rewrite Hc. simpl.
  rewrite <- !app_assoc. reflexivity.
Qed.

Lemma onFileClose_cases (p : string) (h : Heap) :
  (completedFiles (h_streamingState h) !! p = None ∧
   onFileClose p h =
     (Returned tt,
      mkHeap (h_streamingState h) (h_fixedFilePromises h)
        (h_effects h ++ [LoggerInfo [LogText ("Completed generation of file: " +:+ p)];
                         LoggerError [LogText ("Completed file not found: " +:+ p)]]))) ∨
  (∃ completedFile contents,
     completedFiles (h_streamingState h) !! p = Some completedFile ∧
     (processGeneratedFileContents completedFile
        (originalContentsOf (allFiles (context options)) p)).2 = Returned contents ∧
     onFileClose p h =
       (Returned tt,
        mkHeap
          (mkStreaming (accumulator (h_streamingState h))
             (<[p := mkFile (filePath completedFile) contents
                       (filePurpose completedFile) (format completedFile)]>
                (completedFiles (h_streamingState h)))
             (parsingState (h_streamingState h)))
          (h_fixedFilePromises h ++ [pushedPromise p completedFile contents])
          (h_effects h ++
             LoggerInfo [LogText ("Completed generation of file: " +:+ p)] ::
             processLog p completedFile ++
             [FileClosedCallback (generatedFileOf inputs options p completedFile contents)
                ("Completed generation of " +:+ p)]))) ∨
  (∃ completedFile e,
     completedFiles (h_streamingState h) !! p = Some completedFile ∧
     (processGeneratedFileContents completedFile
        (originalContentsOf (allFiles (context options)) p)).2 = Thrown e ∧
     onFileClose p h =
       (Thrown e,
        mkHeap (h_streamingState h) (h_fixedFilePromises h)
          (h_effects h ++
             LoggerInfo [LogText ("Completed generation of file: " +:+ p)] ::
             processLog p completedFile))).
Proof.
  destruct (completedFiles (h_streamingState h) !! p) as [completedFile|] eqn:Hp.
  - right.
    destruct ((processGeneratedFileContents completedFile
                 (originalContentsOf (allFiles (context options)) p)).2)
      as [contents|e] eqn:Hc.
    + left. exists completedFile, contents.
      split; [reflexivity|]. split; [exact Hc|]. apply onFileClose_found; assumption.
    + right. exists completedFile, e.
      split; [reflexivity|]. split; [exact Hc|]. eapply onFileClose_thrown; eassumption.
  - left. split; [reflexivity|]. apply onFileClose_missing. exact Hp.
Qed.

(** The log calls of a collaborator are no callbacks. *)
Lemma callbacks_processLog (p : string) (completedFile : FileOutputType) :
  callbacks (processLog p completedFile) = [].
Proof.
  unfold PhaseImplementation.processLog.
  induction (processGeneratedFileContents _ _).1 as [|[[] args] calls IH];
    [reflexivity | exact IH..].
Qed.

Lemma closedFiles_processLog (p : string) (completedFile : FileOutputType) :
  closedFiles (processLog p completedFile) = [].
Proof.
  unfold PhaseImplementation.processLog.
  induction (processGeneratedFileContents _ _).1 as [|[[] args] calls IH];
    [reflexivity | exact IH..].
Qed.

(** *** Streams are run action by action *)

Lemma executeInference_app (s1 s2 : list StreamAction) (h : Heap) :
  executeInference (s1 ++ s2) h =
  match executeInference s1 h with
  | (Returned _, h1) => executeInference s2 h1
  | (Thrown e, h1) => (Thrown e, h1)
  end.
Proof.
  revert h. induction s1 as [|a s1 IH]; intros h; [reflexivity|].
  simpl. unfold mbind, M_bind.
  destruct (act a h) as [[[]|e] h1]; [apply IH | reflexivity].
Qed.

Lemma executeInference_cons (a : StreamAction) (rest : list StreamAction) (h : Heap) :
  executeInference (a :: rest) h =
  match act a h with
  | (Returned _, h1) => executeInference rest h1
  | (Thrown e, h1) => (Thrown e, h1)
  end.
Proof. reflexivity. Qed.

(** *** The log does not steer the run *)

Lemma callbacks_app (es1 es2 : list Effect) :
  callbacks (es1 ++ es2) = callbacks es1 ++ callbacks es2.
Proof. apply omap_app. Qed.

Lemma closedFiles_app (es1 es2 : list Effect) :
  closedFiles (es1 ++ es2) = closedFiles es1 ++ closedFiles es2.
Proof. apply omap_app. Qed.

Lemma act_sameButLog (a : StreamAction) (h1 h2 : Heap) :
  sameButLog h1 h2 →
  (act a h1).1 = (act a h2).1 ∧ sameButLog (act a h1).2 (act a h2).2.
Proof.
  intros (Hs & Hp & Hc). unfold sameButLog.
  destruct a as [text | p file | ps | p | p chunk fmt | p | i result]; simpl.
  - unfold_m; simpl. rewrite Hs. auto.
  - unfold_m; simpl. rewrite Hs. auto.
  - unfold_m; simpl. rewrite Hs. auto.
  - unfold onFileOpen. unfold_m; simpl. rewrite !callbacks_app, Hc. auto.
  - unfold onContentChunk. unfold_m; simpl. rewrite !callbacks_app, Hc. auto.
  - destruct (onFileClose_cases p h1)
      as [(Hl & ->) | [(f & c & Hl & Hr & ->) | (f & e & Hl & Hr & ->)]].
    + rewrite Hs in Hl. rewrite (onFileClose_missing p h2 Hl). simpl.
      rewrite !callbacks_app, Hc. auto.
    + rewrite Hs in Hl. rewrite (onFileClose_found p h2 f c Hl Hr). simpl.
      rewrite !callbacks_app, Hc, Hs, Hp. auto.
    + rewrite Hs in Hl. rewrite (onFileClose_thrown p h2 f e Hl Hr). simpl.
      rewrite !callbacks_app, Hc. auto.
  - rewrite Hp. auto.
Qed.

Lemma executeInference_sameButLog (stream : list StreamAction) (h1 h2 : Heap) :
  sameButLog h1 h2 →
  (executeInference stream h1).1 = (executeInference stream h2).1 ∧
  sameButLog (executeInference stream h1).2 (executeInference stream h2).2.
Proof.
  revert h1 h2. induction stream as [|a rest IH]; intros h1 h2 Hsame.
  - split; [reflexivity | exact Hsame].
  - rewrite !executeInference_cons.
    destruct (act_sameButLog a h1 h2 Hsame) as [Hres Hnext].
    destruct (act a h1) as [[[]|e1] h1'], (act a h2) as [[[]|e2] h2'];
      simpl in Hres, Hnext; try discriminate.
    + apply IH. exact Hnext.
    + split; [exact Hres | exact Hnext].
Qed.

(** C8: when [onFileClose] is called for a path that [completedFiles] does
    not hold, the callback logs an error and returns: no promise is pushed,
    [fileClosedCallback] is not called and [streamingState] is untouched; the
    rest of the run, and with it the outputs of the operation, are what they
    are without that call. *)
Theorem close_of_missing_file (p : string) (h : Heap) :
  completedFiles (h_streamingState h) !! p = None →
  (onFileClose p h).1 = Returned tt ∧
  h_fixedFilePromises (onFileClose p h).2 = h_fixedFilePromises h ∧
  h_streamingState (onFileClose p h).2 = h_streamingState h ∧
  h_effects (onFileClose p h).2 =
    h_effects h ++ [LoggerInfo [LogText ("Completed generation of file: " +:+ p)];
                    LoggerError [LogText ("Completed file not found: " +:+ p)]] ∧
  callbacks (h_effects (onFileClose p h).2) = callbacks (h_effects h) ∧
  ∀ rest : list StreamAction,
    (executeInference (ParserClosesFile p :: rest) h).1 = (executeInference rest h).1 ∧
    sameButLog (executeInference (ParserClosesFile p :: rest) h).2
      (executeInference rest h).2.
Proof.
  intros Hp. pose proof (onFileClose_missing p h Hp) as Hclose.
  assert (Hcb : callbacks
                  (h_effects h ++
                     [LoggerInfo [LogText ("Completed generation of file: " +:+ p)];
                      LoggerError [LogText ("Completed file not found: " +:+ p)]]) =
                callbacks (h_effects h)).
  { rewrite callbacks_app. simpl. apply app_nil_r. }
  repeat (split; [rewrite Hclose; simpl; reflexivity || exact Hcb|]).
  intros rest. rewrite executeInference_cons. simpl act. rewrite Hclose.
  apply executeInference_sameButLog. unfold sameButLog. simpl. auto.
Qed.

(** *** What [execute] returns *)

Lemma execute_unfold (stream : list StreamAction) (h0 : Heap) :
  execute inputs options stream h0 =
  match executeInference stream (logPhaseStart inputs h0).2 with
  | (Returned _, h) =>
      let commands := extractedInstallCommands (parsingState (h_streamingState h)) in
      (Returned {| fixedFilePromises := h_fixedFilePromises h;
                   deploymentNeeded := 0 <? length (h_fixedFilePromises h);
                   commands := commands |},
       mkHeap (h_streamingState h) (h_fixedFilePromises h)
         (h_effects h ++
            [LoggerInfo [LogText "Files generated for phase:"; LogText (name (phase inputs));
                         LogText "with"; LogNumber (length (h_fixedFilePromises h));
                         LogText "files being fixed in real-time and extracted install commands:";
                         LogCommands commands]]))
  | (Thrown e, h) => (Thrown e, h)
  end.
Proof.
  unfold execute, logPhaseStart. unfold_m. simpl.
  destruct (executeInference stream _) as [[[]|e] h]; reflexivity.
Qed.

Lemma execute_returned (stream : list StreamAction) (out : PhaseImplementationOutputs)
    (h' : Heap) :
  execute inputs options stream initialHeap = (Returned out, h') →
  ∃ h, executeInference stream (logPhaseStart inputs initialHeap).2 = (Returned tt, h) ∧
       fixedFilePromises out = h_fixedFilePromises h ∧
       commands out = extractedInstallCommands (parsingState (h_streamingState h)) ∧
       h_streamingState h' = h_streamingState h ∧
       h_fixedFilePromises h' = h_fixedFilePromises h ∧
       closedFiles (h_effects h') = closedFiles (h_effects h).
Proof.
  rewrite execute_unfold.
  destruct (executeInference stream _) as [[[]|e] h]; [|discriminate].
  intros [= <- <-]. exists h. simpl. rewrite closedFiles_app. simpl.
  rewrite app_nil_r. auto 10.
Qed.

(** *** The parsing state belongs to the parser *)

Lemma act_parsingState (a : StreamAction) (h : Heap) :
  parsingState (h_streamingState (act a h).2) =
  match a with
  | ParserSetsParsingState ps => ps
  | _ => parsingState (h_streamingState h)
  end.
Proof.
  destruct a as [text | p file | ps | p | p chunk fmt | p | i result];
    try reflexivity.
  simpl act.
  destruct (onFileClose_cases p h)
    as [(Hl & ->) | [(f & c & Hl & Hr & ->) | (f & e & Hl & Hr & ->)]]; reflexivity.
Qed.

Lemma executeInference_parsingState (stream : list StreamAction) (h h' : Heap) :
  executeInference stream h = (Returned tt, h') →
  parsingState (h_streamingState h') =
  foldl (fun ps a => match a with ParserSetsParsingState ps' => ps' | _ => ps end)
    (parsingState (h_streamingState h)) stream.
Proof.
  revert h. induction stream as [|a rest IH]; intros h.
  - intros [= <-]. reflexivity.
  - rewrite executeInference_cons. pose proof (act_parsingState a h) as Ha.
    destruct (act a h) as [[[]|e] h1]; [|discriminate].
    intros Hrest. rewrite (IH h1 Hrest). simpl in Ha. rewrite Ha. simpl.
    destruct a; reflexivity.
Qed.

(** C4: the [commands] of the outputs are the [extractedInstallCommands] of
    the parsing state when the stream has ended, which are the ones the
    parser wrote last: [execute] reads the field and passes it on, the same
    elements in the same order, duplicates included. *)
Theorem commands_of_final_parsing_state (stream : list StreamAction)
    (out : PhaseImplementationOutputs) (h' : Heap) :
  execute inputs options stream initialHeap = (Returned out, h') →
  commands out = extractedInstallCommands (parsingState (h_streamingState h')) ∧
  commands out = extractedInstallCommands (parserWrites stream).
Proof.
  intros Hexec.
  destruct (execute_returned stream out h' Hexec) as (h & Hrun & _ & Hcmd & Hs & _ & _).
  rewrite Hs. split; [exact Hcmd|].
  rewrite Hcmd, (executeInference_parsingState stream _ h Hrun). reflexivity.
Qed.

(** *** Promises are pushed in the order of the closes *)

Lemma closedFiles_closed (args : list LogArg) (p : string) (completedFile file : FileOutputType)
    (message : string) :
  closedFiles (LoggerInfo args :: processLog p completedFile
                 ++ [FileClosedCallback file message]) = [file].
Proof.
  change (closedFiles (processLog p completedFile ++ [FileClosedCallback file message])
          = [file]).
  rewrite closedFiles_app, closedFiles_processLog. reflexivity.
Qed.

Lemma closedFiles_failed (args : list LogArg) (p : string) (completedFile : FileOutputType) :
  closedFiles (LoggerInfo args :: processLog p completedFile) = [].
Proof. apply closedFiles_processLog. Qed.

Lemma fmap_alter_same {A B : Type} (f : A → B) (g : A → A) (i : nat) (l : list A) :
  (∀ x, f (g x) = f x) → f <$> alter g i l = f <$> l.
Proof.
  intros Hfg. revert i. induction l as [|x l IH]; intros [|i]; try reflexivity.
  - simpl. rewrite Hfg. reflexivity.
  - change (f x :: (f <$> alter g i l) = f x :: (f <$> l)). rewrite IH. reflexivity.
Qed.

Lemma source_settle (result : Result FileOutputType) (pr : Promise) :
  source (settle result pr) = source pr.
Proof. unfold settle. destruct (settled pr); reflexivity. Qed.

Lemma act_pushes (a : StreamAction) (h : Heap) :
  ∃ new : list Promise,
    source <$> h_fixedFilePromises (act a h).2 =
      (source <$> h_fixedFilePromises h) ++ (source <$> new) ∧
    closedFiles (h_effects (act a h).2) =
      closedFiles (h_effects h) ++ (promiseFile <$> new).
Proof.
  destruct a as [text | p file | ps | p | p chunk fmt | p | i result].
  1-5: exists []; simpl; rewrite ?closedFiles_app, !app_nil_r; split; reflexivity.
  - simpl act.
    destruct (onFileClose_cases p h)
      as [(Hl & ->) | [(f & c & Hl & Hr & ->) | (f & e & Hl & Hr & ->)]].
    + exists []. simpl. rewrite closedFiles_app, !app_nil_r. split; reflexivity.
    + exists [pushedPromise p f c]. simpl.
      rewrite closedFiles_app, closedFiles_closed, fmap_app. simpl.
      split; [reflexivity|]. f_equal. f_equal.
      unfold promiseFile, PhaseImplementation.pushedPromise.
      destruct (shouldEnableRealtimeCodeFixer inputs options && _); reflexivity.
    + exists []. simpl. rewrite closedFiles_app, closedFiles_failed, !app_nil_r.
      split; reflexivity.
  - exists []. simpl. rewrite !app_nil_r. split; [|reflexivity].
    apply fmap_alter_same. intros pr. apply source_settle.
Qed.

Lemma executeInference_pushes (stream : list StreamAction) (h : Heap) :
  ∃ new : list Promise,
    source <$> h_fixedFilePromises (executeInference stream h).2 =
      (source <$> h_fixedFilePromises h) ++ (source <$> new) ∧
    closedFiles (h_effects (executeInference stream h).2) =
      closedFiles (h_effects h) ++ (promiseFile <$> new).
Proof.
  revert h. induction stream as [|a rest IH]; intros h.
  - exists []. simpl. rewrite !app_nil_r. split; reflexivity.
  - rewrite executeInference_cons.
    destruct (act_pushes a h) as (new1 & Hp1 & Hc1).
    destruct (act a h) as [[[]|e] h1]; simpl in Hp1, Hc1.
    + destruct (IH h1) as (new2 & Hp2 & Hc2). exists (new1 ++ new2).
      rewrite Hp2, Hc2, Hp1, Hc1, !fmap_app, !app_assoc. split; reflexivity.
    + exists new1. simpl. split; assumption.
Qed.

Lemma promiseFile_of_source (ps : list Promise) :
  promiseFile <$> ps = sourceFile <$> (source <$> ps).
Proof. rewrite <- list_fmap_compose. reflexivity. Qed.

Lemma act_sameButSettled (a : StreamAction) (h1 h2 : Heap) :
  sameButSettled h1 h2 →
  if isSettle a then (act a h1).1 = Returned tt ∧ sameButSettled (act a h1).2 h2
  else (act a h1).1 = (act a h2).1 ∧ sameButSettled (act a h1).2 (act a h2).2.
Proof.
  intros (Hs & He & Hp). unfold sameButSettled.
  destruct a as [text | p file | ps | p | p chunk fmt | p | i result]; simpl isSettle; cbv iota.
  - simpl. unfold_m; simpl. rewrite Hs. auto.
  - simpl. unfold_m; simpl. rewrite Hs. auto.
  - simpl. unfold_m; simpl. rewrite Hs. auto.
  - simpl. unfold onFileOpen. unfold_m; simpl. rewrite He. auto.
  - simpl. unfold onContentChunk. unfold_m; simpl. rewrite He. auto.
  - simpl act.
    destruct (onFileClose_cases p h1)
      as [(Hl & ->) | [(f & c & Hl & Hr & ->) | (f & e & Hl & Hr & ->)]].
    + rewrite Hs in Hl. rewrite (onFileClose_missing p h2 Hl). simpl.
      rewrite He. auto.
    + rewrite Hs in Hl. rewrite (onFileClose_found p h2 f c Hl Hr). simpl.
      rewrite He, Hs, !fmap_app, Hp. auto.
    + rewrite Hs in Hl. rewrite (onFileClose_thrown p h2 f e Hl Hr). simpl.
      rewrite He. auto.
  - simpl. split; [reflexivity|]. split; [exact Hs|]. split; [exact He|].
    rewrite <- Hp. apply fmap_alter_same. intros pr. apply source_settle.
Qed.

Lemma executeInference_withoutSettles (stream : list StreamAction) (h1 h2 : Heap) :
  sameButSettled h1 h2 →
  (executeInference stream h1).1 = (executeInference (withoutSettles stream) h2).1 ∧
  sameButSettled (executeInference stream h1).2
    (executeInference (withoutSettles stream) h2).2.
Proof.
  revert h1 h2. induction stream as [|a rest IH]; intros h1 h2 Hsame.
  - split; [reflexivity | exact Hsame].
  - rewrite executeInference_cons. pose proof (act_sameButSettled a h1 h2 Hsame) as Ha.
    unfold withoutSettles. simpl List.filter.
    destruct (isSettle a); simpl negb; cbv iota.
    + destruct Ha as [Hres Hnext].
      destruct (act a h1) as [[[]|e] h1']; simpl in Hres, Hnext; [|discriminate].
      apply IH. exact Hnext.
    + destruct Ha as [Hres Hnext]. rewrite executeInference_cons.
      destruct (act a h1) as [[[]|e1] h1'], (act a h2) as [[[]|e2] h2'];
        simpl in Hres, Hnext; try discriminate.
      * apply IH. exact Hnext.
      * split; [exact Hres | exact Hnext].
Qed.

(** *** One promise for every closed file *)

Lemma settledFrom_refl (a : Promise) : settledFrom a a.
Proof. split; [reflexivity | intros _; reflexivity]. Qed.

Lemma settledFrom_trans (a b c : Promise) :
  settledFrom a b → settledFrom b c → settledFrom a c.
Proof.
  intros [Hs1 Hk1] [Hs2 Hk2]. split; [congruence|].
  intros Ha. specialize (Hk1 Ha). subst b. apply Hk2. exact Ha.
Qed.

Lemma settledFrom_settle (result : Result FileOutputType) (a : Promise) :
  settledFrom a (settle result a).
Proof.
  split; [apply source_settle|]. unfold settle.
  destruct (settled a); [intros Hp; contradiction Hp; reflexivity | reflexivity..].
Qed.

Lemma settledFrom_alter (result : Result FileOutputType) (i : nat) (ps : list Promise) :
  Forall2 settledFrom ps (alter (settle result) i ps).
Proof.
  revert i. induction ps as [|a ps IH]; intros [|i]; simpl.
  - constructor.
  - constructor.
  - constructor; [apply settledFrom_settle|].
    apply Forall2_same_length_lookup_2; [reflexivity|].
    intros j x y Hx Hy. rewrite Hx in Hy. injection Hy as <-. apply settledFrom_refl.
  - constructor; [apply settledFrom_refl | apply IH].
Qed.

Lemma settledFrom_all_refl (ps : list Promise) : Forall2 settledFrom ps ps.
Proof. induction ps; constructor; [apply settledFrom_refl | assumption]. Qed.

Lemma settledFrom_all_trans (ps qs rs : list Promise) :
  Forall2 settledFrom ps qs → Forall2 settledFrom qs rs → Forall2 settledFrom ps rs.
Proof.
  intros Hpq. revert rs. induction Hpq as [|a b ps qs Hab _ IH]; intros rs Hqr.
  - inversion Hqr. constructor.
  - inversion Hqr as [|b' c qs' rs' Hbc Hrest]; subst.
    constructor; [eapply settledFrom_trans; eassumption | apply IH; assumption].
Qed.

Lemma closeMatches_pushed (p : string) (file : FileOutputType) (contents : string)
    (pr : Promise) :
  (processGeneratedFileContents file
     (originalContentsOf (allFiles (context options)) p)).2 = Returned contents →
  settledFrom (pushedPromise p file contents) pr →
  closeMatches inputs options (p, file) pr.
Proof.
  intros Hc [Hsrc Hkeep]. exists contents. split; [exact Hc|]. simpl.
  unfold PhaseImplementation.pushedPromise in Hsrc, Hkeep. simpl in Hsrc, Hkeep.
  destruct (shouldEnableRealtimeCodeFixer inputs options && (50 <? lineCount contents)).
  - exact Hsrc.
  - apply Hkeep. discriminate.
Qed.

(** An action that is no close returns and leaves the promises in place. *)
Lemma act_no_close (a : StreamAction) (h : Heap) :
  (∀ p, a ≠ ParserClosesFile p) →
  ∃ h1, act a h = (Returned tt, h1) ∧
        Forall2 settledFrom (h_fixedFilePromises h) (h_fixedFilePromises h1).
Proof.
  intros Hne.
  destruct a as [text | p file | ps | p | p chunk fmt | p | i result];
    try (eexists; split; [reflexivity | apply settledFrom_all_refl]).
  - contradiction (Hne p). reflexivity.
  - eexists; split; [reflexivity | apply settledFrom_alter].
Qed.

(** *** The place of a promise in the list *)

(** Every action keeps the promises pushed so far in their places, settled
    or not, and pushes at the end. *)
Lemma act_keeps (a : StreamAction) (h : Heap) :
  ∃ old new,
    h_fixedFilePromises (act a h).2 = old ++ new ∧
    Forall2 settledFrom (h_fixedFilePromises h) old.
Proof.
  destruct a as [text | p file | ps | p | p chunk fmt | p | i result];
    try (exists (h_fixedFilePromises h), []; rewrite app_nil_r;
         split; [reflexivity | apply settledFrom_all_refl]).
  - simpl act.
    destruct (onFileClose_cases p h)
      as [(Hl & ->) | [(f & c & Hl & Hr & ->) | (f & e & Hl & Hr & ->)]]; simpl.
    + exists (h_fixedFilePromises h), []. rewrite app_nil_r.
      split; [reflexivity | apply settledFrom_all_refl].
    + exists (h_fixedFilePromises h), [pushedPromise p f c].
      split; [reflexivity | apply settledFrom_all_refl].
    + exists (h_fixedFilePromises h), []. rewrite app_nil_r.
      split; [reflexivity | apply settledFrom_all_refl].
  - exists (alter (settle result) i (h_fixedFilePromises h)), []. rewrite app_nil_r.
    split; [reflexivity | apply settledFrom_alter].
Qed.

Lemma executeInference_keeps (stream : list StreamAction) (h : Heap) :
  ∃ old new,
    h_fixedFilePromises (executeInference stream h).2 = old ++ new ∧
    Forall2 settledFrom (h_fixedFilePromises h) old.
Proof.
  revert h. induction stream as [|a rest IH]; intros h.
  - exists (h_fixedFilePromises h), []. rewrite app_nil_r.
    split; [reflexivity | apply settledFrom_all_refl].
  - rewrite executeInference_cons.
    destruct (act_keeps a h) as (old1 & new1 & Heq1 & Hold1).
    destruct (act a h) as [[[]|e] h1]; simpl in Heq1.
    + destruct (IH h1) as (old2 & new2 & Heq2 & Hold2).
      rewrite Heq1 in Hold2.
      apply Forall2_app_inv_l in Hold2 as (old & mid & Hold & Hmid & ->).
      exists old, (mid ++ new2). rewrite Heq2, <- app_assoc.
      split; [reflexivity | eapply settledFrom_all_trans; eassumption].
    + exists old1, new1. split; assumption.
Qed.

(** The parser stores [file] under [p] and closes it: when the run goes on,
    the file was processed and its promise was pushed at the end. *)
Lemma executeInference_close (p : string) (file : FileOutputType) (h h' : Heap) :
  executeInference [ParserSetsCompleted p file; ParserClosesFile p] h = (Returned tt, h') →
  ∃ contents,
    (processGeneratedFileContents file
       (originalContentsOf (allFiles (context options)) p)).2 = Returned contents ∧
    h_fixedFilePromises h' = h_fixedFilePromises h ++ [pushedPromise p file contents].
Proof.
  rewrite executeInference_cons.
  set (h1 := mkHeap
               (mkStreaming (accumulator (h_streamingState h))
                  (<[p := file]> (completedFiles (h_streamingState h)))
                  (parsingState (h_streamingState h)))
               (h_fixedFilePromises h) (h_effects h)).
  change (act (ParserSetsCompleted p file) h) with (Returned (E:=JsError) tt, h1).
  cbv iota beta. rewrite executeInference_cons.
  change (act (ParserClosesFile p) h1) with (onFileClose p h1).
  assert (Hlookup : completedFiles (h_streamingState h1) !! p = Some file)
    by apply lookup_insert_eq.
  destruct (onFileClose_cases p h1)
    as [(Hl & ->) | [(f & c & Hl & Hr & ->) | (f & e & Hl & Hr & ->)]].
  - congruence.
  - rewrite Hlookup in Hl. injection Hl as <-. intros [= <-].
    exists c. split; [exact Hr | reflexivity].
  - discriminate.
Qed.

Lemma executeInference_app_returned (s1 s2 : list StreamAction) (h h' : Heap) :
  executeInference (s1 ++ s2) h = (Returned tt, h') →
  ∃ h1, executeInference s1 h = (Returned tt, h1) ∧
        executeInference s2 h1 = (Returned tt, h').
Proof.
  rewrite executeInference_app.
  destruct (executeInference s1 h) as [[[]|e] h1]; [|discriminate].
  intros Hrest. exists h1. split; [reflexivity | exact Hrest].
Qed.

(** The promise of a file closed in the middle of a stream stands, at the
    end, at the index that was the length of the list at its close. *)
Lemma executeInference_place (s1 s2 : list StreamAction) (p : string)
    (file : FileOutputType) (h h1 h' : Heap) :
  executeInference s1 h = (Returned tt, h1) →
  executeInference
    (s1 ++ [ParserSetsCompleted p file; ParserClosesFile p] ++ s2) h = (Returned tt, h') →
  ∃ pr,
    h_fixedFilePromises h' !! length (h_fixedFilePromises h1) = Some pr ∧
    closeMatches inputs options (p, file) pr.
Proof.
  intros Hs1 Hrun.
  apply executeInference_app_returned in Hrun as (h1' & Hs1' & Hrun).
  rewrite Hs1 in Hs1'. injection Hs1' as <-.
  apply executeInference_app_returned in Hrun as (h2 & Hclose & Hrest).
  apply executeInference_close in Hclose as (contents & Hc & Hpush).
  destruct (executeInference_keeps s2 h2) as (old & new & Heq & Hold).
  rewrite Hrest in Heq. simpl in Heq. rewrite Hpush in Hold.
  apply Forall2_app_inv_l in Hold as (old1 & last & Hold1 & Hlast & ->).
  inversion Hlast as [|? pr ? ? Hpr Hnil]; subst. inversion Hnil; subst.
  exists pr. split.
  - rewrite Heq, <- !app_assoc, (Forall2_length _ _ _ Hold1).
    rewrite lookup_app_r by reflexivity. rewrite Nat.sub_diag. reflexivity.
  - eapply closeMatches_pushed; eassumption.
Qed.

Lemma executeInference_grows (stream : list StreamAction) (h : Heap) :
  length (h_fixedFilePromises h) ≤ length (h_fixedFilePromises (executeInference stream h).2).
Proof.
  destruct (executeInference_keeps stream h) as (old & new & -> & Hold).
  rewrite length_app, (Forall2_length _ _ _ Hold). lia.
Qed.

(** C3: the promises returned by the operation stand in the order in which
    the files were closed. Their files are the files given to
    [fileClosedCallback], call by call; when the close of a file A comes in
    the stream before the close of a file B, the promise of A stands in the
    returned list before the promise of B, whatever happens in between and
    after; and the settlements of correction tasks, in whatever order they
    come, change neither which promise stands where nor the calls of the
    callbacks. *)
Theorem fixedFilePromises_in_close_order (stream : list StreamAction)
    (out : PhaseImplementationOutputs) (h' : Heap) :
  execute inputs options stream initialHeap = (Returned out, h') →
  promiseFile <$> fixedFilePromises out = closedFiles (h_effects h') ∧
  (∀ s1 s2 s3 pA fileA pB fileB,
     stream = s1 ++ [ParserSetsCompleted pA fileA; ParserClosesFile pA]
                 ++ s2 ++ [ParserSetsCompleted pB fileB; ParserClosesFile pB] ++ s3 →
     ∃ i j prA prB,
       i < j ∧
       fixedFilePromises out !! i = Some prA ∧
       fixedFilePromises out !! j = Some prB ∧
       closeMatches inputs options (pA, fileA) prA ∧
       closeMatches inputs options (pB, fileB) prB) ∧
  ∃ out0 h0,
    execute inputs options (withoutSettles stream) initialHeap = (Returned out0, h0) ∧
    source <$> fixedFilePromises out = source <$> fixedFilePromises out0 ∧
    h_effects h' = h_effects h0.
Proof.
  intros Hexec.
  destruct (execute_returned stream out h' Hexec)
    as (h & Hrun & Hout & _ & _ & _ & Hclosed).
  split; [|split].
  - destruct (executeInference_pushes stream (logPhaseStart inputs initialHeap).2)
      as (new & Hp & Hc).
    rewrite Hrun in Hp, Hc. simpl in Hp, Hc.
    rewrite Hout, Hclosed, promiseFile_of_source, Hp, Hc, promiseFile_of_source.
    reflexivity.
  - intros s1 s2 s3 pA fileA pB fileB ->. rewrite Hout.
    pose proof Hrun as HrunA.
    apply executeInference_app_returned in HrunA as (h1 & Hs1 & HrestA).
    destruct (executeInference_place s1 _ pA fileA _ h1 h Hs1 Hrun) as (prA & HiA & HmA).
    pose proof Hrun as HrunB. rewrite !app_assoc in HrunB.
    rewrite <- (app_assoc _ [ParserSetsCompleted pB fileB; ParserClosesFile pB] s3) in HrunB.
    pose proof HrunB as HrunB'.
    apply executeInference_app_returned in HrunB' as (h2 & Hs2 & _).
    destruct (executeInference_place _ s3 pB fileB _ h2 h Hs2 HrunB) as (prB & HiB & HmB).
    exists (length (h_fixedFilePromises h1)), (length (h_fixedFilePromises h2)), prA, prB.
    split; [|auto].
    rewrite <- !app_assoc in Hs2.
    apply executeInference_app_returned in Hs2 as (h1' & Hs1' & Hs2).
    rewrite Hs1 in Hs1'. injection Hs1' as <-.
    apply executeInference_app_returned in Hs2 as (hA & HcloseA & Hs2).
    apply executeInference_close in HcloseA as (cA & _ & HpushA).
    pose proof (executeInference_grows s2 hA) as Hgrow.
    rewrite Hs2, HpushA, length_app in Hgrow. simpl in Hgrow. lia.
  - pose proof Hexec as Hexec'. rewrite execute_unfold in Hexec'.
    rewrite execute_unfold.
    destruct (executeInference_withoutSettles stream
                (logPhaseStart inputs initialHeap).2
                (logPhaseStart inputs initialHeap).2) as [Hres Hsame];
      [repeat split|].
    rewrite Hrun in Hres, Hsame, Hexec'. simpl in Hres, Hsame.
    destruct (executeInference (withoutSettles stream) _) as [[[]|e] h0];
      [|discriminate].
    destruct Hsame as (Hs & He & Hp). injection Hexec' as <- <-.
    eexists _, _. split; [reflexivity|]. simpl.
    rewrite He, Hs. split; [exact Hp|].
    apply (f_equal (length (A:=PromiseSource))) in Hp. rewrite !length_fmap in Hp.
    rewrite Hp. reflexivity.
Qed.





(** *** Which files go to the realtime code fixer *)

Lemma pushedPromise_viaFixer (p : string) (completedFile : FileOutputType)
    (contents : string) :
  viaFixer (pushedPromise p completedFile contents) =
  shouldAutoFix inputs && IsRealtimeCodeFixerEnabled (inferenceContext options)
    && (50 <? lineCount contents).
Proof.
  unfold PhaseImplementation.pushedPromise, shouldEnableRealtimeCodeFixer. simpl.
  destruct (shouldAutoFix inputs && IsRealtimeCodeFixerEnabled (inferenceContext options)
            && (50 <? lineCount contents)); reflexivity.
Qed.

Lemma routedThroughFixer_found (p : string) (h : Heap) (completedFile : FileOutputType)
    (contents : string) :
  completedFiles (h_streamingState h) !! p = Some completedFile →
  (processGeneratedFileContents completedFile
     (originalContentsOf (allFiles (context options)) p)).2 = Returned contents →
  routedThroughFixer h (onFileClose p h).2 ↔
  viaFixer (pushedPromise p completedFile contents) = true.
Proof.
  intros Hp Hc. rewrite (onFileClose_found p h completedFile contents Hp Hc).
  unfold routedThroughFixer. simpl. split.
  - intros (pr & Heq & Hvia). apply app_inv_head in Heq. congruence.
  - intros Hvia. eexists. split; [reflexivity | exact Hvia].
Qed.

(** C1, amended: a file closed during a run, present in [completedFiles] and
    whose contents were processed to [contents], is routed through the
    realtime code fixer if and only if [inputs.shouldAutoFix] is set AND the
    feature flag of the fixer is enabled AND [contents.split('\n')] has more
    than 50 pieces. A file of 49 lines is never routed; a file of 51 lines is
    routed when both [shouldAutoFix] and the flag are on. *)
Theorem realtime_fixer_routing (p : string) (h : Heap) (completedFile : FileOutputType)
    (contents : string) :
  completedFiles (h_streamingState h) !! p = Some completedFile →
  (processGeneratedFileContents completedFile
     (originalContentsOf (allFiles (context options)) p)).2 = Returned contents →
  (routedThroughFixer h (onFileClose p h).2 ↔
     shouldAutoFix inputs = true ∧
     IsRealtimeCodeFixerEnabled (inferenceContext options) = true ∧
     50 < lineCount contents) ∧
  (lineCount contents = 49 → ¬ routedThroughFixer h (onFileClose p h).2) ∧
  (lineCount contents = 51 →
   shouldAutoFix inputs = true →
   IsRealtimeCodeFixerEnabled (inferenceContext options) = true →
   routedThroughFixer h (onFileClose p h).2).
Proof.
  intros Hp Hc.
  assert (Hiff : routedThroughFixer h (onFileClose p h).2 ↔
            shouldAutoFix inputs = true ∧
            IsRealtimeCodeFixerEnabled (inferenceContext options) = true ∧
            50 < lineCount contents).
  { rewrite (routedThroughFixer_found p h completedFile contents Hp Hc).
    rewrite pushedPromise_viaFixer, !andb_true_iff, Nat.ltb_lt. tauto. }
  split; [exact Hiff|]. split.
  - intros H49 Hr. apply Hiff in Hr as (_ & _ & Hlt). lia.
  - intros H51 Hauto Hflag. apply Hiff. repeat split; [assumption..|lia].
Qed.

End Operation.

Section Examples.
Import Sample.
#[local] Existing Instance sampleCollaborators.

Example body_lines : lineCount (body 49) = 49 ∧ lineCount (body 51) = 51.
Proof. split; vm_compute; reflexivity. Qed.

Lemma realtime_fixer_routing_witness :
  let h := heapWith "core/views.py" (sampleFile "core/views.py" 51) in
  routedThroughFixer h
    (onFileClose (sampleInputs true) (sampleOptions true) "core/views.py" h).2.
Proof.
  intros h.
  apply (realtime_fixer_routing (sampleInputs true) (sampleOptions true)
           "core/views.py" h (sampleFile "core/views.py" 51) (body 51)).
  - reflexivity.
  - reflexivity.
  - vm_compute. reflexivity.
  - reflexivity.
  - reflexivity.
Defined.

(** C1 as it is worded fails: with the feature flag enabled and a file of 51
    lines, a run whose inputs have [shouldAutoFix] unset does not route the
    file through the fixer. *)
Lemma fixer_flag_alone_counterexample :
  let h := heapWith "core/views.py" (sampleFile "core/views.py" 51) in
  let h' := (onFileClose (sampleInputs false) (sampleOptions true) "core/views.py" h).2 in
  IsRealtimeCodeFixerEnabled (inferenceContext (sampleOptions true)) = true ∧
  lineCount (body 51) = 51 ∧
  h_fixedFilePromises h' =
    [mkPromise
       (PromiseResolve (mkFile "core/views.py" (body 51) "Request handlers" full_content))
       (Fulfilled (mkFile "core/views.py" (body 51) "Request handlers" full_content))] ∧
  ¬ (routedThroughFixer h h' ↔
       IsRealtimeCodeFixerEnabled (inferenceContext (sampleOptions true)) = true ∧
       50 < lineCount (body 51)).
Proof.
  intros h h'.
  assert (Hh' : h_fixedFilePromises h' =
    [mkPromise
       (PromiseResolve (mkFile "core/views.py" (body 51) "Request handlers" full_content))
       (Fulfilled (mkFile "core/views.py" (body 51) "Request handlers" full_content))]).
  { vm_compute. reflexivity. }
  split; [reflexivity|]. split; [vm_compute; reflexivity|]. split; [exact Hh'|].
  intros [_ Hback].
  destruct Hback as (pr & Heq & Hvia).
  { split; [reflexivity|]. vm_compute. lia. }
  rewrite Hh' in Heq. simpl in Heq. injection Heq as <-. discriminate Hvia.
Qed.

Lemma close_of_missing_file_witness :
  let h := heapWith "core/views.py" (sampleFile "core/views.py" 51) in
  completedFiles (h_streamingState h) !! "core/admin.py" = None ∧
  h_fixedFilePromises
    (onFileClose (sampleInputs true) (sampleOptions true) "core/admin.py" h).2 = [] ∧
  callbacks
    (h_effects (onFileClose (sampleInputs true) (sampleOptions true) "core/admin.py" h).2)
  = [].
Proof.
  intros h.
  pose proof (close_of_missing_file (sampleInputs true) (sampleOptions true)
                "core/admin.py" h eq_refl) as (_ & Hpromises & _ & _ & Hcallbacks & _).
  split; [reflexivity|]. split; [exact Hpromises | exact Hcallbacks].
Defined.

Example closeOrderRun_returns :
  (fun out => filePath <$> (promiseFile <$> fixedFilePromises out))
    <$> returnedValue closeOrderRun.1
    = Some ["core/views.py"; "core/urls.py"; "core/forms.py"] ∧
  (fun out => viaFixer <$> fixedFilePromises out) <$> returnedValue closeOrderRun.1
    = Some [true; true; true] ∧
  (fun out => settled <$> fixedFilePromises out) <$> returnedValue closeOrderRun.1
    = Some
        [Fulfilled (fixedFile (mkFile "core/views.py" (body 51) "Request handlers" full_content));
         Fulfilled (fixedFile (mkFile "core/urls.py" (body 60) "URL routes" full_content));
         Fulfilled (fixedFile (mkFile "core/forms.py" (body 51) "Forms" full_content))] ∧
  commands <$> returnedValue closeOrderRun.1
    = Some (Some ["pip install django-htmx"; "pip install django-htmx"]).
Proof. repeat split; vm_compute; reflexivity. Qed.

Lemma closeOrderRun_returned :
  ∃ out h', closeOrderRun = (Returned out, h').
Proof.
  assert (Hret : hasReturned closeOrderRun.1 = true) by (vm_compute; reflexivity).
  destruct closeOrderRun as [[out|e] h'].
  - exists out, h'. reflexivity.
  - discriminate Hret.
Defined.



Lemma fixedFilePromises_in_close_order_witness :
  ∃ out h', closeOrderRun = (Returned out, h') ∧
    promiseFile <$> fixedFilePromises out = closedFiles (h_effects h').
Proof.
  destruct closeOrderRun_returned as (out & h' & Hrun).
  exists out, h'. split; [exact Hrun|].
  apply (fixedFilePromises_in_close_order (sampleInputs true) (sampleOptions true)
           closeOrderStream out h' Hrun).
Defined.

Lemma commands_of_final_parsing_state_witness :
  ∃ out h', closeOrderRun = (Returned out, h') ∧
    commands out = extractedInstallCommands (parserWrites closeOrderStream).
Proof.
  destruct closeOrderRun_returned as (out & h' & Hrun).
  exists out, h'. split; [exact Hrun|].
  apply (commands_of_final_parsing_state (sampleInputs true) (sampleOptions true)
           closeOrderStream out h' Hrun).
Defined.

End Examples.

End PhaseImplementationSpec.

(** ** Splitting a text at a separator *)

Module SplitSpec.

Lemma append_cons (a : ascii) (s t : string) : String a s +:+ t = String a (s +:+ t).
Proof. reflexivity. Qed.

Lemma append_empty_r (s : string) : s +:+ "" = s.
Proof. induction s as [|a s IH]; [reflexivity|]. rewrite append_cons, IH. reflexivity. Qed.

Lemma append_assoc (s t u : string) : (s +:+ t) +:+ u = s +:+ (t +:+ u).
Proof.
  induction s as [|a s IH]; [reflexivity|]. rewrite !append_cons, IH. reflexivity.
Qed.

Lemma chars_append (s t : string) :
  list_ascii_of_string (s +:+ t) = list_ascii_of_string s ++ list_ascii_of_string t.
Proof.
  induction s as [|a s IH]; [reflexivity|]. rewrite append_cons. simpl.
  rewrite IH. reflexivity.
Qed.

Lemma split_chars_nonempty (sep : ascii) (s : list ascii) : split_chars sep s ≠ [].
Proof.
  destruct s as [|c t]; simpl; [discriminate|].
  destruct (decide (c = sep)); [discriminate|].
  destruct (split_chars sep t); discriminate.
Qed.

Lemma split_chars_cons_other (sep c : ascii) (s : list ascii) :
  c ≠ sep →
  ∃ piece pieces,
    split_chars sep s = piece :: pieces ∧
    split_chars sep (c :: s) = (c :: piece) :: pieces.
Proof.
  intros Hc. simpl. destruct (decide (c = sep)); [contradiction|].
  destruct (split_chars sep s) as [|piece pieces] eqn:Hs.
  - contradiction (split_chars_nonempty sep s).
  - exists piece, pieces. split; reflexivity.
Qed.

(** The pieces of a text in two parts: the complete pieces of the first
    part, then the pieces of its unfinished piece followed by the second
    part. *)
Lemma split_chars_app (sep : ascii) (x y : list ascii) :
  split_chars sep (x ++ y) =
  removelast (split_chars sep x) ++ split_chars sep (List.last (split_chars sep x) [] ++ y).
Proof.
  induction x as [|c x IH]; [reflexivity|].
  destruct (decide (c = sep)) as [->|Hc].
  - simpl. destruct (decide (sep = sep)); [|contradiction].
    destruct (split_chars sep x) as [|piece pieces] eqn:Hx;
      [contradiction (split_chars_nonempty sep x)|].
    rewrite IH. reflexivity.
  - destruct (split_chars_cons_other sep c x Hc) as (piece & pieces & Hx & Hcx).
    destruct (split_chars_cons_other sep c (x ++ y) Hc) as (piece' & pieces' & Hxy & Hcxy).
    change ((c :: x) ++ y) with (c :: (x ++ y)). rewrite Hcxy, Hcx.
    rewrite IH, Hx in Hxy.
    destruct pieces as [|piece2 pieces].
    + change (removelast [piece]) with (@nil (list ascii)) in Hxy.
      change (List.last [piece] []) with piece in Hxy.
      change (removelast [c :: piece]) with (@nil (list ascii)).
      change (List.last [c :: piece] []) with (c :: piece).
      rewrite app_nil_l in Hxy |- *.
      destruct (split_chars_cons_other sep c (piece ++ y) Hc) as (q & qs & Hq & Hcq).
      change ((c :: piece) ++ y) with (c :: (piece ++ y)). rewrite Hcq.
      rewrite Hq in Hxy. injection Hxy as <- <-. reflexivity.
    + change (removelast (piece :: piece2 :: pieces))
        with (piece :: removelast (piece2 :: pieces)) in Hxy.
      change (List.last (piece :: piece2 :: pieces) [])
        with (List.last (piece2 :: pieces) []) in Hxy.
      change (removelast ((c :: piece) :: piece2 :: pieces))
        with ((c :: piece) :: removelast (piece2 :: pieces)).
      change (List.last ((c :: piece) :: piece2 :: pieces) [])
        with (List.last (piece2 :: pieces) []).
      simpl in Hxy. injection Hxy as <- <-. reflexivity.
Qed.

(** A text without the separator is one piece. *)
Lemma split_chars_no_sep (sep : ascii) (s : list ascii) :
  sep ∉ s → split_chars sep s = [s].
Proof.
  induction s as [|c s IH]; [reflexivity|]. intros Hnot.
  apply not_elem_of_cons in Hnot as [Hc Hs].
  simpl. destruct (decide (c = sep)); [congruence|]. rewrite (IH Hs). reflexivity.
Qed.

(** No piece holds the separator. *)
Lemma split_chars_pieces (sep : ascii) (s : list ascii) :
  Forall (fun piece => sep ∉ piece) (split_chars sep s).
Proof.
  induction s as [|c s IH]; simpl.
  - constructor; [apply not_elem_of_nil | constructor].
  - destruct (decide (c = sep)) as [->|Hc].
    + constructor; [apply not_elem_of_nil | exact IH].
    + destruct (split_chars sep s) as [|piece pieces]; [repeat constructor|].
      * intros Hin. apply list_elem_of_singleton in Hin. congruence.
      * inversion IH as [|? ? Hpiece Hpieces]; subst. constructor; [|exact Hpieces].
        intros Hin. apply elem_of_cons in Hin as [Heq | Hin]; [congruence | contradiction].
Qed.

Lemma removelast_fmap {A B : Type} (f : A → B) (l : list A) :
  removelast (f <$> l) = f <$> removelast l.
Proof.
  induction l as [|a [|b l] IH]; [reflexivity..|].
  change (f a :: removelast (f <$> b :: l) = f a :: (f <$> removelast (b :: l))).
  rewrite IH. reflexivity.
Qed.

Lemma last_fmap {A B : Type} (f : A → B) (l : list A) (d : A) :
  List.last (f <$> l) (f d) = f (List.last l d).
Proof.
  induction l as [|a [|b l] IH]; [reflexivity..|].
  change (List.last (f <$> b :: l) (f d) = f (List.last (b :: l) d)). exact IH.
Qed.

Lemma Forall_last {A : Type} (P : A → Prop) (l : list A) (d : A) :
  Forall P l → P d → P (List.last l d).
Proof.
  intros Hall Hd. induction Hall as [|a [|b l] Ha Hl IH]; [exact Hd | exact Ha | exact IH].
Qed.

Lemma split_append (x y : string) :
  split newline (x +:+ y) =
  removelast (split newline x) ++ split newline (List.last (split newline x) "" +:+ y).
Proof.
  unfold split. rewrite chars_append, split_chars_app, fmap_app, removelast_fmap.
  f_equal. f_equal. rewrite chars_append. f_equal.
  change "" with (string_of_list_ascii []).
  rewrite last_fmap, list_ascii_of_string_of_list_ascii. reflexivity.
Qed.

Lemma split_oneLine (s : string) : oneLine s → split newline s = [s].
Proof.
  intros Hs. unfold split. rewrite (split_chars_no_sep _ _ Hs). simpl.
  rewrite string_of_list_ascii_of_string. reflexivity.
Qed.

Lemma split_last_oneLine (s : string) : oneLine (List.last (split newline s) "").
Proof.
  unfold split, oneLine. change "" with (string_of_list_ascii []).
  rewrite last_fmap, list_ascii_of_string_of_list_ascii.
  apply (Forall_last (fun piece => newline ∉ piece));
    [apply split_chars_pieces | apply not_elem_of_nil].
Qed.

End SplitSpec.

(** ** The streaming format parser *)

Module SCOFSpec.
Import PhaseImplementation SCOF SplitSpec.

Section Parser.
Context `{MarkerGrammar}.

Lemma withBuffer_withBuffer (b b' : string) (st : ParsingState) :
  withBuffer b' (withBuffer b st) = withBuffer b' st.
Proof. reflexivity. Qed.

Lemma withBuffer_buffer (st : ParsingState) : withBuffer (buffer st) st = st.
Proof. destruct st; reflexivity. Qed.

(** *** Lines are processed without a look at the buffer *)

Lemma processLine_withBuffer (b : string) (st : ParsingState) (line : string) :
  processLine (withBuffer b st) line =
  (withBuffer b (processLine st line).1, (processLine st line).2).
Proof.
  destruct st as [buf cur pend incmd done cmds]. unfold processLine, withBuffer. simpl.
  repeat match goal with
         | |- context [match ?x with _ => _ end] => destruct x
         | |- context [if ?x then _ else _] => destruct x
         end; reflexivity.
Qed.

Lemma processLines_withBuffer (b : string) (lines : list string) (st : ParsingState) :
  processLines (withBuffer b st) lines =
  (withBuffer b (processLines st lines).1, (processLines st lines).2).
Proof.
  revert st. induction lines as [|line rest IH]; intros st; [reflexivity|].
  simpl. rewrite processLine_withBuffer.
  destruct (processLine st line) as [st1 events1]. simpl. rewrite IH.
  destruct (processLines st1 rest) as [st2 events2]. reflexivity.
Qed.

Lemma processLines_app (lines1 lines2 : list string) (st : ParsingState) :
  processLines st (lines1 ++ lines2) =
  (let '(st1, events1) := processLines st lines1 in
   let '(st2, events2) := processLines st1 lines2 in
   (st2, events1 ++ events2)).
Proof.
  revert st. induction lines1 as [|line rest IH]; intros st.
  - simpl. destruct (processLines st lines2). reflexivity.
  - simpl. destruct (processLine st line) as [st1 events1]. rewrite IH.
    destruct (processLines st1 rest) as [st2 events2].
    destruct (processLines st2 lines2) as [st3 events3].
    rewrite app_assoc. reflexivity.
Qed.

(** *** A chunk cut in two *)

Lemma split_nonempty (s : string) : split newline s ≠ [].
Proof.
  unfold split. intros Hnil. apply fmap_nil_inv in Hnil.
  exact (split_chars_nonempty _ _ Hnil).
Qed.

Lemma last_app_nonempty {A : Type} (l l' : list A) (d : A) :
  l' ≠ [] → List.last (l ++ l') d = List.last l' d.
Proof.
  intros Hl'. induction l as [|a l IH]; [reflexivity|].
  change (List.last (a :: (l ++ l')) d = List.last l' d).
  destruct (l ++ l') as [|b r] eqn:Happ.
  - apply app_eq_nil in Happ as [_ ->]. contradiction.
  - exact IH.
Qed.

Lemma parseChunk_append (chunk1 chunk2 : string) (st : ParsingState) :
  parseChunk (chunk1 +:+ chunk2) st =
  (let '(st1, events1) := parseChunk chunk1 st in
   let '(st2, events2) := parseChunk chunk2 st1 in
   (st2, events1 ++ events2)).
Proof.
  unfold parseChunk. rewrite <- append_assoc, split_append.
  set (pieces1 := split newline (buffer st +:+ chunk1)).
  set (pieces2 := split newline (List.last pieces1 "" +:+ chunk2)).
  assert (Hne : pieces2 ≠ []) by apply split_nonempty.
  rewrite (removelast_app (removelast pieces1) Hne), last_app_nonempty by exact Hne.
  rewrite processLines_app.
  destruct (processLines st (removelast pieces1)) as [st1 events1].
  change (buffer (withBuffer (List.last pieces1 "") st1)) with (List.last pieces1 "").
  fold pieces2. rewrite processLines_withBuffer.
  destruct (processLines st1 (removelast pieces2)) as [st2 events2]. reflexivity.
Qed.

Lemma parseChunk_empty (st : ParsingState) :
  oneLine (buffer st) → parseChunk "" st = (st, []).
Proof.
  intros Hb. unfold parseChunk. rewrite append_empty_r, (split_oneLine _ Hb). simpl.
  rewrite withBuffer_buffer. reflexivity.
Qed.

Lemma parseChunk_oneLine (chunk : string) (st : ParsingState) :
  oneLine (buffer (parseChunk chunk st).1).
Proof.
  unfold parseChunk. destruct (processLines st _) as [st' events]. simpl.
  apply split_last_oneLine.
Qed.

(** Feeding the chunks one by one is feeding their concatenation at once. *)
Lemma parseChunks_total (chunks : list string) (st : ParsingState) :
  oneLine (buffer st) →
  parseChunks chunks st = parseChunk (totalInput chunks) st.
Proof.
  revert st. induction chunks as [|chunk rest IH]; intros st Hb.
  - simpl. rewrite (parseChunk_empty st Hb). reflexivity.
  - simpl. rewrite parseChunk_append.
    pose proof (parseChunk_oneLine chunk st) as Hb1.
    destruct (parseChunk chunk st) as [st1 events1]. simpl in Hb1.
    rewrite (IH st1 Hb1). reflexivity.
Qed.

Lemma freshParsingState_oneLine : oneLine (buffer freshParsingState).
Proof. apply not_elem_of_nil. Qed.

(** C5: whatever the marker grammar, two sequences of chunks with the same
    total input, fed to a fresh parsing state, give the same sequence of
    file-open, content-chunk and file-close callbacks and the same final
    completed-files map (and the same final state altogether); the cuts may
    fall anywhere, inside a marker line too. *)
Theorem chunk_boundary_invariance (chunks1 chunks2 : list string) :
  totalInput chunks1 = totalInput chunks2 →
  callbackEvents (parseChunks chunks1 freshParsingState).2 =
    callbackEvents (parseChunks chunks2 freshParsingState).2 ∧
  completed (parseChunks chunks1 freshParsingState).1 =
    completed (parseChunks chunks2 freshParsingState).1 ∧
  parseChunks chunks1 freshParsingState = parseChunks chunks2 freshParsingState.
Proof.
  intros Htotal.
  assert (Heq : parseChunks chunks1 freshParsingState =
                parseChunks chunks2 freshParsingState).
  { rewrite !parseChunks_total by exact freshParsingState_oneLine.
    rewrite Htotal. reflexivity. }
  rewrite Heq. auto.
Qed.

(** *** A file in full content, from its open marker to its close marker *)



Lemma unlines_app (lines1 lines2 : list string) :
  unlines (lines1 ++ lines2) = unlines lines1 +:+ unlines lines2.
Proof.
  induction lines1 as [|line rest IH]; [reflexivity|].
  simpl. rewrite IH, append_assoc. reflexivity.
Qed.

Lemma forwardedText_app (events1 events2 : list ParserEvent) :
  forwardedText (events1 ++ events2) = forwardedText events1 +:+ forwardedText events2.
Proof.
  induction events1 as [|e rest IH]; [reflexivity|].
  simpl. rewrite IH. destruct e; try reflexivity. rewrite append_assoc. reflexivity.
Qed.






End Parser.

End SCOFSpec.

(** ** The content reconciler *)

Module FileProcessingSpec.
Import PhaseImplementation SplitSpec.

(** *** The trailing newline *)




(** *** Finding the removed block *)






Example diff_applies :
  FileProcessing.processGeneratedFileContents
    (mkFile "notes.txt"
       (SCOF.unlines ["@@ -2,1 +2,1 @@"; "-line2"; "+lineX"]) "" unified_diff)
    (join newline ["line1"; "line2"; "line3"])
  = ([], Returned (join newline ["line1"; "lineX"; "line3"])).
Proof. vm_compute. reflexivity. Qed.

End FileProcessingSpec.

(** ** From the stream to the processed file *)

Module ReconciliationSpec.
Import PhaseImplementation SCOF SplitSpec SCOFSpec FileProcessingSpec PhaseImplementationSpec.

Section Reconciliation.
Context `{MarkerGrammar} `{Collaborators}.
Variable inputs : PhaseImplementationInputs.
Variable options : OperationOptions.

(** The operation runs with the reconciler of the specification. *)
Hypothesis reconciler :
  processGeneratedFileContents = FileProcessing.processGeneratedFileContents.





End Reconciliation.

Section Examples.
Import Sample.
#[local] Existing Instance sampleCollaborators.
#[local] Existing Instance sampleGrammar.

Example cutChunks_events :
  (parseChunks cutChunks freshParsingState).2 =
    [ FileOpened "core/views.py";
      ContentChunk "core/views.py" ("import os" +:+ String newline "") full_content;
      ContentChunk "core/views.py" (String newline "") full_content;
      ContentChunk "core/views.py" ("pass" +:+ String newline "") full_content;
      FileClosed "core/views.py" ] ∧
  installCommands (parseChunks cutChunks freshParsingState).1 =
    [ "pip install django-htmx"; "pip install django-htmx" ].
Proof. split; vm_compute; reflexivity. Qed.

Lemma chunk_boundary_invariance_witness :
  totalInput wholeChunks = totalInput cutChunks ∧
  parseChunks wholeChunks freshParsingState = parseChunks cutChunks freshParsingState.
Proof.
  assert (Htotal : totalInput wholeChunks = totalInput cutChunks)
    by (vm_compute; reflexivity).
  split; [exact Htotal|].
  apply (chunk_boundary_invariance wholeChunks cutChunks Htotal).
Defined.




End Examples.

End ReconciliationSpec.

(** ** [replaceAll] and the replacement patterns *)

Module JsStringSpec.
Import JsString SplitSpec.

Lemma ofChars_app (x y : list ascii) : ofChars (x ++ y) = ofChars x +:+ ofChars y.
Proof. induction x as [|c x IH]; [reflexivity|]. simpl. rewrite IH. reflexivity. Qed.

Lemma ofChars_chars (s : string) : ofChars (chars s) = s.
Proof. apply string_of_list_ascii_of_string. Qed.

Lemma chars_ofChars (l : list ascii) : chars (ofChars l) = l.
Proof. apply list_ascii_of_string_of_list_ascii. Qed.

Lemma chars_inj (s t : string) : chars s = chars t → s = t.
Proof. intros Heq. rewrite <- (ofChars_chars s), <- (ofChars_chars t), Heq. reflexivity. Qed.

(** *** Matches *)

Lemma startsWith_spec (p s : list ascii) :
  startsWith p s = true ↔ ∃ t, s = p ++ t.
Proof.
  revert s. induction p as [|a p IH]; intros s.
  - simpl. split; [intros _; exists s; reflexivity | reflexivity].
  - destruct s as [|b s]; simpl.
    + split; [discriminate | intros [t Ht]; discriminate Ht].
    + rewrite andb_true_iff, bool_decide_eq_true, IH. split.
      * intros [-> [t ->]]. exists t. reflexivity.
      * intros [t [= -> ->]]. split; [reflexivity | exists t; reflexivity].
Qed.

Lemma startsWith_app (p s : list ascii) : startsWith p (p ++ s) = true.
Proof. apply startsWith_spec. exists s. reflexivity. Qed.

Lemma startsWith_prefix (p q s : list ascii) :
  startsWith (p ++ q) s = true → startsWith p s = true.
Proof.
  rewrite !startsWith_spec. intros [t ->]. exists (q ++ t). rewrite app_assoc. reflexivity.
Qed.

Lemma includesChars_spec (s p : list ascii) :
  includesChars s p = true ↔ ∃ i, matchesAt p s i.
Proof.
  unfold matchesAt. induction s as [|c s IH].
  - simpl. rewrite orb_false_r. split.
    + intros Hp. exists 0. split; [reflexivity | exact Hp].
    + intros [i [Hi Hp]]. rewrite drop_nil in Hp. exact Hp.
  - simpl includesChars. rewrite orb_true_iff, IH. split.
    + intros [Hp | [i [Hi Hp]]].
      * exists 0. split; [simpl; lia | exact Hp].
      * exists (S i). split; [simpl; lia | exact Hp].
    + intros [[|i] [Hi Hp]].
      * left. exact Hp.
      * right. exists i. split; [simpl in Hi; lia | exact Hp].
Qed.

Lemma includesChars_false (s p : list ascii) :
  includesChars s p = false ↔ ∀ i, ¬ matchesAt p s i.
Proof.
  rewrite <- not_true_iff_false, includesChars_spec. split.
  - intros Hno i Hi. apply Hno. exists i. exact Hi.
  - intros Hno [i Hi]. exact (Hno i Hi).
Qed.

Lemma includesChars_prefix (s p q : list ascii) :
  includesChars s (p ++ q) = true → includesChars s p = true.
Proof.
  rewrite !includesChars_spec. intros [i [Hi Hp]]. exists i.
  split; [exact Hi | eapply startsWith_prefix; exact Hp].
Qed.

(** *** The replacement text *)

Lemma getSubstitution_plain (matched before after template : list ascii) :
  dollar ∉ template → getSubstitution matched before after template = template.
Proof.
  induction template as [|c t IH]; [reflexivity|]. intros Hnot.
  apply not_elem_of_cons in Hnot as [Hc Ht]. simpl.
  rewrite bool_decide_eq_false_2 by (intros ->; contradiction).
  rewrite (IH Ht). reflexivity.
Qed.

(** *** The scan *)

Lemma replaceAllFrom_nil (p r before : list ascii) :
  p ≠ [] → replaceAllFrom p r 0 before [] = [].
Proof. destruct p; [contradiction | reflexivity]. Qed.

Lemma replaceAllFrom_skip (p r x : list ascii) :
  ∀ before rest,
    replaceAllFrom p r (length x) before (x ++ rest)
    = replaceAllFrom p r 0 (before ++ x) rest.
Proof.
  induction x as [|c x IH]; intros before rest.
  - rewrite app_nil_r. reflexivity.
  - simpl. rewrite IH, <- app_assoc. reflexivity.
Qed.

Lemma replaceAllFrom_copy (p r G : list ascii) :
  ∀ before rest,
    (∀ i, i < length G → startsWith p (drop i (G ++ rest)) = false) →
    replaceAllFrom p r 0 before (G ++ rest)
    = G ++ replaceAllFrom p r 0 (before ++ G) rest.
Proof.
  induction G as [|c G IH]; intros before rest Hno.
  - rewrite app_nil_r. reflexivity.
  - pose proof (Hno 0 ltac:(simpl; lia)) as Hhere. rewrite drop_0 in Hhere.
    change ((c :: G) ++ rest) with (c :: (G ++ rest)) in *.
    simpl replaceAllFrom. rewrite Hhere.
    rewrite IH, <- app_assoc; [reflexivity|].
    intros i Hi. apply (Hno (S i)). simpl. lia.
Qed.

Lemma replaceAllFrom_match (a : ascii) (q r : list ascii) :
  ∀ before rest,
    replaceAllFrom (a :: q) r 0 before ((a :: q) ++ rest)
    = getSubstitution (a :: q) before rest r
        ++ replaceAllFrom (a :: q) r 0 (before ++ a :: q) rest.
Proof.
  intros before rest.
  pose proof (startsWith_app (a :: q) rest) as Hstart.
  change ((a :: q) ++ rest) with (a :: (q ++ rest)) in *.
  simpl replaceAllFrom. simpl in Hstart. rewrite Hstart.
  rewrite drop_app_length, replaceAllFrom_skip, <- app_assoc. reflexivity.
Qed.

(** A text that does not include the search string is returned as it is. *)
Lemma replaceAllFrom_absent (p r s : list ascii) :
  ∀ before, includesChars s p = false → replaceAllFrom p r 0 before s = s.
Proof.
  induction s as [|c s IH]; intros before Hno.
  - simpl in Hno. rewrite orb_false_r in Hno. destruct p; [discriminate | reflexivity].
  - simpl includesChars in Hno. apply orb_false_iff in Hno as [Hhere Hrest].
    simpl replaceAllFrom. rewrite Hhere, (IH _ Hrest). reflexivity.
Qed.

Lemma replaceAll_absent (s p r : string) :
  includes s p = false → replaceAll s p r = s.
Proof.
  intros Hno. unfold replaceAll. rewrite (replaceAllFrom_absent _ _ _ _ Hno).
  apply ofChars_chars.
Qed.

(** The one match of a text: what stands before and after it is kept, the
    match becomes the replacement text. *)
Lemma replaceAllFrom_one (a : ascii) (q r x y : list ascii) :
  (∀ i, matchesAt (a :: q) (x ++ (a :: q) ++ y) i → i = length x) →
  replaceAllFrom (a :: q) r 0 [] (x ++ (a :: q) ++ y)
  = x ++ getSubstitution (a :: q) x y r ++ y.
Proof.
  intros Honly.
  rewrite replaceAllFrom_copy.
  - rewrite replaceAllFrom_match, replaceAllFrom_absent; [reflexivity|].
    apply includesChars_false. intros j [Hj Hm].
    assert (Hat : matchesAt (a :: q) (x ++ (a :: q) ++ y) (length x + length (a :: q) + j)).
    { split.
      - rewrite !length_app. lia.
      - rewrite app_assoc, drop_app_ge by (rewrite length_app; lia).
        rewrite length_app.
        replace (length x + length (a :: q) + j - (length x + length (a :: q))) with j by lia.
        exact Hm. }
    apply Honly in Hat. simpl in Hat. lia.
  - intros i Hi. apply not_true_iff_false. intros Hm.
    assert (Hat : matchesAt (a :: q) (x ++ (a :: q) ++ y) i).
    { split; [rewrite length_app; lia | exact Hm]. }
    apply Honly in Hat. lia.
Qed.

(** With [$&] as the replace value every match is replaced by itself. *)
Lemma replaceAllFrom_self (p : list ascii) (rest : list ascii) :
  ∀ skip before,
    skip ≤ length rest →
    replaceAllFrom p [dollar; "&"%char] skip before rest = drop skip rest.
Proof.
  induction rest as [|c t IH]; intros skip before Hskip.
  - simpl in Hskip. assert (skip = 0) as -> by lia. destruct p; reflexivity.
  - destruct skip as [|k].
    + simpl replaceAllFrom.
      destruct (startsWith p (c :: t)) eqn:Hstart.
      * change (getSubstitution p before (drop (length p) (c :: t)) [dollar; "&"%char])
          with (p ++ []).
        rewrite app_nil_r.
        apply startsWith_spec in Hstart as [rest' Hrest'].
        destruct p as [|a q].
        -- rewrite IH by lia. reflexivity.
        -- simpl in Hrest'. injection Hrest' as -> ->.
           rewrite IH by (rewrite length_app; lia).
           rewrite drop_app_length. reflexivity.
      * rewrite IH by lia. reflexivity.
    + simpl. apply IH. simpl in Hskip. lia.
Qed.

End JsStringSpec.

(** ** worker/agents/prompts.ts, the other utilities *)

Module PromptUtilsSpec.
Import JsString PromptUtils SplitSpec JsStringSpec.

Lemma chars_placeholder (key : string) :
  chars (placeholder key) = chars "{{" ++ chars key ++ chars "}}".
Proof. unfold placeholder. rewrite !chars_append. reflexivity. Qed.

Lemma placeholder_cons (key : string) :
  ∃ q, chars (placeholder key) = "{"%char :: q.
Proof. rewrite chars_placeholder. eexists. reflexivity. Qed.

Lemma includes_placeholder (template key : string) :
  includes template "{{" = false → includes template (placeholder key) = false.
Proof.
  unfold includes. intros Hno. apply not_true_iff_false. intros Hyes.
  rewrite chars_placeholder in Hyes. apply includesChars_prefix in Hyes. congruence.
Qed.

Lemma replaceTemplateVariables_cons (template : string) (entry : string * option string)
    (variables : list (string * option string)) :
  replaceTemplateVariables template (entry :: variables)
  = replaceTemplateVariables
      (replaceAll template (placeholder entry.1) (default "" entry.2)) variables.
Proof. reflexivity. Qed.

Lemma replaceTemplateVariables_no_braces (template : string)
    (variables : list (string * option string)) :
  includes template "{{" = false →
  replaceTemplateVariables template variables = template.
Proof.
  intros Hno. induction variables as [|entry rest IH]; [reflexivity|].
  rewrite replaceTemplateVariables_cons, replaceAll_absent; [exact IH|].
  apply includes_placeholder. exact Hno.
Qed.

(** The placeholder occurs at one place only, as a check that can be run. *)
Lemma matchesAt_only (p s : list ascii) (n : nat) :
  forallb (fun i => implb (startsWith p (drop i s)) (bool_decide (i = n)))
    (seq 0 (S (length s))) = true →
  ∀ i, matchesAt p s i → i = n.
Proof.
  intros Hall i [Hi Hm]. rewrite forallb_forall in Hall.
  assert (Hin : In i (seq 0 (S (length s)))) by (apply in_seq; lia).
  specialize (Hall i Hin). rewrite Hm in Hall. simpl in Hall.
  apply bool_decide_eq_true in Hall. exact Hall.
Qed.

(** X1: [replaceTemplateVariables] returns the template as it is when none
    of the placeholders of the variables occurs in it, whatever the values
    of the variables are. *)
Theorem replaceTemplateVariables_no_placeholder (template : string)
    (variables : list (string * option string)) :
  Forall (fun entry => includes template (placeholder entry.1) = false) variables →
  replaceTemplateVariables template variables = template.
Proof.
  induction 1 as [|entry rest Hentry _ IH]; [reflexivity|].
  rewrite replaceTemplateVariables_cons, (replaceAll_absent _ _ _ Hentry). exact IH.
Qed.

Lemma replaceTemplateVariables_no_placeholder_witness :
  replaceTemplateVariables "Hello {{name}}, {{ query }}"
    [("query", Some "$'x"); ("names", None)]
  = "Hello {{name}}, {{ query }}".
Proof.
  apply replaceTemplateVariables_no_placeholder.
  repeat constructor.
Defined.

(** X2: in a template where the placeholder of a variable occurs once, the
    text before and after the placeholder is kept and the placeholder is
    replaced by the replacement text computed from the value: the value
    itself when it holds no dollar sign (and nothing when the value is
    [undefined]). *)
Theorem replaceTemplateVariables_fill (x y key : string) (value : option string) :
  (∀ i, matchesAt (chars (placeholder key)) (chars (x +:+ placeholder key +:+ y)) i →
        i = length (chars x)) →
  replaceTemplateVariables (x +:+ placeholder key +:+ y) [(key, value)]
    = x +:+ ofChars (getSubstitution (chars (placeholder key)) (chars x) (chars y)
                       (chars (default "" value))) +:+ y ∧
  (dollar ∉ chars (default "" value) →
   replaceTemplateVariables (x +:+ placeholder key +:+ y) [(key, value)]
     = x +:+ default "" value +:+ y).
Proof.
  intros Honly.
  assert (Hfill :
    replaceTemplateVariables (x +:+ placeholder key +:+ y) [(key, value)]
    = x +:+ ofChars (getSubstitution (chars (placeholder key)) (chars x) (chars y)
                       (chars (default "" value))) +:+ y).
  { rewrite replaceTemplateVariables_cons. unfold replaceTemplateVariables, replaceAll.
    cbn [foldl fst snd].
    rewrite !chars_append in *.
    destruct (placeholder_cons key) as [q Hq]. rewrite Hq in *.
    rewrite (replaceAllFrom_one _ _ _ _ _ Honly), !ofChars_app, !ofChars_chars.
    reflexivity. }
  split; [exact Hfill|].
  intros Hplain. rewrite Hfill, (getSubstitution_plain _ _ _ _ Hplain), ofChars_chars.
  reflexivity.
Qed.

Lemma replaceTemplateVariables_fill_witness :
  replaceTemplateVariables ("Hello " +:+ placeholder "name" +:+ "!") [("name", Some "World")]
  = "Hello World!".
Proof.
  refine (proj2 (replaceTemplateVariables_fill "Hello " "!" "name" (Some "World") _) _).
  - apply matchesAt_only. vm_compute. reflexivity.
  - vm_compute. intros Hin. repeat (apply elem_of_cons in Hin as [Hin|Hin]; [discriminate|]).
    apply elem_of_nil in Hin. exact Hin.
Defined.

(** X3: a value is not always inserted as it is: with [$&] as the value of
    every variable, each placeholder is replaced by itself and the template
    comes back unchanged. *)
Theorem replaceTemplateVariables_dollar_ampersand (template : string) (keys : list string) :
  replaceTemplateVariables template ((fun key => (key, Some "$&")) <$> keys) = template.
Proof.
  induction keys as [|key rest IH]; [reflexivity|].
  rewrite fmap_cons, replaceTemplateVariables_cons. simpl.
  unfold replaceAll.
  change (chars "$&") with [dollar; "&"%char].
  rewrite replaceAllFrom_self by lia. rewrite drop_0, ofChars_chars. exact IH.
Qed.

(** *** The length of the serialized errors *)

Lemma sliceTo_length (n : nat) (s : string) : length (chars (sliceTo n s)) ≤ n.
Proof. unfold sliceTo. rewrite chars_ofChars, length_take. lia. Qed.

Lemma joinWith_length (sep : string) (piece : string) (pieces : list string) (n : nat) :
  Forall (fun piece => length (chars piece) ≤ n) (piece :: pieces) →
  length (chars (joinWith sep (piece :: pieces)))
  ≤ n + (length (chars sep) + n) * length pieces.
Proof.
  revert piece. induction pieces as [|piece2 rest IH]; intros piece Hall.
  - inversion Hall; subst. simpl. lia.
  - inversion Hall as [|? ? Hpiece Hrest]; subst.
    specialize (IH piece2 Hrest).
    change (joinWith sep (piece :: piece2 :: rest))
      with (piece +:+ sep +:+ joinWith sep (piece2 :: rest)).
    rewrite !chars_append, !length_app, length_cons, Nat.mul_succ_r. lia.
Qed.

(** X4: [serializeErrors] gives ['N/A'] for a missing or empty list; for [n]
    errors it gives at most 1000 characters of each error and two newlines
    between them, at most [1002 * n - 2] characters in all, whatever the
    raw outputs and the serializer are. *)
Theorem serializeErrors_bounded (serializeRuntimeError : RuntimeError → string) :
  serializeErrors serializeRuntimeError None = "N/A" ∧
  serializeErrors serializeRuntimeError (Some []) = "N/A" ∧
  ∀ (e : RuntimeError) (rest : list RuntimeError),
    length (chars (serializeErrors serializeRuntimeError (Some (e :: rest))))
    ≤ 1002 * length (e :: rest) - 2.
Proof.
  split; [reflexivity|]. split; [reflexivity|]. intros e rest.
  unfold serializeErrors. rewrite fmap_cons.
  etransitivity.
  - apply (joinWith_length _ _ _ 1000). constructor; [apply sliceTo_length|].
    apply Forall_fmap, Forall_forall. intros e' _. apply sliceTo_length.
  - rewrite length_fmap, length_cons. change (length (chars _)) with 2. lia.
Qed.

End PromptUtilsSpec.

(** ** The DigitalOcean deployment helper, the user data *)

Module UserDataSpec.
Import JsString DigitalOcean SplitSpec JsStringSpec DigitalOceanSpec.

(** *** Names that are kept *)

Lemma nameChar_inNameClass (c : ascii) : nameChar c → inNameClass c = true.
Proof.
  unfold nameChar, inNameClass, isLower, isDigit. intros [Hc | [Hc | ->]].
  - destruct Hc as [H1 H2]. apply Nat.leb_le in H1, H2. rewrite H1, H2. reflexivity.
  - destruct Hc as [H1 H2]. apply Nat.leb_le in H1, H2. rewrite H1, H2.
    apply orb_true_iff. left. apply orb_true_r.
  - apply orb_true_r.
Qed.

Lemma replaceDisallowed_id (s : list ascii) :
  Forall nameChar s → replaceDisallowed s = s.
Proof.
  induction 1 as [|c s Hc _ IH]; [reflexivity|].
  unfold replaceDisallowed in *. rewrite fmap_cons, IH, (nameChar_inNameClass c Hc).
  reflexivity.
Qed.

Lemma collapseHyphens_id (s : list ascii) :
  noDoubleHyphen s → collapseHyphens s = s.
Proof.
  induction s as [|c s IH]; [reflexivity|]. intros Hnd.
  destruct s as [|d s].
  - simpl. destruct (isHyphen c); reflexivity.
  - destruct Hnd as [Hcd Hnd]. specialize (IH Hnd).
    change (collapseHyphens (c :: d :: s))
      with (if isHyphen c
            then if isHyphen d then collapseHyphens (d :: s)
                 else c :: collapseHyphens (d :: s)
            else c :: collapseHyphens (d :: s)).
    rewrite IH.
    destruct (isHyphen c) eqn:Hc; [|reflexivity].
    destruct (isHyphen d) eqn:Hd; [|reflexivity].
    exfalso. apply Hcd. split; apply isHyphen_true; assumption.
Qed.

Lemma stripLeadingHyphen_id (s : list ascii) :
  head s ≠ Some hyphen → stripLeadingHyphen s = s.
Proof.
  destruct s as [|c s]; [reflexivity|]. simpl. intros Hc.
  destruct (isHyphen c) eqn:Hh; [|reflexivity].
  apply isHyphen_true in Hh. subst c. contradiction.
Qed.

Lemma stripTrailingHyphen_id (s : list ascii) :
  last s ≠ Some hyphen → stripTrailingHyphen s = s.
Proof.
  induction s as [|c s IH]; [reflexivity|]. intros Hl.
  destruct s as [|d s].
  - simpl in *. destruct (isHyphen c) eqn:Hh; [|reflexivity].
    apply isHyphen_true in Hh. subst c. contradiction.
  - change (stripTrailingHyphen (c :: d :: s)) with (c :: stripTrailingHyphen (d :: s)).
    rewrite IH; [reflexivity|]. exact Hl.
Qed.

(** X5: [safeName] keeps a name that is well formed already: a name that
    is not empty, is made of lowercase ASCII letters, digits and hyphens, has
    no two hyphens in a row and no hyphen at either end, and that
    [toLowerCase] leaves as it is, comes back unchanged. *)
Theorem safeName_keeps_wellformed (toLowerCase : string → string) (appName : string) :
  let name := chars appName in
  name ≠ [] →
  Forall nameChar name →
  noDoubleHyphen name →
  head name ≠ Some hyphen →
  last name ≠ Some hyphen →
  toLowerCase appName = appName →
  safeName toLowerCase appName = appName.
Proof.
  intros name Hne Hchars Hnd Hhead Hlast Hlower.
  assert (Hs : sanitizeName toLowerCase appName = appName).
  { unfold sanitizeName, stripEdgeHyphens. rewrite Hlower.
    fold name. rewrite (replaceDisallowed_id _ Hchars), (collapseHyphens_id _ Hnd),
      (stripLeadingHyphen_id _ Hhead), (stripTrailingHyphen_id _ Hlast).
    apply ofChars_chars. }
  unfold safeName. rewrite Hs.
  destruct (decide (appName = "")) as [->|_]; [|reflexivity].
  contradiction Hne. reflexivity.
Qed.

Lemma safeName_keeps_wellformed_witness :
  safeName asciiToLowerCase "my-cool-app2" = "my-cool-app2".
Proof.
  apply safeName_keeps_wellformed.
  - discriminate.
  - eapply Forall_impl; [|exact inNameClass_nameChar].
    repeat (constructor; [reflexivity|]). constructor.
  - repeat split; intros [H1 H2]; discriminate.
  - discriminate.
  - discriminate.
  - reflexivity.
Defined.

(** *** The summary, character by character *)

Lemma replaceAllChar_append (c : ascii) (by_ x y : string) :
  replaceAllChar c by_ (x +:+ y) = replaceAllChar c by_ x +:+ replaceAllChar c by_ y.
Proof.
  induction x as [|d x IH]; [reflexivity|].
  rewrite append_cons. simpl. rewrite IH.
  destruct (decide (d = c)); [rewrite append_assoc|]; reflexivity.
Qed.

Lemma replaceAllChar_cons (c d : ascii) (by_ s : string) :
  replaceAllChar c by_ (String d s)
  = (if decide (d = c) then by_ else String d "") +:+ replaceAllChar c by_ s.
Proof. simpl. destruct (decide (d = c)); reflexivity. Qed.

Lemma escape_cons (c : ascii) (s : list ascii) :
  escape (c :: s) = escapeChar c ++ escape s.
Proof. reflexivity. Qed.

Lemma safeSummary_escape (s : string) :
  chars (replaceAllChar "`" (String backslash "`")
           (replaceAllChar ">" "&gt;"
              (replaceAllChar "<" "&lt;" (replaceAllChar "&" "&amp;" s))))
  = escape (chars s).
Proof.
  induction s as [|c s IH]; [reflexivity|].
  change (chars (String c s)) with (c :: chars s).
  rewrite escape_cons, <- IH, (replaceAllChar_cons "&"), !replaceAllChar_append, chars_append.
  f_equal. unfold escapeChar.
  destruct (decide (c = "&"%char)) as [->|Hamp]; [reflexivity|].
  rewrite (bool_decide_eq_false_2 _ Hamp).
  destruct (decide (c = "<"%char)) as [->|Hlt]; [reflexivity|].
  rewrite (bool_decide_eq_false_2 _ Hlt).
  destruct (decide (c = ">"%char)) as [->|Hgt]; [reflexivity|].
  rewrite (bool_decide_eq_false_2 _ Hgt).
  destruct (decide (c = "`"%char)) as [->|Htick]; [reflexivity|].
  rewrite (bool_decide_eq_false_2 _ Htick).
  repeat (simpl; destruct (decide _) as [?|?]; [contradiction|]). reflexivity.
Qed.

Lemma escapeChar_no_markup (c : ascii) :
  ("<"%char ∉ escapeChar c) ∧ (">"%char ∉ escapeChar c).
Proof.
  unfold escapeChar.
  repeat (case_bool_decide;
          [split; intros Hin; repeat (apply elem_of_cons in Hin as [Hin|Hin]; [discriminate|]);
           apply elem_of_nil in Hin; exact Hin|]).
  split; intros Hin; apply list_elem_of_singleton in Hin; congruence.
Qed.

(** X6: the four replacements of [safeSummary], in the order the code has
    them, amount to one pass that replaces every [&], [<], [>] and backtick
    of the summary by [&amp;], [&lt;], [&gt;] and a backslash with the
    backtick: no text brought in by an earlier replacement is changed by a
    later one. The result holds neither [<] nor [>]. *)
Theorem safeSummary_escapes (summary : option string) :
  chars (safeSummary summary)
  = escape (chars (default "Generated application deployed by Vibe" summary)) ∧
  ("<"%char ∉ chars (safeSummary summary)) ∧
  (">"%char ∉ chars (safeSummary summary)).
Proof.
  unfold safeSummary. rewrite safeSummary_escape.
  split; [reflexivity|].
  induction (chars (default _ summary)) as [|c s [IH1 IH2]].
  - split; apply not_elem_of_nil.
  - rewrite escape_cons. destruct (escapeChar_no_markup c) as [H1 H2].
    split; rewrite elem_of_app; tauto.
Qed.

(** *** The lines of the page *)

Lemma split_chars_sep (sep : ascii) (x y : list ascii) :
  split_chars sep (x ++ sep :: y) = split_chars sep x ++ split_chars sep y.
Proof.
  induction x as [|c x IH].
  - simpl. destruct (decide (sep = sep)); [reflexivity|contradiction].
  - destruct (decide (c = sep)) as [->|Hc].
    + simpl. destruct (decide (sep = sep)); [|contradiction]. rewrite IH. reflexivity.
    + destruct (split_chars_cons_other sep c x Hc) as (piece & pieces & Hx & Hcx).
      destruct (split_chars_cons_other sep c (x ++ sep :: y) Hc)
        as (piece' & pieces' & Hxy & Hcxy).
      change ((c :: x) ++ sep :: y) with (c :: (x ++ sep :: y)).
      rewrite Hcxy, Hcx. rewrite IH, Hx in Hxy. injection Hxy as <- <-. reflexivity.
Qed.

Lemma split_chars_prefix (sep : ascii) (a s : list ascii) :
  sep ∉ a →
  split_chars sep (a ++ s)
  = (a ++ default [] (head (split_chars sep s))) :: tail (split_chars sep s).
Proof.
  induction a as [|c a IH]; intros Ha.
  - rewrite app_nil_l. destruct (split_chars sep s) as [|hd tl] eqn:Hs;
      [contradiction (split_chars_nonempty sep s)|reflexivity].
  - apply not_elem_of_cons in Ha as [Hc Ha].
    destruct (split_chars_cons_other sep c (a ++ s)) as (piece & pieces & Has & Hcas);
      [congruence|].
    change ((c :: a) ++ s) with (c :: (a ++ s)). rewrite Hcas.
    rewrite (IH Ha) in Has. injection Has as <- <-. reflexivity.
Qed.

Lemma split_line (x y : string) :
  split newline (x +:+ String newline y) = split newline x ++ split newline y.
Proof.
  unfold split. rewrite chars_append. 
  change (chars (String newline y)) with (newline :: chars y).
  rewrite split_chars_sep, fmap_app. reflexivity.
Qed.

Lemma escapeChar_newline (c : ascii) :
  (c = newline ∧ escapeChar c = [newline]) ∨ (c ≠ newline ∧ newline ∉ escapeChar c).
Proof.
  destruct (decide (c = newline)) as [->|Hc]; [left; split; reflexivity|].
  right. split; [exact Hc|]. unfold escapeChar.
  repeat (case_bool_decide;
          [intros Hin; repeat (apply elem_of_cons in Hin as [Hin|Hin]; [discriminate|]);
           apply elem_of_nil in Hin; exact Hin|]).
  intros Hin. apply list_elem_of_singleton in Hin. congruence.
Qed.

Lemma split_chars_escape (s : list ascii) :
  split_chars newline (escape s) = escape <$> split_chars newline s.
Proof.
  induction s as [|c s IH]; [reflexivity|].
  rewrite escape_cons.
  destruct (escapeChar_newline c) as [[-> Hc] | [Hc Hno]].
  - rewrite Hc. simpl. rewrite IH. reflexivity.
  - rewrite (split_chars_prefix _ _ _ Hno), IH.
    destruct (split_chars_cons_other newline c s Hc) as (piece & pieces & Hs & Hcs).
    rewrite Hcs, Hs. reflexivity.
Qed.

(** A text without [&] and without a backslash is the escaped form of
    itself only. *)
Lemma escape_plain (s t : list ascii) :
  escape s = t → "&"%char ∉ t → backslash ∉ t → s = t.
Proof.
  revert t. induction s as [|c s IH]; intros t Hst Hamp Hback; [exact Hst|].
  rewrite escape_cons in Hst. subst t.
  assert (Hc : escapeChar c = [c]).
  { unfold escapeChar in *.
    repeat (case_bool_decide;
            [exfalso; first [apply Hamp; left | apply Hback; left]|]).
    reflexivity. }
  rewrite Hc in *. simpl. f_equal. apply IH; [reflexivity|..].
  - intros Hin. apply Hamp. right. exact Hin.
  - intros Hin. apply Hback. right. exact Hin.
Qed.

Lemma escape_marker (s : list ascii) :
  escape s = chars "EOF_HTML" ↔ s = chars "EOF_HTML".
Proof.
  split.
  - intros Hs. apply escape_plain; [exact Hs|..];
      intros Hin; repeat (apply elem_of_cons in Hin as [Hin|Hin]; [discriminate|]);
      apply elem_of_nil in Hin; exact Hin.
  - intros ->. reflexivity.
Qed.

Lemma split_chars_wrapped (a b s : list ascii) :
  newline ∉ a → newline ∉ b →
  split_chars newline (a ++ s ++ b)
  = match tail (split_chars newline s) with
    | [] => [a ++ s ++ b]
    | rest =>
        (a ++ default [] (head (split_chars newline s)))
          :: removelast rest ++ [List.last rest [] ++ b]
    end.
Proof.
  intros Ha Hb. rewrite app_assoc, split_chars_app, (split_chars_prefix _ _ _ Ha).
  pose proof (split_chars_pieces newline s) as Hpieces.
  destruct (split_chars newline s) as [|hd tl] eqn:Hs;
    [contradiction (split_chars_nonempty newline s)|].
  simpl head. simpl tail. simpl default.
  destruct tl as [|l2 tl].
  - assert (s = hd) as ->.
    { destruct (decide (newline ∈ s)) as [Hin|Hno].
      - apply list_elem_of_split in Hin as (x & y & ->).
        rewrite split_chars_sep in Hs.
        apply (f_equal length) in Hs. rewrite length_app in Hs. simpl in Hs.
        pose proof (split_chars_nonempty newline x) as Hx.
        pose proof (split_chars_nonempty newline y) as Hy.
        destruct (split_chars newline x); [contradiction|].
        destruct (split_chars newline y); [contradiction|]. simpl in Hs. lia.
      - rewrite (split_chars_no_sep _ _ Hno) in Hs. congruence. }
    change (removelast [a ++ hd]) with (@nil (list ascii)).
    change (List.last [a ++ hd] []) with (a ++ hd).
    rewrite app_nil_l, split_chars_no_sep, <- app_assoc; [reflexivity|].
    apply Forall_cons in Hpieces as [Hhd _].
    rewrite !elem_of_app. tauto.
  - change (removelast ((a ++ hd) :: l2 :: tl)) with ((a ++ hd) :: removelast (l2 :: tl)).
    change (List.last ((a ++ hd) :: l2 :: tl) []) with (List.last (l2 :: tl) []).
    rewrite split_chars_no_sep; [reflexivity|].
    apply Forall_cons in Hpieces as [_ Htl].
    assert (Hlast : newline ∉ List.last (l2 :: tl) []).
    { apply Forall_last; [exact Htl | apply not_elem_of_nil]. }
    rewrite elem_of_app. tauto.
Qed.

Lemma safeName_chars (toLowerCase : string → string) (appName : string) :
  Forall nameChar (chars (safeName toLowerCase appName)).
Proof.
  unfold safeName. destruct (decide (sanitizeName toLowerCase appName = "")).
  - apply fallback_chars.
  - unfold sanitizeName. rewrite chars_ofChars. apply sanitized_chars.
Qed.

Lemma safeName_oneLine (toLowerCase : string → string) (appName : string) :
  oneLine (safeName toLowerCase appName).
Proof.
  unfold oneLine. intros Hin.
  pose proof (safeName_chars toLowerCase appName) as Hall.
  rewrite Forall_forall in Hall. specialize (Hall _ Hin).
  unfold nameChar in Hall. change (nat_of_ascii newline) with 10 in Hall.
  destruct Hall as [H1 | [H1 | H1]]; [lia | lia | discriminate].
Qed.

Lemma oneLine_append (x y : string) : oneLine x → oneLine y → oneLine (x +:+ y).
Proof. unfold oneLine. rewrite chars_append, elem_of_app. tauto. Qed.

Lemma oneLine_literal (s : string) :
  forallb (fun c => negb (bool_decide (c = newline))) (chars s) = true → oneLine s.
Proof.
  unfold oneLine. intros Hall Hin. rewrite forallb_forall in Hall.
  apply list_elem_of_In, Hall in Hin. rewrite bool_decide_eq_true_2 in Hin by reflexivity.
  discriminate.
Qed.

(** The lines of the page: the lines of the paragraph with the summary,
    between sixteen lines before it and four lines after it. *)
Lemma html_lines (toLowerCase : string → string) (appName : string)
    (summary : option string) :
  ∃ front back,
    split newline (html toLowerCase appName summary)
    = front ++ split newline ("    <p>" +:+ safeSummary summary +:+ "</p>") ++ back ∧
    length front = 16 ∧ length back = 4 ∧
    ("EOF_HTML" ∉ front) ∧ ("EOF_HTML" ∉ back).
Proof.
  pose proof (safeName_oneLine toLowerCase appName) as Hname.
  unfold html. cbn [join]. rewrite !split_line.
  rewrite (split_oneLine ("  <title>" +:+ _));
    [|apply oneLine_append; [|apply oneLine_append]; [| exact Hname |];
      apply oneLine_literal; reflexivity].
  rewrite (split_oneLine ("    <h1>" +:+ _));
    [|apply oneLine_append; [|apply oneLine_append]; [| exact Hname |];
      apply oneLine_literal; reflexivity].
  exists [ "<!DOCTYPE html>";
           "<html lang=" +:+ String dquote ("en" +:+ String dquote ">");
           "<head>";
           "  <meta charset=" +:+ String dquote ("utf-8" +:+ String dquote " />");
           "  <title>" +:+ safeName toLowerCase appName +:+ " deployment</title>";
           "  <style>";
           "    body { font-family: sans-serif; padding: 2rem; background: #0f172a; color: #f8fafc; }";
           "    main { max-width: 720px; margin: 0 auto; }";
           "    h1 { font-size: 2rem; margin-bottom: 1rem; }";
           "    p { line-height: 1.6; }";
           "    code { background: rgba(15, 23, 42, 0.6); padding: 0.25rem 0.5rem; border-radius: 0.375rem; }";
           "  </style>";
           "</head>";
           "<body>";
           "  <main>";
           "    <h1>" +:+ safeName toLowerCase appName +:+ "</h1>" ],
         [ "    <p>Update this droplet by SSHing into it and replacing the contents of <code>/var/www/html</code>.</p>";
           "  </main>";
           "</body>";
           "</html>" ].
  split; [reflexivity|]. split; [reflexivity|]. split; [reflexivity|].
  split; intros Hin;
    repeat (apply elem_of_cons in Hin as [Hin|Hin]; [discriminate|]);
    apply elem_of_nil in Hin; exact Hin.
Qed.

Lemma ofChars_marker (l : list ascii) : ofChars l = "EOF_HTML" ↔ l = chars "EOF_HTML".
Proof.
  split.
  - intros Hl. rewrite <- Hl, chars_ofChars. reflexivity.
  - intros ->. reflexivity.
Qed.

Lemma marker_in_escaped (lines : list (list ascii)) :
  "EOF_HTML" ∈ ofChars <$> (escape <$> lines) ↔ "EOF_HTML" ∈ ofChars <$> lines.
Proof.
  rewrite !list_elem_of_fmap. split.
  - intros (e & He & Hin). apply list_elem_of_fmap in Hin as (l & -> & Hin).
    symmetry in He. apply (proj1 (ofChars_marker _)) in He.
    apply (proj1 (escape_marker _)) in He.
    rewrite He in Hin.
    exists (chars "EOF_HTML"). split; [reflexivity | exact Hin].
  - intros (l & Hl & Hin). symmetry in Hl. apply (proj1 (ofChars_marker _)) in Hl.
    rewrite Hl in Hin.
    exists (escape (chars "EOF_HTML")). split; [reflexivity|].
    apply list_elem_of_fmap. exists (chars "EOF_HTML"). split; [reflexivity | exact Hin].
Qed.

(** X7: the lines of the script are six lines up to the [cat] with the
    here-document, the lines of the page, and then the line [EOF_HTML] and
    the three lines after it. A line [EOF_HTML] stands among the lines of
    the page, before the one that the script writes to end the document,
    exactly when the summary has such a line between its first and its last
    line: neither the name nor a summary of one or two lines can bring one
    in. *)
Theorem heredoc_marker_lines (toLowerCase : string → string) (appName : string)
    (summary : option string) :
  split newline (buildDefaultUserData toLowerCase appName summary)
  = [ "#!/bin/bash"; "set -e"; "export DEBIAN_FRONTEND=noninteractive";
      "apt-get update -y"; "apt-get install -y nginx";
      "cat <<'EOF_HTML' >/var/www/html/index.html" ]
    ++ split newline (html toLowerCase appName summary)
    ++ [ "EOF_HTML"; "systemctl enable nginx"; "systemctl restart nginx"; "" ] ∧
  ("EOF_HTML" ∈ split newline (html toLowerCase appName summary) ↔
   "EOF_HTML" ∈ innerLines (default "Generated application deployed by Vibe" summary)).
Proof.
  split.
  - unfold buildDefaultUserData. cbn [join]. rewrite !split_line. reflexivity.
  - destruct (html_lines toLowerCase appName summary)
      as (front & back & -> & _ & _ & Hfront & Hback).
    rewrite !elem_of_app.
    assert (Hmid :
      "EOF_HTML" ∈ split newline ("    <p>" +:+ safeSummary summary +:+ "</p>") ↔
      "EOF_HTML" ∈ innerLines (default "Generated application deployed by Vibe" summary));
      [|tauto].
    unfold innerLines, split, safeSummary.
    rewrite !chars_append, safeSummary_escape.
    set (text := chars (default "Generated application deployed by Vibe" summary)).
    rewrite split_chars_wrapped, split_chars_escape;
      [| intros Hin; repeat (apply elem_of_cons in Hin as [Hin|Hin]; [discriminate|]);
         apply elem_of_nil in Hin; exact Hin ..].
    destruct (split_chars newline text) as [|hd tl] eqn:Hs;
      [contradiction (split_chars_nonempty newline text)|].
    rewrite !fmap_cons. simpl tail. simpl head. simpl default.
    destruct tl as [|l2 tl].
    + simpl. rewrite list_elem_of_singleton. split; [discriminate|].
      intros Hin. apply elem_of_nil in Hin. contradiction.
    + rewrite (fmap_cons escape l2 tl). cbv iota zeta.
      rewrite <- (fmap_cons escape l2 tl).
      rewrite fmap_cons, fmap_app, elem_of_cons, elem_of_app, !removelast_fmap.
      rewrite marker_in_escaped.
      assert (Hfirst : "EOF_HTML" ≠ ofChars (chars "    <p>" ++ escape hd)) by discriminate.
      assert (Hlast : "EOF_HTML" ∉
                ofChars <$> [List.last (escape <$> l2 :: tl) [] ++ chars "</p>"]).
      { rewrite list_fmap_singleton, list_elem_of_singleton. intros Heq.
        symmetry in Heq. apply (proj1 (ofChars_marker _)) in Heq.
        apply (f_equal (@rev ascii)) in Heq. rewrite rev_app_distr in Heq.
        discriminate. }
      tauto.
Qed.

(** A summary of three lines whose second line is the marker. *)
Example heredoc_cut_short :
  "EOF_HTML" ∈
    split newline
      (html asciiToLowerCase "app"
         (Some ("first" +:+ String newline ("EOF_HTML" +:+ String newline "last")))).
Proof. apply list_elem_of_In. vm_compute. tauto. Qed.

(** *** The summary can be read back *)

Lemma escape_head (s : list ascii) : head (escape s) ≠ Some "`"%char.
Proof.
  destruct s as [|c s]; [discriminate|]. rewrite escape_cons. unfold escapeChar.
  repeat (case_bool_decide; [discriminate|]). simpl. congruence.
Qed.

Lemma unescape_backslash (t : list ascii) :
  head t ≠ Some "`"%char → unescape (backslash :: t) = backslash :: unescape t.
Proof.
  destruct t as [|d t]; [reflexivity|]. intros Hd.
  destruct d as [[] [] [] [] [] [] [] []]; try reflexivity.
  contradiction Hd. reflexivity.
Qed.

Lemma unescape_other (c : ascii) (t : list ascii) :
  c ≠ "&"%char → c ≠ backslash → unescape (c :: t) = c :: unescape t.
Proof.
  intros Hamp Hback. simpl.
  rewrite (bool_decide_eq_false_2 _ Hamp), (bool_decide_eq_false_2 _ Hback). reflexivity.
Qed.

Lemma unescape_escape (s : list ascii) : unescape (escape s) = s.
Proof.
  induction s as [|c s IH]; [reflexivity|].
  rewrite escape_cons. unfold escapeChar.
  case_bool_decide as Hamp; [subst c; simpl; rewrite IH; reflexivity|].
  case_bool_decide as Hlt; [subst c; simpl; rewrite IH; reflexivity|].
  case_bool_decide as Hgt; [subst c; simpl; rewrite IH; reflexivity|].
  case_bool_decide as Htick; [subst c; simpl; rewrite IH; reflexivity|].
  change ([c] ++ escape s) with (c :: escape s).
  destruct (decide (c = backslash)) as [->|Hback].
  - rewrite unescape_backslash by apply escape_head. rewrite IH. reflexivity.
  - rewrite unescape_other by assumption. rewrite IH. reflexivity.
Qed.

(** X19: the escaping of the summary loses nothing: read from left to
    right, with [&amp;], [&lt;], [&gt;] and a backslash with a backtick
    taken for one character each, the escaped summary gives back the summary
    (or the default text), so two summaries with the same escaped text are
    the same. *)
Theorem safeSummary_round_trip (summary other : option string) :
  unescape (chars (safeSummary summary))
  = chars (default "Generated application deployed by Vibe" summary) ∧
  (safeSummary summary = safeSummary other →
   default "Generated application deployed by Vibe" summary
   = default "Generated application deployed by Vibe" other).
Proof.
  assert (Hback : ∀ s, unescape (chars (safeSummary s))
                       = chars (default "Generated application deployed by Vibe" s)).
  { intros s. unfold safeSummary. rewrite safeSummary_escape. apply unescape_escape. }
  split; [apply Hback|].
  intros Hsame. apply chars_inj. rewrite <- !Hback, Hsame. reflexivity.
Qed.

End UserDataSpec.

(** ** The phase implementation operation, the rest of a run *)

Module OperationSpec.
Import PhaseImplementation PhaseImplementationSpec.

Section Operation.
Context `{Collaborators}.
Variable inputs : PhaseImplementationInputs.
Variable options : OperationOptions.

Local Abbreviation onFileClose := (onFileClose inputs options).
Local Abbreviation act := (act inputs options).
Local Abbreviation executeInference := (executeInference inputs options).
Local Abbreviation execute := (execute inputs options).
Local Abbreviation forwarded := (forwarded inputs options).
Local Abbreviation processLog := (processLog options).

(** *** The opens and the chunks reach the callbacks *)

Lemma streamedCalls_app (es1 es2 : list Effect) :
  streamedCalls (es1 ++ es2) = streamedCalls es1 ++ streamedCalls es2.
Proof. apply omap_app. Qed.

Lemma forwarded_cons (a : StreamAction) (stream : list StreamAction) :
  forwarded (a :: stream) = forwarded [a] ++ forwarded stream.
Proof. unfold PhaseImplementation.forwarded. destruct a; reflexivity. Qed.

Lemma streamedCalls_processLog (p : string) (completedFile : FileOutputType) :
  streamedCalls (processLog p completedFile) = [].
Proof.
  unfold PhaseImplementation.processLog.
  induction (processGeneratedFileContents _ _).1 as [|[[] args] calls IH];
    [reflexivity | exact IH..].
Qed.

Lemma act_forwards (a : StreamAction) (h : Heap) :
  streamedCalls (h_effects (act a h).2) = streamedCalls (h_effects h) ++ forwarded [a].
Proof.
  destruct a as [text | p file | ps | p | p chunk fmt | p | i result].
  1-3, 7: simpl; rewrite app_nil_r; reflexivity.
  - simpl. rewrite <- app_assoc, streamedCalls_app. reflexivity.
  - simpl. rewrite streamedCalls_app. reflexivity.
  - simpl PhaseImplementation.act.
    destruct (onFileClose_cases inputs options p h)
      as [(Hl & ->) | [(f & c & Hl & Hr & ->) | (f & e & Hl & Hr & ->)]];
      simpl; rewrite streamedCalls_app, ?app_nil_r; try reflexivity.
    + change (streamedCalls (h_effects h) ++
                streamedCalls (processLog p f ++ [FileClosedCallback
                  (generatedFileOf inputs options p f c) ("Completed generation of " +:+ p)])
              = streamedCalls (h_effects h)).
      rewrite streamedCalls_app, streamedCalls_processLog, !app_nil_r. reflexivity.
    + change (streamedCalls (h_effects h) ++ streamedCalls (processLog p f)
              = streamedCalls (h_effects h)).
      rewrite streamedCalls_processLog, app_nil_r. reflexivity.
Qed.

Lemma executeInference_forwards (stream : list StreamAction) (h : Heap) :
  ∃ rest,
    streamedCalls (h_effects h) ++ forwarded stream
    = streamedCalls (h_effects (executeInference stream h).2) ++ rest ∧
    (hasReturned (executeInference stream h).1 = true → rest = []).
Proof.
  revert h. induction stream as [|a stream IH]; intros h.
  - exists []. split; reflexivity.
  - rewrite executeInference_cons, forwarded_cons, app_assoc, <- act_forwards.
    destruct (act a h) as [[[]|e] h1].
    + apply IH.
    + exists (forwarded stream). split; [reflexivity | discriminate].
Qed.

(** X8: every file the parser opens and every chunk it emits reaches
    [fileGeneratingCallback] and [fileChunkGeneratedCallback]: one call for
    each, in the order of the stream, the chunk, its path and its format
    passed on as they are. When the run ends by an exception, the calls made
    are those of the first part of the stream. *)
Theorem opens_and_chunks_forwarded (stream : list StreamAction) :
  let run := execute stream initialHeap in
  (∃ rest, forwarded stream = streamedCalls (h_effects run.2) ++ rest) ∧
  (hasReturned run.1 = true → streamedCalls (h_effects run.2) = forwarded stream).
Proof.
  intros run. subst run. rewrite execute_unfold.
  destruct (executeInference_forwards stream (logPhaseStart inputs initialHeap).2)
    as (rest & Heq & Hrest).
  change (streamedCalls (h_effects (logPhaseStart inputs initialHeap).2)) with (@nil Effect)
    in Heq.
  rewrite app_nil_l in Heq.
  destruct (executeInference stream _) as [[[]|e] h]; simpl in *.
  - rewrite streamedCalls_app, app_nil_r.
    split; [exists rest; exact Heq|]. intros _. rewrite Heq, (Hrest eq_refl), app_nil_r.
    reflexivity.
  - split; [exists rest; exact Heq | discriminate].
Qed.


(** *** An exception of the reconciler *)

(** X9: the close callback has no handler around the call of
    [processGeneratedFileContents]: when that call throws for the file
    stored under the closed path, the callback ends by the same exception,
    after the log calls made so far; no promise is pushed for the file, the
    file is not given to [fileClosedCallback], and the streaming state is as
    it was. *)
Theorem reconciler_exception_leaves_close (p : string) (h : Heap)
    (completedFile : FileOutputType) (e : JsError) :
  completedFiles (h_streamingState h) !! p = Some completedFile →
  (processGeneratedFileContents completedFile
     (originalContentsOf (allFiles (context options)) p)).2 = Thrown e →
  (onFileClose p h).1 = Thrown e ∧
  h_streamingState (onFileClose p h).2 = h_streamingState h ∧
  h_fixedFilePromises (onFileClose p h).2 = h_fixedFilePromises h ∧
  callbacks (h_effects (onFileClose p h).2) = callbacks (h_effects h) ∧
  h_effects (onFileClose p h).2
  = h_effects h ++
      LoggerInfo [LogText ("Completed generation of file: " +:+ p)] ::
      processLog p completedFile.
Proof.
  intros Hlookup Hthrown.
  rewrite (onFileClose_thrown inputs options p h completedFile e Hlookup Hthrown).
  simpl. split; [reflexivity|]. split; [reflexivity|]. split; [reflexivity|].
  split; [|reflexivity].
  rewrite callbacks_app.
  change (callbacks (LoggerInfo ?x :: ?l)) with (callbacks l).
  rewrite callbacks_processLog, app_nil_r. reflexivity.
Qed.

(** *** When a deployment is asked for *)

(** X10: when [execute] returns, [deploymentNeeded] is true exactly when
    [fileClosedCallback] was called at least once, and the list of promises
    is as long as the list of those calls; a stream without a close never
    asks for a deployment. *)
Theorem deploymentNeeded_iff_closed (stream : list StreamAction)
    (out : PhaseImplementationOutputs) (h' : Heap) :
  execute stream initialHeap = (Returned out, h') →
  length (fixedFilePromises out) = length (closedFiles (h_effects h')) ∧
  (deploymentNeeded out = true ↔ closedFiles (h_effects h') ≠ []) ∧
  ((∀ p, ParserClosesFile p ∉ stream) → deploymentNeeded out = false).
Proof.
  intros Hexec.
  assert (Hlen : length (fixedFilePromises out) = length (closedFiles (h_effects h'))).
  { destruct (execute_returned inputs options stream out h' Hexec)
      as (h & Hrun & Hout & _ & _ & _ & Hclosed).
    destruct (executeInference_pushes inputs options stream
                (logPhaseStart inputs initialHeap).2) as (new & Hp & Hc).
    rewrite Hrun in Hp, Hc. simpl in Hp, Hc.
    rewrite Hout, Hclosed, Hc, length_fmap.
    apply (f_equal length) in Hp. rewrite !length_fmap in Hp. exact Hp. }
  assert (Hflag : deploymentNeeded out = (0 <? length (fixedFilePromises out))).
  { rewrite execute_unfold in Hexec.
    destruct (executeInference stream _) as [[[]|e] h]; [|discriminate].
    injection Hexec as <- <-. reflexivity. }
  split; [exact Hlen|]. split.
  - rewrite Hflag, Hlen, Nat.ltb_lt.
    destruct (closedFiles (h_effects h')) as [|file files]; simpl.
    + split; [lia | congruence].
    + split; [discriminate | lia].
  - intros Hnone. rewrite Hflag, Hlen.
    assert (Hno : ∀ s h, (∀ p, ParserClosesFile p ∉ s) →
              closedFiles (h_effects (executeInference s h).2) = closedFiles (h_effects h)).
    { induction s as [|a s IH]; intros h Hs; [reflexivity|].
      rewrite executeInference_cons.
      assert (Ha : closedFiles (h_effects (act a h).2) = closedFiles (h_effects h) ∧
                   (act a h).1 = Returned tt).
      { destruct a as [text | q file | ps | q | q chunk fmt | q | i result];
          try (split; [|reflexivity]; simpl; rewrite ?closedFiles_app, ?app_nil_r;
               reflexivity).
        exfalso. apply (Hs q). left. }
      destruct (act a h) as [r h1]. simpl in Ha. destruct Ha as [Ha ->].
      rewrite IH, Ha; [reflexivity|].
      intros q Hq. apply (Hs q). right. exact Hq. }
    destruct (execute_returned inputs options stream out h' Hexec)
      as (h & Hrun & _ & _ & _ & _ & Hclosed).
    rewrite Hclosed. specialize (Hno stream (logPhaseStart inputs initialHeap).2 Hnone).
    rewrite Hrun in Hno. simpl in Hno. rewrite Hno. reflexivity.
Qed.

(** *** What a close writes to the streaming state *)

(** X11: a close changes one thing in the streaming state: the file stored
    under the closed path gets the processed contents, with its path, its
    stored purpose and its format kept (the purpose that was looked up goes
    to the copy given to the callback only). The accumulator, the parsing
    state and the files under other paths stay as they are; a close for a
    path that is not stored, or one in which the reconciler throws, changes
    nothing. *)
Theorem close_writes_back (p : string) (h : Heap) :
  let s := h_streamingState h in
  let s' := h_streamingState (onFileClose p h).2 in
  accumulator s' = accumulator s ∧
  parsingState s' = parsingState s ∧
  (∀ q, q ≠ p → completedFiles s' !! q = completedFiles s !! q) ∧
  completedFiles s' !! p =
    (fun completedFile =>
       match (processGeneratedFileContents completedFile
                (originalContentsOf (allFiles (context options)) p)).2 with
       | Returned contents =>
           mkFile (filePath completedFile) contents
             (filePurpose completedFile) (format completedFile)
       | Thrown _ => completedFile
       end) <$> completedFiles s !! p.
Proof.
  intros s s'. subst s s'.
  destruct (onFileClose_cases inputs options p h)
    as [(Hl & ->) | [(f & c & Hl & Hr & ->) | (f & e & Hl & Hr & ->)]]; simpl.
  - rewrite Hl. auto.
  - rewrite Hl. simpl. rewrite Hr, lookup_insert_eq.
    split; [reflexivity|]. split; [reflexivity|]. split; [|reflexivity].
    intros q Hq. apply lookup_insert_ne. congruence.
  - rewrite Hl. simpl. rewrite Hr. auto.
Qed.

End Operation.

(** *** The two lookups in the files of the context *)

Lemma filesByPath_snoc (allFiles : list FileOutputType) (f : FileOutputType) :
  filesByPath (allFiles ++ [f]) = <[filePath f := f]> (filesByPath allFiles).
Proof. unfold filesByPath. rewrite foldl_app. reflexivity. Qed.

Lemma find_app_path (p : string) (l1 l2 : list FileOutputType) :
  List.find (fun f => bool_decide (filePath f = p)) (l1 ++ l2)
  = match List.find (fun f => bool_decide (filePath f = p)) l1 with
    | Some f => Some f
    | None => List.find (fun f => bool_decide (filePath f = p)) l2
    end.
Proof.
  induction l1 as [|f l1 IH]; [reflexivity|]. simpl.
  destruct (bool_decide (filePath f = p)); [reflexivity | exact IH].
Qed.

Lemma filesByPath_last (allFiles : list FileOutputType) (p : string) :
  filesByPath allFiles !! p
  = List.find (fun f => bool_decide (filePath f = p)) (reverse allFiles).
Proof.
  induction allFiles as [|f allFiles IH] using rev_ind; [reflexivity|].
  rewrite filesByPath_snoc, reverse_snoc. simpl.
  case_bool_decide as Hp.
  - rewrite Hp. apply lookup_insert_eq.
  - rewrite lookup_insert_ne by exact Hp. exact IH.
Qed.

Lemma find_reverse_nodup (allFiles : list FileOutputType) (p : string) :
  NoDup (filePath <$> allFiles) →
  List.find (fun f => bool_decide (filePath f = p)) (reverse allFiles)
  = List.find (fun f => bool_decide (filePath f = p)) allFiles.
Proof.
  induction allFiles as [|f allFiles IH]; [reflexivity|].
  rewrite fmap_cons, NoDup_cons. intros [Hf Hnd].
  rewrite reverse_cons, find_app_path, (IH Hnd). simpl.
  case_bool_decide as Hp.
  - destruct (List.find _ allFiles) as [g|] eqn:Hg; [|reflexivity].
    apply find_some in Hg as [Hin Hg]. apply bool_decide_eq_true in Hg.
    exfalso. apply Hf. rewrite Hp, <- Hg. apply list_elem_of_fmap.
    exists g. split; [reflexivity|]. apply list_elem_of_In. exact Hin.
  - destruct (List.find _ allFiles); reflexivity.
Qed.

(** X12: the map of the files by path, given to [findFilePurpose], holds
    for a path the last file of [allFiles] with that path, while the
    previous contents given to the reconciler are those of the first one.
    When no path comes twice in [allFiles], the two lookups find the same
    file. *)
Theorem context_lookups (allFiles : list FileOutputType) (p : string) :
  filesByPath allFiles !! p
    = List.find (fun f => bool_decide (filePath f = p)) (reverse allFiles) ∧
  (NoDup (filePath <$> allFiles) →
   originalContentsOf allFiles p
     = default "" (fileContents <$> filesByPath allFiles !! p)).
Proof.
  split; [apply filesByPath_last|].
  intros Hnd. unfold originalContentsOf.
  rewrite filesByPath_last, (find_reverse_nodup _ _ Hnd).
  destruct (List.find _ allFiles); reflexivity.
Qed.


Section Examples.
Import Sample.

(** With two entries for one path, the purpose is looked up in the last
    entry and the previous contents are taken from the first. *)
Example lookups_with_duplicates :
  let allFiles := [ mkFile "a.py" "old" "first" full_content;
                    mkFile "a.py" "new" "second" full_content ] in
  originalContentsOf allFiles "a.py" = "old" ∧
  fileContents <$> filesByPath allFiles !! "a.py" = Some "new".
Proof. split; reflexivity. Qed.

Lemma context_lookups_witness :
  originalContentsOf (allFiles (context notesOptions)) "notes.txt"
  = default "" (fileContents <$> filesByPath (allFiles (context notesOptions)) !! "notes.txt").
Proof.
  apply (proj2 (context_lookups (allFiles (context notesOptions)) "notes.txt")).
  apply NoDup_singleton.
Defined.

Lemma deploymentNeeded_iff_closed_witness :
  ∃ out h',
    closeOrderRun = (Returned out, h') ∧
    length (fixedFilePromises out) = length (closedFiles (h_effects h')) ∧
    (deploymentNeeded out = true ↔ closedFiles (h_effects h') ≠ []).
Proof.
  destruct closeOrderRun_returned as (out & h' & Hrun).
  exists out, h'. split; [exact Hrun|].
  destruct (deploymentNeeded_iff_closed (sampleInputs true) (sampleOptions true)
              closeOrderStream out h' Hrun) as (Hlen & Hiff & _).
  split; [exact Hlen | exact Hiff].
Defined.

Lemma opens_and_chunks_forwarded_witness :
  streamedCalls (h_effects closeOrderRun.2)
  = [ FileGeneratingCallback "core/views.py" "Request handlers";
      FileChunkGeneratedCallback "core/views.py" "pass" full_content ].
Proof.
  refine (eq_trans
            (proj2 (opens_and_chunks_forwarded (sampleInputs true) (sampleOptions true)
                      closeOrderStream) _) _).
  - vm_compute. reflexivity.
  - reflexivity.
Defined.

End Examples.

Section StrictExamples.
Import StrictSample.
#[local] Existing Instance strictCollaborators.

Lemma reconciler_exception_leaves_close_witness :
  (PhaseImplementation.onFileClose (Sample.sampleInputs true) strictOptions
     "core/urls.py" strictHeap).1
  = Thrown (mkError "Error" "No contents") ∧
  h_fixedFilePromises
    (PhaseImplementation.onFileClose (Sample.sampleInputs true) strictOptions
       "core/urls.py" strictHeap).2
  = h_fixedFilePromises strictHeap ∧
  callbacks
    (h_effects
       (PhaseImplementation.onFileClose (Sample.sampleInputs true) strictOptions
          "core/urls.py" strictHeap).2)
  = callbacks (h_effects strictHeap).
Proof.
  destruct (reconciler_exception_leaves_close (Sample.sampleInputs true) strictOptions
              "core/urls.py" strictHeap (mkFile "core/urls.py" "" "" full_content)
              (mkError "Error" "No contents"))
    as (Hthrown & _ & Hpromises & Hcalls & _).
  - vm_compute. reflexivity.
  - reflexivity.
  - split; [exact Hthrown|]. split; [exact Hpromises | exact Hcalls].
Defined.

End StrictExamples.

End OperationSpec.

(** ** Matches of a search string *)

Module MatchSpec.
Import JsString SplitSpec JsStringSpec.

Lemma startsWith_length (p s : list ascii) :
  startsWith p s = true → length p ≤ length s.
Proof. rewrite startsWith_spec. intros [t ->]. rewrite length_app. lia. Qed.

(** A match does not reach over a character that the search string does
    not hold. *)
Lemma startsWith_before (p u v : list ascii) (c : ascii) :
  c ∉ p → startsWith p (u ++ c :: v) = true → startsWith p u = true.
Proof.
  revert u. induction p as [|a p IH]; intros u Hc Hm; [reflexivity|].
  apply not_elem_of_cons in Hc as [Hca Hc].
  destruct u as [|b u]; simpl in Hm |- *.
  - apply andb_true_iff in Hm as [Hac _]. apply bool_decide_eq_true in Hac. congruence.
  - apply andb_true_iff in Hm as [Hab Hm]. rewrite Hab. simpl. exact (IH u Hc Hm).
Qed.

Lemma startsWith_more (p u v : list ascii) :
  startsWith p u = true → startsWith p (u ++ v) = true.
Proof.
  rewrite !startsWith_spec. intros [t ->]. exists (t ++ v). rewrite app_assoc. reflexivity.
Qed.

Lemma includesChars_sep (p x y : list ascii) (c : ascii) :
  c ∉ p →
  includesChars (x ++ c :: y) p = includesChars x p || includesChars y p.
Proof.
  intros Hc. apply eq_true_iff_eq.
  rewrite orb_true_iff, !includesChars_spec. unfold matchesAt. split.
  - intros [i [Hi Hm]]. destruct (decide (i ≤ length x)) as [Hle|Hgt].
    + left. exists i. split; [exact Hle|].
      rewrite drop_app_le in Hm by exact Hle. eapply startsWith_before; eassumption.
    + right. exists (i - S (length x)).
      rewrite length_app in Hi. simpl in Hi. split; [lia|].
      rewrite drop_app_ge in Hm by lia.
      replace (i - length x) with (S (i - S (length x))) in Hm by lia. exact Hm.
  - intros [[i [Hi Hm]] | [i [Hi Hm]]].
    + exists i. rewrite length_app. split; [lia|].
      rewrite drop_app_le by exact Hi. apply startsWith_more. exact Hm.
    + exists (S (length x) + i). rewrite length_app. simpl. split; [lia|].
      rewrite drop_app_ge by lia.
      replace (S (length x + i) - length x) with (S i) by lia. exact Hm.
Qed.

(** The search string stands once in a text in which it is set off by two
    characters it does not hold, between two texts that do not include it. *)
Lemma matchesAt_between (p x y : list ascii) (c d : ascii) :
  p ≠ [] → c ∉ p → d ∉ p →
  includesChars x p = false → includesChars y p = false →
  ∀ i, matchesAt p ((x ++ [c]) ++ p ++ d :: y) i → i = length (x ++ [c]).
Proof.
  intros Hp Hc Hd Hx Hy i Hat.
  pose proof (proj1 (includesChars_false _ _) Hx) as Hx'.
  pose proof (proj1 (includesChars_false _ _) Hy) as Hy'.
  clear Hx Hy. rename Hx' into Hx. rename Hy' into Hy. unfold matchesAt in *.
  destruct Hat as [Hi Hm]. rewrite length_app. simpl.
  destruct (decide (i ≤ length x)) as [Hle|Hgt].
  { exfalso. apply (Hx i). split; [exact Hle|].
    rewrite <- app_assoc, drop_app_le in Hm by exact Hle.
    exact (startsWith_before p (drop i x) (p ++ d :: y) c Hc Hm). }
  destruct (decide (i = length x + 1)) as [Heq|Hne]; [exact Heq|]. exfalso.
  rewrite <- app_assoc in Hm. rewrite drop_app_ge in Hm by lia.
  replace (i - length x) with (S (i - length x - 1)) in Hm by lia.
  simpl in Hm.
  destruct (decide (i - length x - 1 ≤ length p)) as [Hin|Hout].
  - rewrite drop_app_le in Hm by exact Hin.
    apply startsWith_before in Hm; [|exact Hd].
    apply startsWith_length in Hm. rewrite length_drop in Hm.
    destruct p; [contradiction|]. simpl in Hm, Hin. lia.
  - apply (Hy (i - length x - 1 - length p - 1)). split.
    + rewrite !length_app in Hi. simpl in Hi. lia.
    + rewrite drop_app_ge in Hm by lia.
      replace (i - length x - 1 - length p) with (S (i - length x - 1 - length p - 1))
        in Hm by lia.
      exact Hm.
Qed.

(** The same at the two ends of a text. *)
Lemma matchesAt_whole (p : list ascii) :
  ∀ i, matchesAt p ([] ++ p ++ []) i → i = length (@nil ascii).
Proof.
  unfold matchesAt. intros i [Hi Hm]. rewrite app_nil_l, app_nil_r in *.
  apply startsWith_length in Hm. rewrite length_drop in Hm. simpl.
  destruct (decide (i = 0)) as [->|Hne]; [reflexivity|].
  destruct p; simpl in *; lia.
Qed.

End MatchSpec.

(** ** worker/agents/prompts.ts, the formatters *)

Module PromptFormatSpec.
Import JsString PromptUtils SplitSpec JsStringSpec MatchSpec.

(** *** Lines and the search for a text of one line *)

Lemma chars_join_cons (line line2 : string) (lines : list string) :
  chars (join newline (line :: line2 :: lines))
  = chars line ++ newline :: chars (join newline (line2 :: lines)).
Proof.
  change (join newline (line :: line2 :: lines))
    with (line +:+ String newline (join newline (line2 :: lines))).
  rewrite chars_append. reflexivity.
Qed.

Lemma includes_empty (p : string) : p ≠ "" → includes "" p = false.
Proof. destruct p; [contradiction | reflexivity]. Qed.

Lemma includes_join (p : string) (lines : list string) :
  p ≠ "" → newline ∉ chars p →
  includes (join newline lines) p = existsb (fun line => includes line p) lines.
Proof.
  intros Hp Hnl. induction lines as [|line lines IH]; [apply includes_empty, Hp|].
  destruct lines as [|line2 lines].
  - simpl. rewrite orb_false_r. reflexivity.
  - unfold includes in *. rewrite chars_join_cons, (includesChars_sep _ _ _ _ Hnl), IH.
    reflexivity.
Qed.

Lemma chars_join_middle (before after : list string) (line : string) :
  before ≠ [] → after ≠ [] →
  chars (join newline (before ++ line :: after))
  = (chars (join newline before) ++ [newline]) ++ chars line
      ++ newline :: chars (join newline after).
Proof.
  intros Hb Ha. induction before as [|b before IH]; [contradiction|].
  destruct after as [|a after]; [contradiction|].
  destruct before as [|b2 before].
  - change (chars (join newline (b :: line :: a :: after))
            = (chars b ++ [newline]) ++ chars line ++ newline :: chars (join newline (a :: after))).
    rewrite !chars_join_cons, <- app_assoc. reflexivity.
  - change ((b :: b2 :: before) ++ line :: a :: after)
      with (b :: (b2 :: before) ++ line :: a :: after).
    change ((b2 :: before) ++ line :: a :: after)
      with (b2 :: (before ++ line :: a :: after)) at 1.
    rewrite chars_join_cons.
    change (b2 :: before ++ line :: a :: after) with ((b2 :: before) ++ line :: a :: after).
    rewrite IH by discriminate. rewrite chars_join_cons, <- !app_assoc. reflexivity.
Qed.

(** A placeholder on a line of its own, in a text whose other lines do not
    include it, is replaced by the value as it is. *)
Lemma replaceAll_line (before after : list string) (p value : string) :
  before ≠ [] → after ≠ [] → p ≠ "" → newline ∉ chars p →
  dollar ∉ chars value →
  Forall (fun line => includes line p = false) before →
  Forall (fun line => includes line p = false) after →
  replaceAll (join newline (before ++ p :: after)) p value
  = join newline (before ++ value :: after).
Proof.
  intros Hb Ha Hp Hnl Hvalue Hbefore Hafter.
  apply chars_inj. unfold replaceAll.
  rewrite chars_ofChars, !chars_join_middle by assumption.
  destruct (chars p) as [|a q] eqn:Hchars.
  { contradiction Hp. apply chars_inj. exact Hchars. }
  assert (Hno : ∀ lines, Forall (fun line => includes line p = false) lines →
                  includesChars (chars (join newline lines)) (a :: q) = false).
  { intros lines Hall. rewrite <- Hchars.
    change (includes (join newline lines) p = false).
    rewrite includes_join; [|exact Hp | rewrite Hchars; exact Hnl].
    apply not_true_iff_false. intros Hex. apply existsb_exists in Hex as (line & Hin & Hline).
    rewrite Forall_forall in Hall. apply list_elem_of_In in Hin.
    rewrite (Hall line Hin) in Hline. discriminate. }
  rewrite replaceAllFrom_one.
  - rewrite (getSubstitution_plain _ _ _ _ Hvalue). reflexivity.
  - apply matchesAt_between; [discriminate | exact Hnl | exact Hnl | apply Hno..];
      assumption.
Qed.


Ltac no_such_char :=
  let Hin := fresh "Hin" in
  intros Hin; repeat (apply elem_of_cons in Hin as [Hin|Hin]; [discriminate|]);
  apply elem_of_nil in Hin; exact Hin.

(** *** Variables are replaced one after the other *)

Lemma replaceAll_whole (p value : string) :
  p ≠ "" → dollar ∉ chars value → replaceAll p p value = value.
Proof.
  intros Hp Hvalue. apply chars_inj. unfold replaceAll. rewrite chars_ofChars.
  destruct (chars p) as [|a q] eqn:Hchars.
  { contradiction Hp. apply chars_inj. exact Hchars. }
  pose proof (replaceAllFrom_one a q (chars value) [] [] (matchesAt_whole (a :: q))) as Hone.
  rewrite app_nil_l, !app_nil_r in Hone. rewrite Hone.
  apply getSubstitution_plain. exact Hvalue.
Qed.

Lemma placeholder_not_empty (key : string) : placeholder key ≠ "".
Proof. discriminate. Qed.

Lemma placeholder_no_dollar (key : string) :
  dollar ∉ chars key → dollar ∉ chars (placeholder key).
Proof.
  intros Hkey. unfold placeholder. rewrite !chars_append, !elem_of_app.
  intros [Hin | [Hin | Hin]]; [|contradiction|];
    repeat (apply elem_of_cons in Hin as [Hin|Hin]; [discriminate|]);
    apply elem_of_nil in Hin; exact Hin.
Qed.

(** X13: the variables are replaced one after the other, in the order of
    the entries, each on the result of the one before. A placeholder that
    comes in with the value of an earlier variable is filled by a later
    variable; a placeholder that comes in with the value of a later variable
    is left in the result. *)
Theorem replaceTemplateVariables_in_order (a b value : string) :
  includes (placeholder a) (placeholder b) = false →
  dollar ∉ chars b →
  dollar ∉ chars value →
  replaceTemplateVariables (placeholder a) [(a, Some (placeholder b)); (b, Some value)]
    = value ∧
  replaceTemplateVariables (placeholder a) [(b, Some value); (a, Some (placeholder b))]
    = placeholder b.
Proof.
  intros Hab Hb Hvalue. unfold replaceTemplateVariables. cbn [foldl fst snd default].
  split.
  - rewrite (replaceAll_whole (placeholder a));
      [|apply placeholder_not_empty | apply placeholder_no_dollar, Hb].
    apply replaceAll_whole; [apply placeholder_not_empty | exact Hvalue].
  - rewrite (replaceAll_absent _ _ _ Hab).
    apply replaceAll_whole; [apply placeholder_not_empty | apply placeholder_no_dollar, Hb].
Qed.

Lemma replaceTemplateVariables_in_order_witness :
  replaceTemplateVariables "{{query}}"
    [("query", Some "{{template}}"); ("template", Some "the files of the template")]
  = "the files of the template" ∧
  replaceTemplateVariables "{{query}}"
    [("template", Some "the files of the template"); ("query", Some "{{template}}")]
  = "{{template}}".
Proof.
  apply (replaceTemplateVariables_in_order "query" "template" "the files of the template").
  - vm_compute. reflexivity.
  - no_such_char.
  - no_such_char.
Defined.

(** *** Render loops among the runtime errors *)

Lemma includes_error (raw m : string) :
  m ≠ "" → "<"%char ∉ chars m → ">"%char ∉ chars m →
  includes "<error" m = false → includes "/error>" m = false →
  includes ("<error>" +:+ raw +:+ "</error>") m = includes raw m.
Proof.
  intros Hm Hlt Hgt Hopen Hclose. unfold includes in *.
  rewrite !chars_append.
  change (chars "<error>" ++ chars raw ++ chars "</error>")
    with (chars "<error" ++ ">"%char :: (chars raw ++ "<"%char :: chars "/error>")).
  rewrite (includesChars_sep _ _ _ _ Hgt), (includesChars_sep _ _ _ _ Hlt), Hopen, Hclose.
  rewrite orb_false_r. reflexivity.
Qed.

Lemma includes_runtimeErrorsText (errors : list RuntimeError) (m : string) :
  m ≠ "" → newline ∉ chars m → "<"%char ∉ chars m → ">"%char ∉ chars m →
  includes "<error" m = false → includes "/error>" m = false →
  includes (runtimeErrorsText errors) m
  = existsb (fun error => includes (interpolate (rawOutput error)) m) errors.
Proof.
  intros Hm Hnl Hlt Hgt Hopen Hclose. unfold runtimeErrorsText.
  rewrite (includes_join _ _ Hm Hnl).
  induction errors as [|error errors IH]; [reflexivity|].
  rewrite fmap_cons. simpl. rewrite IH, includes_error by assumption. reflexivity.
Qed.

(** X14: the test for render loops, made on the text of all the runtime
    errors joined, finds one exactly when the raw output of a single error
    (the text [undefined] when it has none) includes one of the two phrases:
    the [<error>] tags and the line breaks between the errors never make or
    complete a phrase. *)
Theorem render_loops_in_some_error (errors : list RuntimeError) :
  containsRenderLoops (runtimeErrorsText errors) = true ↔
  ∃ error, error ∈ errors ∧ containsRenderLoops (interpolate (rawOutput error)) = true.
Proof.
  unfold containsRenderLoops.
  rewrite (includes_runtimeErrorsText errors "Maximum update depth");
    [| discriminate | no_such_char | no_such_char | no_such_char | reflexivity | reflexivity].
  rewrite (includes_runtimeErrorsText errors "Too many re-renders");
    [| discriminate | no_such_char | no_such_char | no_such_char | reflexivity | reflexivity].
  rewrite orb_true_iff, !existsb_exists. split.
  - intros [(error & Hin & Hm) | (error & Hin & Hm)];
      exists error; (split; [apply list_elem_of_In; exact Hin|]); rewrite Hm;
      [reflexivity | apply orb_true_r].
  - intros (error & Hin & Hm). apply list_elem_of_In in Hin.
    apply orb_true_iff in Hm as [Hm | Hm]; [left | right]; exists error; split; assumption.
Qed.


(** *** The project context *)

Lemma join_no_char (c : ascii) (lines : list string) :
  c ≠ newline → Forall (fun line => c ∉ chars line) lines →
  c ∉ chars (join newline lines).
Proof.
  intros Hc. induction 1 as [|line lines Hline Hlines IH]; [apply not_elem_of_nil|].
  destruct lines as [|line2 lines]; [exact Hline|].
  rewrite chars_join_cons, elem_of_app, elem_of_cons. tauto.
Qed.

Section Formatter.
Import PhaseImplementation USER_PROMPT_FORMATTER.
Variable serializePhases : list PhaseConceptType → string.
Variable scofSerialize : list FileOutputType → string.

Lemma commandsHistoryText_no_dollar (commandsHistory : list string) :
  Forall (fun command => dollar ∉ chars command) commandsHistory →
  dollar ∉ chars (commandsHistoryText commandsHistory).
Proof.
  intros Hall. unfold commandsHistoryText.
  destruct (0 <? length commandsHistory); [|apply not_elem_of_nil].
  apply join_no_char; [discriminate|].
  repeat (constructor; [first [no_such_char | apply join_no_char; [discriminate | exact Hall]]|]).
  constructor.
Qed.

(** X15: when the serialized phases and files and the commands hold no
    dollar sign, and the serialized phases and files do not hold the
    placeholder of a later variable, [USER_PROMPT_FORMATTER.PROJECT_CONTEXT]
    returns the constant [PROJECT_CONTEXT] with its three placeholders
    replaced by the three texts as they are, each at its place; without
    commands the third text is empty. *)
Theorem PROJECT_CONTEXT_filled (phases : list PhaseConceptType)
    (files : list FileOutputType) (commandsHistory : list string) :
  let phasesText := serializePhases phases in
  let filesText := serializeFiles scofSerialize files in
  dollar ∉ chars phasesText →
  dollar ∉ chars filesText →
  Forall (fun command => dollar ∉ chars command) commandsHistory →
  includes phasesText "{{files}}" = false →
  includes phasesText "{{commandsHistory}}" = false →
  includes filesText "{{commandsHistory}}" = false →
  PROJECT_CONTEXT serializePhases scofSerialize phases files commandsHistory
  = Returned
      (join newline
         [ "Here is everything you will need for the project:";
           "";
           "<PROJECT CONTEXT>";
           "";
           "<COMPLETED PHASES>";
           "";
           "The following phases have been completed and implemented:";
           "";
           phasesText;
           "";
           "</COMPLETED PHASES>";
           "";
           "<CODEBASE>";
           "";
           "Here are all the relevant files in the current codebase:";
           "";
           filesText;
           "";
           "**THESE DO NOT INCLUDE PREINSTALLED SHADCN COMPONENTS, REDACTED FOR SIMPLICITY. BUT THEY DO EXIST AND YOU CAN USE THEM.**";
           "";
           "</CODEBASE>";
           "";
           commandsHistoryText commandsHistory;
           "";
           "</PROJECT CONTEXT>";
           "" ]).
Proof.
  intros phasesText filesText Hphases Hfiles Hcommands Hpf Hpc Hfc.
  unfold PROJECT_CONTEXT, Prompts.verifyPrompt. f_equal.
  unfold replaceTemplateVariables, PromptUtils.PROJECT_CONTEXT.
  cbn [foldl fst snd default]. fold phasesText. fold filesText.
  set (l1 := [ "Here is everything you will need for the project:"; "";
               "<PROJECT CONTEXT>"; ""; "<COMPLETED PHASES>"; "";
               "The following phases have been completed and implemented:"; "" ]).
  set (l2 := [ ""; "</COMPLETED PHASES>"; ""; "<CODEBASE>"; "";
               "Here are all the relevant files in the current codebase:"; "" ]).
  set (l3 := [ "";
               "**THESE DO NOT INCLUDE PREINSTALLED SHADCN COMPONENTS, REDACTED FOR SIMPLICITY. BUT THEY DO EXIST AND YOU CAN USE THEM.**";
               ""; "</CODEBASE>"; "" ]).
  set (l4 := [ ""; "</PROJECT CONTEXT>"; "" ]).
  change (replaceAll
            (replaceAll
               (replaceAll
                  (join newline
                     (l1 ++ placeholder "phases"
                         :: (l2 ++ placeholder "files"
                                :: (l3 ++ placeholder "commandsHistory" :: l4))))
                  (placeholder "phases") phasesText)
               (placeholder "files") filesText)
            (placeholder "commandsHistory") (commandsHistoryText commandsHistory)
          = join newline
              (l1 ++ phasesText
                  :: (l2 ++ filesText
                         :: (l3 ++ commandsHistoryText commandsHistory :: l4)))).
  rewrite replaceAll_line;
    [| discriminate | discriminate | discriminate | no_such_char | exact Hphases
     | repeat (constructor; [reflexivity|]); constructor
     | repeat (constructor; [reflexivity|]); constructor ].
  change (l1 ++ phasesText :: l2 ++ placeholder "files"
             :: l3 ++ placeholder "commandsHistory" :: l4)
    with ((l1 ++ phasesText :: l2) ++ placeholder "files"
             :: (l3 ++ placeholder "commandsHistory" :: l4)).
  rewrite replaceAll_line;
    [| discriminate | discriminate | discriminate | no_such_char | exact Hfiles
     | repeat (constructor; [first [reflexivity | exact Hpf]|]); constructor
     | repeat (constructor; [reflexivity|]); constructor ].
  change ((l1 ++ phasesText :: l2) ++ filesText
             :: l3 ++ placeholder "commandsHistory" :: l4)
    with ((l1 ++ phasesText :: l2 ++ filesText :: l3)
             ++ placeholder "commandsHistory" :: l4).
  rewrite replaceAll_line;
    [| discriminate | discriminate | discriminate | no_such_char
     | apply commandsHistoryText_no_dollar, Hcommands
     | repeat (constructor; [first [reflexivity | exact Hpc | exact Hfc]|]); constructor
     | repeat (constructor; [reflexivity|]); constructor ].
  reflexivity.
Qed.

End Formatter.

Lemma PROJECT_CONTEXT_filled_witness :
  ∃ prompt,
    USER_PROMPT_FORMATTER.PROJECT_CONTEXT Sample.samplePhasesText Sample.sampleScof
      [Sample.samplePhase] [Sample.sampleFile "core/views.py" 2] ["pip install django-htmx"]
    = Returned prompt ∧
    includes prompt "{{" = false ∧
    includes prompt "pip install django-htmx" = true.
Proof.
  eexists. split.
  - apply (PROJECT_CONTEXT_filled Sample.samplePhasesText Sample.sampleScof
             [Sample.samplePhase] [Sample.sampleFile "core/views.py" 2]
             ["pip install django-htmx"]).
    + no_such_char.
    + no_such_char.
    + constructor; [no_such_char | constructor].
    + vm_compute. reflexivity.
    + vm_compute. reflexivity.
    + vm_compute. reflexivity.
  - split; vm_compute; reflexivity.
Defined.

End PromptFormatSpec.

(** ** The DigitalOcean deployment helper, the calls of the API *)

Module DropletApiSpec.
Import JsString PromptUtils DigitalOcean DropletApi.
Import PhaseImplementation(JsError, mkError).


Ltac unfold_n := unfold mbind, mret, N_bind, N_ret, throw, fetch, dateNow, sleep in *.

(** *** One lookup *)

Lemma getDroplet_cases (token : string) (dropletId : nat) (w : World) :
  match responses w with
  | [] => getDroplet token dropletId w = None
  | r :: rest =>
      let w' := mkWorld rest (clock w) (events w ++ [Fetched (lookupRequest token dropletId)]) in
      getDroplet token dropletId w =
        Some (match r with
              | Returned (OkResponse droplet) => Returned (resultOf droplet)
              | Returned (OkWithoutDroplet message) => Thrown (mkError "TypeError" message)
              | Returned (OkUnreadable error) => Thrown error
              | Returned (NotOkResponse status statusText text) =>
                  Thrown (mkError "Error"
                            (failureMessage "DigitalOcean droplet lookup failed: "
                               status statusText text))
              | Returned (NotOkUnreadable _ _ error) => Thrown error
              | Thrown e => Thrown e
              end, w')
  end.
Proof.
  unfold getDroplet. unfold_n.
  destruct (responses w)
    as [|[[droplet|message|error|status statusText text|status statusText error]|e] rest];
    reflexivity.
Qed.


(** *** The loop *)

Lemma pollDroplet_settles (token : string) (dropletId : nat)
    (pollInterval timeout start : Z) (rounds : nat) :
  ∀ (w w' : World) (r : Outcome JsError DigitalOceanDeploymentResult),
    pollDroplet rounds token dropletId pollInterval timeout start w = Some (r, w') →
    match r with
    | Returned droplet =>
        isActive droplet = true ∧
        ∃ json, Returned (OkResponse json) ∈ responses w ∧ droplet = resultOf json
    | Thrown e =>
        (∃ response, response ∈ responses w ∧ lookupFailure response = Some e) ∨
        (e = timedOut dropletId ∧ ∃ now, now ∈ clock w ∧ (timeout < now - start)%Z)
    end.
Proof.
  induction rounds as [|rounds IH]; intros w w' r Hrun; [discriminate|].
  simpl in Hrun. unfold mbind at 1 in Hrun. unfold N_bind at 1 in Hrun.
  pose proof (getDroplet_cases token dropletId w) as Hget.
  destruct (responses w) as [|first rest] eqn:Hresponses.
  { rewrite Hget in Hrun. discriminate. }
  simpl in Hget. rewrite Hget in Hrun. clear Hget.
  destruct first as [[json|message|error|status statusText text|status statusText error]|e].
  - destruct (isActive (resultOf json)) eqn:Hactive.
    + injection Hrun as <- <-. split; [exact Hactive|].
      exists json. split; [left | reflexivity].
    + unfold_n. simpl in Hrun.
      destruct (clock w) as [|now later] eqn:Hclock; [discriminate|].
      destruct (timeout <? now - start)%Z eqn:Hlate.
      * injection Hrun as <- <-. right. split; [reflexivity|].
        exists now. split; [left | apply Z.ltb_lt, Hlate].
      * simpl in Hrun. apply IH in Hrun. simpl in Hrun.
        destruct r as [droplet|e].
        -- destruct Hrun as (Hact & json' & Hin & Heq). split; [exact Hact|].
           exists json'. split; [right; exact Hin | exact Heq].
        -- destruct Hrun as [(response & Hin & Hfail) | (Heq & now' & Hin & Hnow)].
           ++ left. exists response. split; [right; exact Hin | exact Hfail].
           ++ right. split; [exact Heq|]. exists now'. split; [right; exact Hin | exact Hnow].
  - injection Hrun as <- <-. left. eexists. split; [left | reflexivity].
  - injection Hrun as <- <-. left. eexists. split; [left | reflexivity].
  - injection Hrun as <- <-. left. eexists. split; [left | reflexivity].
  - injection Hrun as <- <-. left. eexists. split; [left | reflexivity].
  - injection Hrun as <- <-. left. eexists. split; [left | reflexivity].
Qed.

Lemma pollDroplet_S (token : string) (dropletId : nat)
    (pollInterval timeout start : Z) (rounds : nat) (w : World) :
  pollDroplet (S rounds) token dropletId pollInterval timeout start w
  = match getDroplet token dropletId w with
    | None => None
    | Some (Thrown e, w1) => Some (Thrown e, w1)
    | Some (Returned droplet, w1) =>
        if isActive droplet then Some (Returned droplet, w1)
        else
          match clock w1 with
          | [] => None
          | now :: later =>
              if (timeout <? now - start)%Z
              then Some (Thrown (timedOut dropletId),
                         mkWorld (responses w1) later (events w1))
              else pollDroplet rounds token dropletId pollInterval timeout start
                     (mkWorld (responses w1) later (events w1 ++ [Slept pollInterval]))
          end
    end.
Proof.
  simpl. unfold mbind at 1. unfold N_bind at 1.
  destruct (getDroplet token dropletId w) as [[[droplet|e] w1]|]; try reflexivity.
  destruct (isActive droplet); [reflexivity|].
  unfold_n. destruct (clock w1) as [|now later]; [reflexivity|].
  destruct (timeout <? now - start)%Z; reflexivity.
Qed.

Lemma getDroplet_responses (token : string) (dropletId : nat) (w w1 : World)
    (r : Outcome JsError DigitalOceanDeploymentResult) :
  getDroplet token dropletId w = Some (r, w1) →
  length (responses w) = S (length (responses w1)) ∧ clock w1 = clock w.
Proof.
  pose proof (getDroplet_cases token dropletId w) as Hget.
  destruct (responses w) as [|first rest]; [rewrite Hget; discriminate|].
  simpl in Hget. rewrite Hget. intros [= _ <-]. split; reflexivity.
Qed.

(** More rounds than the world has outcomes of [fetch] change nothing. *)
Lemma pollDroplet_more (token : string) (dropletId : nat)
    (pollInterval timeout start : Z) (rounds : nat) :
  ∀ w : World,
    length (responses w) < rounds →
    pollDroplet rounds token dropletId pollInterval timeout start w
    = pollDroplet (S rounds) token dropletId pollInterval timeout start w.
Proof.
  induction rounds as [|rounds IH]; intros w Hlen; [lia|].
  rewrite (pollDroplet_S _ _ _ _ _ (S rounds)), pollDroplet_S.
  destruct (getDroplet token dropletId w) as [[[droplet|e] w1]|] eqn:Hget; try reflexivity.
  apply getDroplet_responses in Hget as [Hlen1 _].
  destruct (isActive droplet); [reflexivity|].
  destruct (clock w1) as [|now later]; [reflexivity|].
  destruct (timeout <? now - start)%Z; [reflexivity|].
  apply IH. simpl. lia.
Qed.

Lemma pollDroplet_rounds (token : string) (dropletId : nat)
    (pollInterval timeout start : Z) (w : World) (more : nat) :
  pollDroplet (S (length (responses w)) + more) token dropletId pollInterval timeout start w
  = pollDroplet (S (length (responses w))) token dropletId pollInterval timeout start w.
Proof.
  induction more as [|more IH]; [rewrite Nat.add_0_r; reflexivity|].
  rewrite Nat.add_succ_r, <- pollDroplet_more by lia. exact IH.
Qed.

(** X16: when [waitForDropletActive] settles, it returns a droplet only
    if a lookup showed it with the status [active] and an IPv4 address that
    is not empty, and it returns the droplet of that lookup. It throws either
    the error of a lookup that failed ([fetch] rejected, the response was
    without [ok] or its text could not be read, the body of a response with
    [ok] could not be read or held no droplet), or the timeout error, and
    the latter only when a reading of the clock taken after the start was
    later than the start by more than the timeout of the options (five
    minutes when none is given, zero when zero is given). *)
Theorem waitForDropletActive_settles (options : DigitalOceanDeploymentOptions)
    (dropletId : nat) (w w' : World) (r : Outcome JsError DigitalOceanDeploymentResult) :
  waitForDropletActive options dropletId w = Some (r, w') →
  match r with
  | Returned droplet =>
      Droplet.status droplet = "active" ∧
      (∃ c ip, Droplet.ipv4Address droplet = Some (String c ip)) ∧
      ∃ json, Returned (OkResponse json) ∈ responses w ∧ droplet = resultOf json
  | Thrown e =>
      (∃ response, response ∈ responses w ∧ lookupFailure response = Some e) ∨
      (e = timedOut dropletId ∧
       ∃ start now,
         head (clock w) = Some start ∧ now ∈ tail (clock w) ∧
         (default DEFAULT_TIMEOUT (Options.timeoutMs options) < now - start)%Z)
  end.
Proof.
  unfold waitForDropletActive, whileTrue. unfold mbind, N_bind, dateNow.
  destruct (clock w) as [|start later] eqn:Hclock; [discriminate|].
  intros Hrun. apply pollDroplet_settles in Hrun. simpl in Hrun.
  destruct r as [droplet|e].
  - destruct Hrun as (Hactive & Hjson). unfold isActive in Hactive.
    apply andb_true_iff in Hactive as [Hstatus Hip].
    apply bool_decide_eq_true in Hstatus. split; [exact Hstatus|]. split; [|exact Hjson].
    destruct (Droplet.ipv4Address droplet) as [[|c ip]|]; try discriminate.
    exists c, ip. reflexivity.
  - destruct Hrun as [Hfail | (Heq & now & Hin & Hnow)]; [left; exact Hfail|].
    right. split; [exact Heq|]. exists start, now. auto.
Qed.


(** *** A droplet that becomes active *)

Lemma pollEvents_next (request : Request) (ms : Z) (lookups : nat) :
  pollEvents request ms (S (S lookups))
  = Fetched request :: Slept ms :: pollEvents request ms (S lookups).
Proof. reflexivity. Qed.

Lemma getDroplet_ok (token : string) (dropletId : nat) (json : Json.DropletJson)
    (rest : list (Outcome JsError Response)) (readings : list Z) (es : list Event) :
  getDroplet token dropletId (mkWorld (Returned (OkResponse json) :: rest) readings es)
  = Some (Returned (resultOf json),
          mkWorld rest readings (es ++ [Fetched (lookupRequest token dropletId)])).
Proof. reflexivity. Qed.

Lemma pollDroplet_returns (token : string) (dropletId : nat) (ms timeout start : Z)
    (json : Json.DropletJson) (rest : list (Outcome JsError Response)) (later : list Z)
    (waiting : list Json.DropletJson) :
  Forall (fun j => isActive (resultOf j) = false) waiting →
  isActive (resultOf json) = true →
  ∀ (rounds : nat) (nows : list Z) (es : list Event),
    length waiting < rounds →
    length nows = length waiting →
    Forall (fun now => (now - start ≤ timeout)%Z) nows →
    pollDroplet rounds token dropletId ms timeout start
      (mkWorld (((fun j => Returned (OkResponse j)) <$> waiting)
                  ++ Returned (OkResponse json) :: rest)
         (nows ++ later) es)
    = Some (Returned (resultOf json),
            mkWorld rest later
              (es ++ pollEvents (lookupRequest token dropletId) ms (S (length waiting)))).
Proof.
  intros Hwaiting Hactive.
  induction Hwaiting as [|j waiting Hj Hwaiting IH]; intros rounds nows es Hrounds Hlen Hnows.
  - destruct rounds as [|rounds]; [simpl in Hrounds; lia|].
    destruct nows; [|discriminate].
    rewrite pollDroplet_S, fmap_nil, !app_nil_l, getDroplet_ok, Hactive. reflexivity.
  - destruct rounds as [|rounds]; [simpl in Hrounds; lia|].
    destruct nows as [|now nows]; [discriminate|].
    apply Forall_cons in Hnows as [Hnow Hnows]. simpl in Hlen, Hrounds.
    rewrite pollDroplet_S, fmap_cons, <- app_comm_cons, getDroplet_ok, Hj.
    cbn [clock responses events]. rewrite <- app_comm_cons.
    replace (timeout <? now - start)%Z with false by (symmetry; apply Z.ltb_ge; exact Hnow).
    rewrite IH by (first [lia | exact Hnows]).
    rewrite length_cons, pollEvents_next, <- !app_assoc. reflexivity.
Qed.

(** X17: when the first lookups show a droplet that is not active yet,
    each at a time within the timeout, and the next lookup shows it active
    with an address, [waitForDropletActive] returns the droplet of that
    lookup, whatever the clock says then: it has sent one lookup for each of
    them, with the token and the id it was given, and has waited for the
    poll interval of the options between two lookups (five seconds when none
    is given). *)
Theorem waitForDropletActive_returns (options : DigitalOceanDeploymentOptions)
    (dropletId : nat) (waiting : list Json.DropletJson) (json : Json.DropletJson)
    (rest : list (Outcome JsError Response)) (start : Z) (nows later : list Z)
    (es : list Event) :
  Forall (fun j => isActive (resultOf j) = false) waiting →
  isActive (resultOf json) = true →
  length nows = length waiting →
  Forall (fun now => (now - start ≤ default DEFAULT_TIMEOUT (Options.timeoutMs options))%Z)
    nows →
  waitForDropletActive options dropletId
    (mkWorld (((fun j => Returned (OkResponse j)) <$> waiting)
                ++ Returned (OkResponse json) :: rest)
       (start :: nows ++ later) es)
  = Some (Returned (resultOf json),
          mkWorld rest later
            (es ++ pollEvents (lookupRequest (Options.token options) dropletId)
                     (default DEFAULT_POLL_INTERVAL (Options.pollIntervalMs options))
                     (S (length waiting)))).
Proof.
  intros Hwaiting Hactive Hlen Hnows.
  unfold waitForDropletActive, whileTrue. unfold mbind, N_bind, dateNow.
  cbn [clock responses events].
  apply pollDroplet_returns; try assumption.
  rewrite length_app, length_fmap. simpl. lia.
Qed.


(** *** The requests of a deployment *)

Lemma pollDroplet_events (token : string) (dropletId : nat) (ms timeout start : Z)
    (rounds : nat) :
  ∀ (w w' : World) (r : Outcome JsError DigitalOceanDeploymentResult),
    pollDroplet rounds token dropletId ms timeout start w = Some (r, w') →
    ∃ lookups,
      events w' = events w ++ pollEvents (lookupRequest token dropletId) ms (S lookups).
Proof.
  induction rounds as [|rounds IH]; intros w w' r Hrun; [discriminate|].
  rewrite pollDroplet_S in Hrun.
  pose proof (getDroplet_cases token dropletId w) as Hget.
  destruct (responses w) as [|first rest]; [rewrite Hget in Hrun; discriminate|].
  simpl in Hget. rewrite Hget in Hrun. clear Hget.
  destruct first as [[json|message|error|status statusText text|status statusText error]|e].
  - destruct (isActive (resultOf json)).
    + injection Hrun as <- <-. exists 0. reflexivity.
    + cbn [clock responses events] in Hrun. destruct (clock w) as [|now later]; [discriminate|].
      destruct (timeout <? now - start)%Z.
      * injection Hrun as <- <-. exists 0. reflexivity.
      * apply IH in Hrun as [lookups Hevents]. exists (S lookups).
        rewrite Hevents, pollEvents_next. cbn [events]. rewrite <- !app_assoc. reflexivity.
  - injection Hrun as <- <-. exists 0. reflexivity.
  - injection Hrun as <- <-. exists 0. reflexivity.
  - injection Hrun as <- <-. exists 0. reflexivity.
  - injection Hrun as <- <-. exists 0. reflexivity.
  - injection Hrun as <- <-. exists 0. reflexivity.
Qed.

(** X18: a deployment that settles has sent the creation request first,
    and after it nothing but lookups of the droplet whose id the creation
    returned, with the token of the options and the poll interval between
    two of them; with [waitForActive: false] it has sent the creation request
    only. The user data of the creation request is the one of the options
    when there is one, even the empty string, else the default script for
    the name and the summary. *)
Theorem deployment_requests (toLowerCase : string → string)
    (options : DigitalOceanDeploymentOptions) (w w' : World)
    (r : Outcome JsError DigitalOceanDeploymentResult) :
  deployToDigitalOceanDroplet toLowerCase options w = Some (r, w') →
  ∃ lookups,
    events w'
    = events w ++
        Fetched (createRequest (withUserData toLowerCase options)) ::
        pollEvents (lookupRequest (Options.token options) (createdId w))
          (default DEFAULT_POLL_INTERVAL (Options.pollIntervalMs options)) lookups ∧
    (Options.waitForActive options = Some false → lookups = 0) ∧
    user_data <$> body (createRequest (withUserData toLowerCase options))
    = Some (Some (default (buildDefaultUserData toLowerCase (Options.name options)
                             (Options.summary options))
                    (Options.userData options))).
Proof.
  intros Hrun.
  assert (Hdata :
    user_data <$> body (createRequest (withUserData toLowerCase options))
    = Some (Some (default (buildDefaultUserData toLowerCase (Options.name options)
                             (Options.summary options))
                    (Options.userData options)))).
  { simpl. destruct (Options.userData options); reflexivity. }
  unfold deployToDigitalOceanDroplet, createDroplet, createdId in *.
  unfold mbind at 1 2 in Hrun. unfold N_bind at 1 2 in Hrun. unfold fetch in Hrun.
  destruct (responses w) as [|first rest] eqn:Hresponses; [discriminate|].
  destruct first as [[json|message|error|status statusText text|status statusText error]|e].
  - cbn [head]. 
    assert (Hwait : ∀ w1,
      events w1 = events w ++ [Fetched (createRequest (withUserData toLowerCase options))] →
      waitForDropletActive options (Droplet.dropletId (resultOf json)) w1 = Some (r, w') →
      ∃ lookups,
        events w' = events w ++
          Fetched (createRequest (withUserData toLowerCase options)) ::
          pollEvents (lookupRequest (Options.token options) (Json.id json))
            (default DEFAULT_POLL_INTERVAL (Options.pollIntervalMs options)) lookups).
    { intros w1 Hw1 Hwait. unfold waitForDropletActive, whileTrue in Hwait.
      unfold mbind, N_bind, dateNow in Hwait.
      destruct (clock w1) as [|start later]; [discriminate|].
      apply pollDroplet_events in Hwait as [lookups Hevents].
      exists (S lookups). rewrite Hevents. cbn [events]. rewrite Hw1, <- app_assoc.
      reflexivity. }
    unfold mret, N_ret in Hrun. cbn beta iota in Hrun.
    destruct (Options.waitForActive options) as [[]|] eqn:Hflag.
    + destruct (Hwait (mkWorld rest (clock w)
                         (events w ++
                            [Fetched (createRequest (withUserData toLowerCase options))]))
                  eq_refl Hrun) as [lookups Hevents].
      exists lookups. split; [exact Hevents|]. split; [discriminate | exact Hdata].
    + injection Hrun as <- <-. exists 0. cbn [events pollEvents].
      split; [reflexivity|]. split; [reflexivity | exact Hdata].
    + destruct (Hwait (mkWorld rest (clock w)
                         (events w ++
                            [Fetched (createRequest (withUserData toLowerCase options))]))
                  eq_refl Hrun) as [lookups Hevents].
      exists lookups. split; [exact Hevents|]. split; [discriminate | exact Hdata].
  - unfold throw in Hrun. injection Hrun as <- <-. exists 0.
    split; [reflexivity|]. split; [reflexivity | exact Hdata].
  - unfold throw in Hrun. injection Hrun as <- <-. exists 0.
    split; [reflexivity|]. split; [reflexivity | exact Hdata].
  - unfold throw in Hrun. injection Hrun as <- <-. exists 0.
    split; [reflexivity|]. split; [reflexivity | exact Hdata].
  - unfold throw in Hrun. injection Hrun as <- <-. exists 0.
    split; [reflexivity|]. split; [reflexivity | exact Hdata].
  - injection Hrun as <- <-. exists 0.
    split; [reflexivity|]. split; [reflexivity | exact Hdata].
Qed.


(** *** A lookup that fails, and the timeout *)

Lemma getDroplet_failed (token : string) (dropletId : nat)
    (failing : Outcome JsError Response) (e : JsError)
    (rest : list (Outcome JsError Response)) (readings : list Z) (es : list Event) :
  lookupFailure failing = Some e →
  getDroplet token dropletId (mkWorld (failing :: rest) readings es)
  = Some (Thrown e, mkWorld rest readings (es ++ [Fetched (lookupRequest token dropletId)])).
Proof.
  destruct failing
    as [[json|message|error|status statusText text|status statusText error]|e'];
    [discriminate|..]; intros [= <-]; reflexivity.
Qed.

Lemma pollDroplet_throws (token : string) (dropletId : nat) (ms timeout start : Z)
    (rest : list (Outcome JsError Response)) (later : list Z)
    (waiting : list Json.DropletJson) :
  Forall (fun j => isActive (resultOf j) = false) waiting →
  ∀ (rounds : nat) (nows : list Z) (es : list Event),
    length waiting < rounds →
    length nows = length waiting →
    Forall (fun now => (now - start ≤ timeout)%Z) nows →
    (∀ failing e,
       lookupFailure failing = Some e →
       pollDroplet rounds token dropletId ms timeout start
         (mkWorld (((fun j => Returned (OkResponse j)) <$> waiting) ++ failing :: rest)
            (nows ++ later) es)
       = Some (Thrown e,
               mkWorld rest later
                 (es ++ pollEvents (lookupRequest token dropletId) ms (S (length waiting))))) ∧
    (∀ json now,
       isActive (resultOf json) = false →
       (timeout < now - start)%Z →
       pollDroplet rounds token dropletId ms timeout start
         (mkWorld (((fun j => Returned (OkResponse j)) <$> waiting)
                     ++ Returned (OkResponse json) :: rest)
            (nows ++ now :: later) es)
       = Some (Thrown (timedOut dropletId),
               mkWorld rest later
                 (es ++ pollEvents (lookupRequest token dropletId) ms (S (length waiting))))).
Proof.
  induction 1 as [|j waiting Hj Hwaiting IH]; intros rounds nows es Hrounds Hlen Hnows.
  - destruct rounds as [|rounds]; [simpl in Hrounds; lia|].
    destruct nows; [|discriminate]. split.
    + intros failing e Hfail.
      rewrite pollDroplet_S, fmap_nil, !app_nil_l, (getDroplet_failed _ _ _ _ _ _ _ Hfail).
      reflexivity.
    + intros json now Hnot Hlate.
      rewrite pollDroplet_S, fmap_nil, !app_nil_l, getDroplet_ok, Hnot.
      cbn [clock responses events].
      replace (timeout <? now - start)%Z with true by (symmetry; apply Z.ltb_lt; exact Hlate).
      reflexivity.
  - destruct rounds as [|rounds]; [simpl in Hrounds; lia|].
    destruct nows as [|now' nows]; [discriminate|].
    apply Forall_cons in Hnows as [Hnow Hnows]. simpl in Hlen, Hrounds.
    destruct (IH rounds nows
                ((es ++ [Fetched (lookupRequest token dropletId)]) ++ [Slept ms]))
      as [IHfail IHlate]; [lia | lia | exact Hnows |].
    split.
    + intros failing e Hfail.
      rewrite pollDroplet_S, fmap_cons, <- app_comm_cons, getDroplet_ok, Hj.
      cbn [clock responses events]. rewrite <- app_comm_cons.
      replace (timeout <? now' - start)%Z with false
        by (symmetry; apply Z.ltb_ge; exact Hnow).
      rewrite (IHfail failing e Hfail), length_cons, pollEvents_next, <- !app_assoc.
      reflexivity.
    + intros json now Hnot Hlate.
      rewrite pollDroplet_S, fmap_cons, <- app_comm_cons, getDroplet_ok, Hj.
      cbn [clock responses events]. rewrite <- app_comm_cons.
      replace (timeout <? now' - start)%Z with false
        by (symmetry; apply Z.ltb_ge; exact Hnow).
      rewrite (IHlate json now Hnot Hlate), length_cons, pollEvents_next, <- !app_assoc.
      reflexivity.
Qed.

(** X20: a lookup that fails ends the wait at once, by its error: there is
    no second try. And when a lookup shows the droplet not active yet and
    the reading of the clock after it is later than the start by more than
    the timeout, the wait ends by the timeout error, without another wait.
    In both cases one lookup was sent for each round, with the poll interval
    between two of them. *)
Theorem waitForDropletActive_throws (options : DigitalOceanDeploymentOptions)
    (dropletId : nat) (waiting : list Json.DropletJson)
    (rest : list (Outcome JsError Response)) (start : Z) (nows later : list Z)
    (es : list Event) :
  Forall (fun j => isActive (resultOf j) = false) waiting →
  length nows = length waiting →
  Forall (fun now => (now - start ≤ default DEFAULT_TIMEOUT (Options.timeoutMs options))%Z)
    nows →
  let after :=
    mkWorld rest later
      (es ++ pollEvents (lookupRequest (Options.token options) dropletId)
               (default DEFAULT_POLL_INTERVAL (Options.pollIntervalMs options))
               (S (length waiting))) in
  (∀ failing e,
     lookupFailure failing = Some e →
     waitForDropletActive options dropletId
       (mkWorld (((fun j => Returned (OkResponse j)) <$> waiting) ++ failing :: rest)
          (start :: nows ++ later) es)
     = Some (Thrown e, after)) ∧
  (∀ json now,
     isActive (resultOf json) = false →
     (default DEFAULT_TIMEOUT (Options.timeoutMs options) < now - start)%Z →
     waitForDropletActive options dropletId
       (mkWorld (((fun j => Returned (OkResponse j)) <$> waiting)
                   ++ Returned (OkResponse json) :: rest)
          (start :: nows ++ now :: later) es)
     = Some (Thrown (timedOut dropletId), after)).
Proof.
  intros Hwaiting Hlen Hnows after. subst after.
  unfold waitForDropletActive, whileTrue. unfold mbind, N_bind, dateNow.
  cbn [clock responses events].
  split.
  - intros failing e Hfail.
    apply (pollDroplet_throws _ _ _ _ _ _ _ _ Hwaiting); try assumption.
    rewrite length_app, length_fmap. simpl. lia.
  - intros json now Hnot Hlate.
    apply (pollDroplet_throws _ _ _ _ _ _ _ _ Hwaiting); try assumption.
    rewrite length_app, length_fmap. simpl. lia.
Qed.

(** *** One deployment *)

Section Examples.
Import DropletSample.

Lemma waitForDropletActive_settles_witness :
  ∃ droplet w',
    waitForDropletActive sampleOptions 42
      (mkWorld [Returned (OkResponse newDroplet); Returned (OkResponse activeDroplet)]
         [0; 1000]%Z [])
    = Some (Returned droplet, w') ∧
    Droplet.status droplet = "active".
Proof.
  eexists _, _. split; [vm_compute; reflexivity|].
  exact (proj1 (waitForDropletActive_settles sampleOptions 42
                  (mkWorld [Returned (OkResponse newDroplet);
                            Returned (OkResponse activeDroplet)] [0; 1000]%Z [])
                  _ (Returned _) eq_refl)).
Defined.

(** A response with [ok] whose body holds no droplet, and one whose body
    cannot be read: the wait ends by the error of the lookup. *)
Example lookup_without_droplet :
  waitForDropletActive sampleOptions 42
    (mkWorld [Returned (OkWithoutDroplet "Cannot read properties of undefined (reading 'id')")]
       [0]%Z [])
  = Some (Thrown (mkError "TypeError" "Cannot read properties of undefined (reading 'id')"),
          mkWorld [] [] [Fetched (lookupRequest "secret" 42)]) ∧
  waitForDropletActive sampleOptions 42
    (mkWorld [Returned (OkUnreadable (mkError "SyntaxError" "Unexpected end of JSON input"))]
       [0]%Z [])
  = Some (Thrown (mkError "SyntaxError" "Unexpected end of JSON input"),
          mkWorld [] [] [Fetched (lookupRequest "secret" 42)]).
Proof. split; reflexivity. Qed.

Lemma waitForDropletActive_returns_witness :
  waitForDropletActive sampleOptions 42
    (mkWorld [Returned (OkResponse newDroplet); Returned (OkResponse activeDroplet)]
       [0; 1000]%Z [])
  = Some (Returned (resultOf activeDroplet),
          mkWorld [] []
            [ Fetched (lookupRequest "secret" 42); Slept 1000;
              Fetched (lookupRequest "secret" 42) ]).
Proof.
  apply (waitForDropletActive_returns sampleOptions 42 [newDroplet] activeDroplet
           [] 0%Z [1000%Z] [] []).
  - constructor; [reflexivity | constructor].
  - reflexivity.
  - reflexivity.
  - constructor; [vm_compute; discriminate | constructor].
Defined.

Lemma deployment_requests_witness :
  ∃ r w' lookups,
    deployToDigitalOceanDroplet asciiToLowerCase sampleOptions sampleWorld = Some (r, w') ∧
    events w'
    = Fetched (createRequest (withUserData asciiToLowerCase sampleOptions))
        :: pollEvents (lookupRequest "secret" 42) 1000 lookups.
Proof.
  destruct (deployToDigitalOceanDroplet asciiToLowerCase sampleOptions sampleWorld)
    as [[r w']|] eqn:Hrun; [|vm_compute in Hrun; discriminate].
  destruct (deployment_requests asciiToLowerCase sampleOptions sampleWorld w' r Hrun)
    as (lookups & Hevents & _ & _).
  exists r, w', lookups. split; [reflexivity | exact Hevents].
Defined.

Lemma waitForDropletActive_throws_witness :
  waitForDropletActive sampleOptions 42
    (mkWorld [Returned (OkResponse newDroplet); Returned (OkResponse newDroplet)]
       [0; 1000; 4500]%Z [])
  = Some (Thrown (timedOut 42),
          mkWorld [] []
            [ Fetched (lookupRequest "secret" 42); Slept 1000;
              Fetched (lookupRequest "secret" 42) ]).
Proof.
  apply (proj2 (waitForDropletActive_throws sampleOptions 42 [newDroplet] [] 0%Z
                  [1000%Z] [] []
                  ltac:(constructor; [reflexivity | constructor])
                  eq_refl
                  ltac:(constructor; [vm_compute; discriminate | constructor]))
           newDroplet 4500%Z).
  - reflexivity.
  - reflexivity.
Defined.

End Examples.

End DropletApiSpec.
